(** * scipp: coordinate-transform graph engine and bin remapping

    A shallow embedding of the Python sources

    - [src/scipp/core/bin_remapping.py]  (bin remapping),
    - [src/scipp/coords/transform_coords.py] (write-back, dimension renaming),
    - [src/scipp/coords.py] (rules, rule graph, rule sequence),

    together with the properties of the design document that concern them,
    and further properties of the same code. *)

From Stdlib Require Import ZArith QArith Lia.
From stdpp Require Import gmap strings list fin_maps.

Open Scope Z_scope.

(** A computation that returns a value or raises an exception of type [X]. *)
Definition result (X A : Type) : Type := X + A.

Definition raise {X A} (e : X) : result X A := inl e.
Definition ok {X A} (x : A) : result X A := inr x.

#[global] Instance result_bind {X} : MBind (result X) :=
  λ A B f m, match m with
             | inl e => inl e
             | inr x => f x
             end.

(* ===================================================================== *)
(** * Part I: bin remapping ([core/bin_remapping.py])                      *)
(* ===================================================================== *)

Module BinRemapping.

(** ** Dense index variables

    The begin/end/size variables of a binned variable are dense integer
    arrays over the outer dimensions.  All functions below work relative to
    one dimension [dim]; a row-major array with dimensions
    [pre_1..pre_k, dim, post_1..post_m] is kept in its three-axis view: axis
    one runs over the flattened dimensions before [dim], axis two over [dim],
    axis three over the flattened dimensions after [dim].

    The offsets are written here as mathematical integers. The library keeps
    them as 64-bit integers; [Int64Offsets], after this module, has that
    arithmetic for the offsets that a remap rebuilds. *)

Record Arr := mkArr {
  n1 : nat;
  n2 : nat;
  n3 : nat;
  get : nat → nat → nat → Z;
}.

Definition in_range (a : Arr) (i j k : nat) : Prop :=
  (i < n1 a)%nat ∧ (j < n2 a)%nat ∧ (k < n3 a)%nat.

Definition same_shape (a b : Arr) : bool :=
  bool_decide (n1 a = n1 b ∧ n2 a = n2 b ∧ n3 a = n3 b).

(** Row-major enumeration of the positions of an array. *)
Definition indices (a : Arr) : list (nat * nat * nat) :=
  i ← seq 0 (n1 a); j ← seq 0 (n2 a); k ← seq 0 (n3 a); [(i, j, k)].

(** [a - b], elementwise. *)
Definition arr_sub (a b : Arr) : Arr :=
  mkArr (n1 a) (n2 a) (n3 a) (λ i j k, get a i j k - get b i j k).

(** [x.transpose(out_dims + [dim])]: [dim] becomes the innermost axis.
    Applied to the transposed array, the same exchange of the last two axes is
    [.transpose(var.dims)]. *)
Definition transpose (a : Arr) : Arr :=
  mkArr (n1 a) (n3 a) (n2 a) (λ i j k, get a i k j).

(** [sumZ f n] is [f 0 + ... + f (n-1)]. *)
Fixpoint sumZ (f : nat → Z) (n : nat) : Z :=
  match n with
  | O => 0
  | S m => sumZ f m + f m
  end.

Definition row_total (a : Arr) (i j : nat) : Z := sumZ (get a i j) (n3 a).
Definition block_total (a : Arr) (i : nat) : Z := sumZ (row_total a i) (n2 a).
Definition arr_total (a : Arr) : Z := sumZ (block_total a) (n1 a).

(** Modelled from the spec: [cumsum] is a primitive of the array library.
    Without a [dim] argument it is the inclusive cumulative sum over all
    elements in row-major order: the value at a position is the sum of the
    elements at and before it. *)
Definition cumsum (a : Arr) : Arr :=
  mkArr (n1 a) (n2 a) (n3 a)
    (λ i j k, sumZ (block_total a) i + sumZ (row_total a i) j
              + sumZ (get a i j) (S k)).

(** Modelled from the spec: [x.sum(dim)] adds up the elements along [dim]
    (axis two).  The result has no [dim]; in the three-axis view that is an
    axis of extent one. *)
Definition sum_dim (a : Arr) : Arr :=
  mkArr (n1 a) 1 (n3 a) (λ i _ k, sumZ (λ j, get a i j k) (n2 a)).

(** Modelled from the spec: boolean-variable indexing [x[select]] with a
    one-dimensional [select] over [dim] keeps the slices along [dim] at which
    [select] holds, in order. *)
Definition selected (select : list bool) : list nat :=
  filter (λ j, select !! j = Some true) (seq 0 (length select)).

Definition arr_select (a : Arr) (select : list bool) : Arr :=
  mkArr (n1 a) (length (selected select)) (n3 a)
    (λ i j k, get a i (nth j (selected select) O) k).

(** The exception of boolean-variable indexing. *)
Inductive Exn := DimensionError.

(** A boolean variable: its dimension labels and its values. The values of
    a variable with one dimension are listed along that dimension. *)
Record BoolVar := mkBoolVar {
  bool_dims : list string;
  bool_values : list bool;
}.

(** [~mask] *)
Definition invert (mask : BoolVar) : BoolVar :=
  mkBoolVar (bool_dims mask) (negb <$> bool_values mask).

(** Modelled from the spec: [x[select]] with a boolean variable [select]
    raises [DimensionError] unless [select] has exactly one dimension, and
    selects along that dimension. In [hide_masked_and_reduce_meta] the
    select is the inverted irreducible mask along [dim], which depends on
    [dim]: with one dimension it is a mask over [dim], axis two of the
    view, and it has the extent of the data along [dim]. *)
Definition index_bool (a : Arr) (select : BoolVar) : result Exn Arr :=
  if decide (length (bool_dims select) = 1%nat)
  then ok (arr_select a (bool_values select))
  else raise DimensionError.

(** ** Binned variables *)

Section Binned.

Context {E : Type}.

(** The constituents of a binned variable: content buffer, slicing dimension
    of the buffer, begin and end offsets. *)
Record BinnedVar := mkBins {
  data : list E;
  dim : string;
  begin_ : Arr;
  end_ : Arr;
}.

(** [_cpp._bins_no_validate]: builds the variable from its constituents and
    checks nothing. *)
Definition _bins_no_validate (d : list E) (dm : string) (b e : Arr) : BinnedVar :=
  mkBins d dm b e.

(** [var.bins.size()]: bin sizes are [end - begin], elementwise. *)
Definition bins_size (v : BinnedVar) : Arr := arr_sub (end_ v) (begin_ v).

(** The events of the slice [b:e] of a buffer; [None] when the slice is not
    inside the buffer. *)
Definition slice (buf : list E) (b e : Z) : option (list E) :=
  if bool_decide (0 ≤ b ∧ b ≤ e ∧ e ≤ Z.of_nat (length buf))
  then Some (take (Z.to_nat (e - b)) (drop (Z.to_nat b) buf))
  else None.

(** Overwrite the slice [b:e] of a buffer with [xs]. The buffer has a fixed
    length: the slice must be inside it and as long as [xs]. *)
Definition write_slice (buf : list E) (b e : Z) (xs : list E) : option (list E) :=
  if bool_decide (0 ≤ b ∧ b ≤ e ∧ e ≤ Z.of_nat (length buf)
                  ∧ e - b = Z.of_nat (length xs))
  then Some (take (Z.to_nat b) buf ++ xs ++ drop (Z.to_nat e) buf)
  else None.

Definition bin_at (v : BinnedVar) (i j k : nat) : option (list E) :=
  slice (data v) (get (begin_ v) i j k) (get (end_ v) i j k).

(** Modelled from the spec: [empty_like] allocates a buffer of the same
    length whose values are not initialised; [junk] stands for whatever the
    fresh memory holds. *)
Variable junk : nat → E.

Definition empty_like (buf : list E) : list E := junk <$> seq 0 (length buf).

(** [copy_for_overwrite] at a [Variable]. *)
Definition copy_for_overwrite (buf : list E) : list E := empty_like buf.

(** Modelled from the spec: the assignment [out[...] = var] between binned
    variables of equal dimensions copies, bin by bin, the events of the
    source bin into the slice of the destination bin. *)
Definition assign_step (out var : BinnedVar) (buf : option (list E))
    (p : nat * nat * nat) : option (list E) :=
  let '(i, j, k) := p in
  buf ← buf;
  xs ← bin_at var i j k;
  write_slice buf (get (begin_ out) i j k) (get (end_ out) i j k) xs.

Definition assign_bins (out var : BinnedVar) : option BinnedVar :=
  if same_shape (begin_ out) (begin_ var) then
    buf ← foldl (assign_step out var) (Some (data out)) (indices (begin_ var));
    Some (mkBins buf (dim out) (begin_ out) (end_ out))
  else None.

(** [_replace_bin_sizes], with the offsets as mathematical integers; the
    64-bit arithmetic of the library is in [Int64Offsets]. *)
Definition _replace_bin_sizes (var : BinnedVar) (sizes : Arr) : BinnedVar :=
  let out_end := cumsum sizes in
  let out_begin := arr_sub out_end sizes in
  _bins_no_validate (data var) (dim var) out_begin out_end.

(** [_remap_bins] *)
Definition _remap_bins (var : BinnedVar) (begin end' sizes : Arr) : option BinnedVar :=
  let out := _bins_no_validate (copy_for_overwrite (data var)) (dim var) begin end' in
  out ← assign_bins out var;
  Some (_replace_bin_sizes out sizes).

(** [_concat_bins_variable]; the variable is given in its three-axis view
    relative to [dim]. *)
Definition _concat_bins_variable (var : BinnedVar) : option BinnedVar :=
  let sizes := bins_size var in
  let out_end := transpose (cumsum (transpose sizes)) in
  let out_begin := arr_sub out_end sizes in
  let out_sizes := sum_dim sizes in
  _remap_bins var out_begin out_end out_sizes.

(** The events of a bin whose offsets are inside the buffer. *)
Definition events (v : BinnedVar) (i j k : nat) : list E :=
  take (Z.to_nat (get (end_ v) i j k - get (begin_ v) i j k))
       (drop (Z.to_nat (get (begin_ v) i j k)) (data v)).

(** The invariant of binned data: begin and end have one shape and every
    bin is a slice of the content buffer. *)
Definition valid_bins (v : BinnedVar) : Prop :=
  same_shape (begin_ v) (end_ v) = true ∧
  ∀ i j k, in_range (begin_ v) i j k →
    0 ≤ get (begin_ v) i j k ∧ get (begin_ v) i j k ≤ get (end_ v) i j k
    ∧ get (end_ v) i j k ≤ Z.of_nat (length (data v)).

(** The bins fit into a buffer as long as the content buffer when laid out
    one after the other; this holds when no two bins overlap. *)
Definition bins_fit (v : BinnedVar) : Prop :=
  arr_total (bins_size v) ≤ Z.of_nat (length (data v)).

(** ** Prefix sums in row-major order

    [pre a i j k] is the sum of the elements strictly before position
    [(i, j, k)]; this is the exclusive cumulative sum. *)

Definition pre (a : Arr) (i j k : nat) : Z :=
  sumZ (block_total a) i + sumZ (row_total a i) j + sumZ (get a i j) k.

Definition nonneg (a : Arr) : Prop :=
  ∀ i j k, in_range a i j k → 0 ≤ get a i j k.

(** Row-major (lexicographic) order of positions. *)
Definition before (p p' : nat * nat * nat) : Prop :=
  let '(i, j, k) := p in
  let '(i', j', k') := p' in
  (i < i')%nat ∨ (i = i' ∧ ((j < j')%nat ∨ (j = j' ∧ (k < k')%nat))).

(** ** The bulk assignment *)

(** The slots of two positions do not meet. *)
Definition apart (out : BinnedVar) (p p' : nat * nat * nat) : Prop :=
  let '(i, j, k) := p in
  let '(i', j', k') := p' in
  get (end_ out) i j k ≤ get (begin_ out) i' j' k'
  ∨ get (end_ out) i' j' k' ≤ get (begin_ out) i j k.

(** Position [(i, j, k)] can be copied into a buffer of length [n]. *)
Definition copyable (out var : BinnedVar) (n : nat) (p : nat * nat * nat) : Prop :=
  let '(i, j, k) := p in
  ∃ xs, bin_at var i j k = Some xs
    ∧ 0 ≤ get (begin_ out) i j k
    ∧ get (begin_ out) i j k ≤ get (end_ out) i j k
    ∧ get (end_ out) i j k ≤ Z.of_nat n
    ∧ get (end_ out) i j k - get (begin_ out) i j k = Z.of_nat (length xs).

(** ** Facts about sums *)

Lemma sumZ_ext f g n :
  (∀ i, (i < n)%nat → f i = g i) → sumZ f n = sumZ g n.
Proof.
  induction n as [|n IH]; intros H; simpl; [done|].
  rewrite IH by (intros; apply H; lia). rewrite (H n) by lia. done.
Qed.

Lemma sumZ_nonneg f n :
  (∀ i, (i < n)%nat → 0 ≤ f i) → 0 ≤ sumZ f n.
Proof.
  induction n as [|n IH]; intros H; simpl; [lia|].
  pose proof (H n ltac:(lia)). pose proof (IH ltac:(intros; apply H; lia)). lia.
Qed.

Lemma sumZ_mono f n m :
  (n ≤ m)%nat → (∀ i, (i < m)%nat → 0 ≤ f i) → sumZ f n ≤ sumZ f m.
Proof.
  induction 1 as [|m Hle IH]; intros H; [lia|]. simpl.
  pose proof (H m ltac:(lia)). pose proof (IH ltac:(intros; apply H; lia)). lia.
Qed.

Lemma sumZ_add f g n :
  sumZ (λ i, f i + g i) n = sumZ f n + sumZ g n.
Proof. induction n as [|n IH]; simpl; lia. Qed.

Lemma sumZ_zero n : sumZ (λ _, 0) n = 0.
Proof. induction n as [|n IH]; simpl; lia. Qed.

Lemma sumZ_swap (f : nat → nat → Z) n m :
  sumZ (λ j, sumZ (λ k, f j k) m) n = sumZ (λ k, sumZ (λ j, f j k) n) m.
Proof.
  induction n as [|n IH]; simpl.
  - by rewrite sumZ_zero.
  - rewrite IH, <- sumZ_add. done.
Qed.

Lemma arr_total_transpose a : arr_total (transpose a) = arr_total a.
Proof.
  unfold arr_total, block_total, row_total. simpl.
  apply sumZ_ext; intros i _. apply (sumZ_swap (λ j k, get a i k j)).
Qed.

(** ** Facts about slices *)

Lemma slice_Some buf b e xs :
  slice buf b e = Some xs ↔
  (0 ≤ b ∧ b ≤ e ∧ e ≤ Z.of_nat (length buf))
  ∧ xs = take (Z.to_nat (e - b)) (drop (Z.to_nat b) buf).
Proof.
  unfold slice. case_bool_decide as Hr.
  - split; [intros [= <-]; done | intros [_ ->]; done].
  - split; [done | intros [Hr' _]; done].
Qed.

Lemma slice_length buf b e xs :
  slice buf b e = Some xs → Z.of_nat (length xs) = e - b.
Proof.
  intros [Hr ->]%slice_Some. rewrite length_take, length_drop. lia.
Qed.

Lemma slice_empty buf b :
  0 ≤ b → b ≤ Z.of_nat (length buf) → slice buf b b = Some [].
Proof.
  intros. apply slice_Some. split; [lia|].
  by replace (Z.to_nat (b - b)) with O by lia.
Qed.

Lemma slice_app buf a b c xs ys :
  slice buf a b = Some xs → slice buf b c = Some ys →
  slice buf a c = Some (xs ++ ys).
Proof.
  intros [Hx ->]%slice_Some [Hy ->]%slice_Some. apply slice_Some.
  split; [lia|].
  replace (Z.to_nat (c - a)) with (Z.to_nat (b - a) + Z.to_nat (c - b))%nat by lia.
  rewrite <- take_take_drop, drop_drop.
  by replace (Z.to_nat a + Z.to_nat (b - a))%nat with (Z.to_nat b) by lia.
Qed.

Lemma write_slice_Some buf b e xs buf' :
  write_slice buf b e xs = Some buf' ↔
  (0 ≤ b ∧ b ≤ e ∧ e ≤ Z.of_nat (length buf) ∧ e - b = Z.of_nat (length xs))
  ∧ buf' = take (Z.to_nat b) buf ++ xs ++ drop (Z.to_nat e) buf.
Proof.
  unfold write_slice. case_bool_decide as Hr.
  - split; [intros [= <-]; done | intros [_ ->]; done].
  - split; [done | intros [Hr' _]; done].
Qed.

Lemma write_slice_length buf b e xs buf' :
  write_slice buf b e xs = Some buf' → length buf' = length buf.
Proof.
  intros [Hr ->]%write_slice_Some.
  rewrite !length_app, length_take, length_drop. lia.
Qed.

Lemma write_slice_read buf b e xs buf' :
  write_slice buf b e xs = Some buf' → slice buf' b e = Some xs.
Proof.
  intros Hw. pose proof (write_slice_length _ _ _ _ _ Hw) as Hlen.
  apply write_slice_Some in Hw as [Hr ->]. apply slice_Some.
  split; [lia|].
  rewrite drop_app_length' by (rewrite length_take; lia).
  rewrite take_app_length' by lia. done.
Qed.

Lemma take_drop_prefix (l l1 l2 : list E) m n :
  l = l1 ++ l2 → (m + n ≤ length l1)%nat →
  take n (drop m l) = take n (drop m l1).
Proof.
  intros -> Hle. rewrite drop_app_le by lia.
  rewrite take_app_le by (rewrite length_drop; lia). done.
Qed.

Lemma drop_suffix (l l1 l2 : list E) m :
  l = l1 ++ l2 → (length l1 ≤ m)%nat → drop m l = drop (m - length l1) l2.
Proof. intros -> Hle. by rewrite drop_app_ge. Qed.

(** A write leaves every slice that does not meet it as it was. *)
Lemma write_slice_other buf b e xs buf' b' e' :
  write_slice buf b e xs = Some buf' →
  e' ≤ b ∨ e ≤ b' →
  slice buf' b' e' = slice buf b' e'.
Proof.
  intros Hw Hd. pose proof (write_slice_length _ _ _ _ _ Hw) as Hlen.
  apply write_slice_Some in Hw as [Hr ->].
  unfold slice. rewrite Hlen.
  case_bool_decide as Hin; [|done]. f_equal.
  destruct Hd as [Hd|Hd].
  - rewrite (take_drop_prefix _ (take (Z.to_nat b) buf) _ _ _ eq_refl)
      by (rewrite length_take; lia).
    symmetry. apply (take_drop_prefix _ _ (drop (Z.to_nat b) buf)).
    + symmetry. apply take_drop.
    + rewrite length_take. lia.
  - f_equal.
    assert (Hl : length (take (Z.to_nat b) buf ++ xs) = Z.to_nat e)
      by (rewrite length_app, length_take; lia).
    rewrite (drop_suffix _ (take (Z.to_nat b) buf ++ xs) (drop (Z.to_nat e) buf)
               (Z.to_nat b')); [|by rewrite <- app_assoc|lia].
    rewrite (drop_suffix buf (take (Z.to_nat e) buf) (drop (Z.to_nat e) buf)
               (Z.to_nat b')); [|by rewrite take_drop|rewrite length_take; lia].
    f_equal. rewrite Hl, length_take. lia.
Qed.

Lemma cumsum_pre a i j k : get (cumsum a) i j k = pre a i j (S k).
Proof. done. Qed.

Lemma cumsum_sub_pre a i j k :
  get (arr_sub (cumsum a) a) i j k = pre a i j k.
Proof. unfold pre. simpl. lia. Qed.

Lemma row_total_nonneg a i j :
  nonneg a → (i < n1 a)%nat → (j < n2 a)%nat → 0 ≤ row_total a i j.
Proof. intros Ha ??. apply sumZ_nonneg. intros k ?. by apply Ha. Qed.

Lemma block_total_nonneg a i :
  nonneg a → (i < n1 a)%nat → 0 ≤ block_total a i.
Proof. intros Ha ?. apply sumZ_nonneg. intros j ?. by apply row_total_nonneg. Qed.

Lemma pre_row_end a i j : pre a i j (n3 a) = pre a i (S j) 0.
Proof. unfold pre, row_total. simpl. lia. Qed.

Lemma pre_block_end a i : pre a i (n2 a) 0 = pre a (S i) 0 0.
Proof. unfold pre, block_total. simpl. lia. Qed.

Lemma pre_total a : pre a (n1 a) 0 0 = arr_total a.
Proof. unfold pre, arr_total. simpl. lia. Qed.

Lemma pre_mono_k a i j k k' :
  nonneg a → (i < n1 a)%nat → (j < n2 a)%nat → (k ≤ k')%nat → (k' ≤ n3 a)%nat →
  pre a i j k ≤ pre a i j k'.
Proof.
  intros Ha ????. unfold pre.
  assert (sumZ (get a i j) k ≤ sumZ (get a i j) k'); [|lia].
  apply sumZ_mono; [done|]. intros; apply Ha. unfold in_range; lia.
Qed.

Lemma pre_mono_j a i j j' :
  nonneg a → (i < n1 a)%nat → (j ≤ j')%nat → (j' ≤ n2 a)%nat →
  pre a i j 0 ≤ pre a i j' 0.
Proof.
  intros Ha ???. unfold pre. simpl.
  assert (sumZ (row_total a i) j ≤ sumZ (row_total a i) j'); [|lia].
  apply sumZ_mono; [done|]. intros; apply row_total_nonneg; [done..|lia].
Qed.

Lemma pre_mono_i a i i' :
  nonneg a → (i ≤ i')%nat → (i' ≤ n1 a)%nat → pre a i 0 0 ≤ pre a i' 0 0.
Proof.
  intros Ha ??. unfold pre. simpl.
  assert (sumZ (block_total a) i ≤ sumZ (block_total a) i'); [|lia].
  apply sumZ_mono; [done|]. intros; apply block_total_nonneg; [done|lia].
Qed.

Lemma before_total p p' : p ≠ p' → before p p' ∨ before p' p.
Proof.
  destruct p as [[i j] k], p' as [[i' j'] k']. intros Hne. unfold before.
  destruct (decide (i = i')) as [->|]; [|lia].
  destruct (decide (j = j')) as [->|]; [|lia].
  destruct (decide (k = k')) as [->|]; [done|lia].
Qed.

(** The end of the slot of a position is at most the begin of the slot of
    every later position. *)
Lemma pre_before a i j k i' j' k' :
  nonneg a → in_range a i j k → in_range a i' j' k' →
  before (i, j, k) (i', j', k') →
  pre a i j (S k) ≤ pre a i' j' k'.
Proof.
  intros Ha (Hi & Hj & Hk) (Hi' & Hj' & Hk') Hb.
  assert (Hrow : pre a i j (S k) ≤ pre a i (S j) 0).
  { rewrite <- pre_row_end. apply pre_mono_k; [done..|lia|lia]. }
  assert (Hblock : pre a i (S j) 0 ≤ pre a (S i) 0 0).
  { rewrite <- pre_block_end. apply pre_mono_j; [done..|lia|lia]. }
  destruct Hb as [Hlt|[-> [Hlt|[-> Hlt]]]].
  - etrans; [apply Hrow|]. etrans; [apply Hblock|].
    etrans; [apply (pre_mono_i a (S i) i'); [done|lia|lia]|].
    etrans; [apply (pre_mono_j a i' 0 j'); [done..|lia|lia]|].
    apply pre_mono_k; [done..|lia|lia].
  - etrans; [apply Hrow|].
    etrans; [apply (pre_mono_j a i' (S j) j'); [done..|lia|lia]|].
    apply pre_mono_k; [done..|lia|lia].
  - apply pre_mono_k; [done..|lia|lia].
Qed.

Lemma pre_nonneg a i j k :
  nonneg a → (i < n1 a)%nat → (j < n2 a)%nat → (k ≤ n3 a)%nat →
  0 ≤ pre a i j k.
Proof.
  intros Ha Hi Hj Hk.
  etrans; [|apply (pre_mono_k a i j 0 k); [done..|lia|lia]].
  etrans; [|apply (pre_mono_j a i 0 j); [done..|lia|lia]].
  etrans; [|apply (pre_mono_i a 0 i); [done..|lia|lia]].
  done.
Qed.

Lemma pre_le_total a i j k :
  nonneg a → (i < n1 a)%nat → (j < n2 a)%nat → (k ≤ n3 a)%nat →
  pre a i j k ≤ arr_total a.
Proof.
  intros Ha Hi Hj Hk. rewrite <- pre_total.
  etrans; [apply (pre_mono_k a i j k (n3 a)); [done..|lia|lia]|].
  rewrite pre_row_end.
  etrans; [apply (pre_mono_j a i (S j) (n2 a)); [done..|lia|lia]|].
  rewrite pre_block_end. apply pre_mono_i; [done|lia|lia].
Qed.

(** ** Positions *)

Lemma elem_of_indices a i j k : (i, j, k) ∈ indices a ↔ in_range a i j k.
Proof.
  unfold indices, in_range. rewrite list_elem_of_bind. split.
  - intros (i' & (j' & (k' & Hp%list_elem_of_singleton & Hk%elem_of_seq)%list_elem_of_bind
                     & Hj%elem_of_seq)%list_elem_of_bind & Hi%elem_of_seq).
    simplify_eq. lia.
  - intros (Hi & Hj & Hk). exists i. split; [|apply elem_of_seq; lia].
    apply list_elem_of_bind. exists j. split; [|apply elem_of_seq; lia].
    apply list_elem_of_bind. exists k. split; [|apply elem_of_seq; lia].
    by apply list_elem_of_singleton.
Qed.

Lemma NoDup_indices a : NoDup (indices a).
Proof.
  unfold indices. apply NoDup_bind; [| |apply NoDup_seq].
  - intros i i' [[x y] z] _ _.
    intros (j & (k & Hp%list_elem_of_singleton & _)%list_elem_of_bind & _)%list_elem_of_bind.
    intros (j' & (k' & Hp'%list_elem_of_singleton & _)%list_elem_of_bind & _)%list_elem_of_bind.
    congruence.
  - intros i _. apply NoDup_bind; [| |apply NoDup_seq].
    + intros j j' [[x y] z] _ _.
      intros (k & Hp%list_elem_of_singleton & _)%list_elem_of_bind.
      intros (k' & Hp'%list_elem_of_singleton & _)%list_elem_of_bind.
      congruence.
    + intros j _. apply NoDup_bind; [| |apply NoDup_seq].
      * intros k k' p _ _ Hp%list_elem_of_singleton Hp'%list_elem_of_singleton.
        congruence.
      * intros k _. apply NoDup_singleton.
Qed.

Lemma assign_fold out var l buf :
  NoDup l →
  (∀ p, p ∈ l → copyable out var (length buf) p) →
  (∀ p p', p ∈ l → p' ∈ l → p ≠ p' → apart out p p') →
  ∃ buf', foldl (assign_step out var) (Some buf) l = Some buf'
    ∧ length buf' = length buf
    ∧ (∀ i j k, (i, j, k) ∈ l →
         slice buf' (get (begin_ out) i j k) (get (end_ out) i j k)
         = bin_at var i j k)
    ∧ (∀ b e, (∀ i j k, (i, j, k) ∈ l →
                 e ≤ get (begin_ out) i j k ∨ get (end_ out) i j k ≤ b) →
         slice buf' b e = slice buf b e).
Proof.
  revert buf. induction l as [|[[i0 j0] k0] l IH]; intros buf Hnd Hc Ha.
  - exists buf. split_and!; [done|done| |done].
    intros i j k Hin. by apply elem_of_nil in Hin.
  - apply NoDup_cons in Hnd as [Hnotin Hnd].
    destruct (Hc (i0, j0, k0)) as (xs & Hxs & H0 & Hle & Hlen & Hsz);
      [apply elem_of_cons; by left|].
    destruct (write_slice buf (get (begin_ out) i0 j0 k0)
                (get (end_ out) i0 j0 k0) xs) as [buf1|] eqn:Hw; last first.
    { unfold write_slice in Hw. by rewrite bool_decide_eq_true_2 in Hw. }
    pose proof (write_slice_length _ _ _ _ _ Hw) as Hlen1.
    destruct (IH buf1) as (buf' & Hfold & Hlen' & Hread & Hframe).
    + done.
    + intros p Hp. rewrite Hlen1. apply Hc, elem_of_cons. by right.
    + intros p p' Hp Hp'. apply Ha; apply elem_of_cons; by right.
    + exists buf'. split_and!.
      * simpl. rewrite Hxs. simpl. rewrite Hw. done.
      * congruence.
      * intros i j k [Heq|Hin]%elem_of_cons.
        -- simplify_eq. rewrite Hframe.
           ++ rewrite Hxs. by eapply write_slice_read.
           ++ intros i j k Hin.
              assert (Hne : (i0, j0, k0) ≠ (i, j, k)) by (intros ?; simplify_eq; done).
              specialize (Ha (i0, j0, k0) (i, j, k)). simpl in Ha.
              destruct Ha as [?|?]; [apply elem_of_cons; by left
                                    |apply elem_of_cons; by right|done|..]; auto.
        -- by apply Hread.
      * intros b e Hbe. rewrite Hframe.
        -- eapply write_slice_other; [done|].
           destruct (Hbe i0 j0 k0); [apply elem_of_cons; by left|..]; auto.
        -- intros i j k Hin. apply Hbe, elem_of_cons. by right.
Qed.

(** ** Concatenation of bins along [dim] *)

Lemma valid_bins_nonneg var :
  valid_bins var → nonneg (transpose (bins_size var)).
Proof.
  intros [Hsh Hv] i j k (Hi & Hj & Hk). simpl in *.
  apply bool_decide_eq_true in Hsh as (H1 & H2 & H3).
  destruct (Hv i k j) as (? & ? & ?); [unfold in_range; lia|lia].
Qed.

Lemma valid_bins_events var i j k :
  valid_bins var → in_range (begin_ var) i j k →
  bin_at var i j k = Some (events var i j k)
  ∧ Z.of_nat (length (events var i j k))
    = get (end_ var) i j k - get (begin_ var) i j k.
Proof.
  intros [_ Hv] Hr. destruct (Hv i j k Hr) as (? & ? & ?).
  assert (Hb : bin_at var i j k = Some (events var i j k)).
  { unfold bin_at. apply slice_Some. split; [lia|done]. }
  split; [done|]. by apply slice_length in Hb.
Qed.

(** The offsets that [_concat_bins_variable] hands to [_remap_bins]. *)
Lemma concat_offsets var i j k :
  let a := transpose (bins_size var) in
  get (arr_sub (transpose (cumsum a)) (bins_size var)) i j k = pre a i k j
  ∧ get (transpose (cumsum a)) i j k = pre a i k (S j).
Proof. unfold pre. simpl. split; lia. Qed.

(** The offsets that [_replace_bin_sizes] builds from the summed sizes. *)
Lemma sum_dim_pre (s : Arr) i k :
  pre (sum_dim s) i 0 k = pre (transpose s) i k 0.
Proof.
  unfold pre.
  assert (sumZ (block_total (sum_dim s)) i = sumZ (block_total (transpose s)) i) as ->.
  { apply sumZ_ext. intros i' _. unfold block_total, row_total. simpl. lia. }
  assert (sumZ (get (sum_dim s) i 0%nat) k = sumZ (row_total (transpose s) i) k) as ->.
  { apply sumZ_ext. intros k' _. done. }
  simpl. lia.
Qed.

Lemma concat_bins_spec var :
  valid_bins var → bins_fit var →
  ∃ out, _concat_bins_variable var = Some out
    ∧ length (data out) = length (data var)
    ∧ begin_ out = arr_sub (cumsum (sum_dim (bins_size var))) (sum_dim (bins_size var))
    ∧ end_ out = cumsum (sum_dim (bins_size var))
    ∧ ∀ i k, (i < n1 (begin_ var))%nat → (k < n3 (begin_ var))%nat →
        bin_at out i 0 k
        = Some (concat ((λ j, events var i j k) <$> seq 0 (n2 (begin_ var)))).
Proof.
  intros Hvalid Hfit.
  pose proof (valid_bins_nonneg _ Hvalid) as Hnn.
  destruct Hvalid as [Hsh Hv]. pose proof Hsh as Hsh'.
  apply bool_decide_eq_true in Hsh' as (Hs1 & Hs2 & Hs3).
  set (s := bins_size var) in *. set (a := transpose s) in *.
  set (out0 := _bins_no_validate (copy_for_overwrite (data var)) (dim var)
                 (arr_sub (transpose (cumsum a)) s) (transpose (cumsum a))).
  assert (Hlen0 : length (data out0) = length (data var)).
  { simpl. unfold copy_for_overwrite, empty_like.
    by rewrite length_fmap, length_seq. }
  assert (Htot : arr_total a ≤ Z.of_nat (length (data var))).
  { unfold a. rewrite arr_total_transpose. exact Hfit. }
  destruct (assign_fold out0 var (indices (begin_ var)) (data out0))
    as (buf & Hfold & Hlen & Hread & _).
  { apply NoDup_indices. }
  { intros [[i j] k] Hr%elem_of_indices.
    destruct (valid_bins_events var i j k) as [Hb Hl]; [done..|].
    destruct Hr as (Hi & Hj & Hk).
    exists (events var i j k).
    destruct (concat_offsets var i j k) as [Hob Hoe]. fold s a in Hob, Hoe.
    simpl begin_. simpl end_. rewrite Hob, Hoe, Hlen0, Hl.
    split_and!; [done| | | |].
    - apply pre_nonneg; simpl; [done|lia..].
    - apply pre_mono_k; simpl; [done|lia..].
    - etrans; [apply pre_le_total; simpl; [done|lia..]|done].
    - unfold pre. simpl. lia. }
  { intros [[i j] k] [[i' j'] k'] Hr%elem_of_indices Hr'%elem_of_indices Hne.
    destruct Hr as (Hi & Hj & Hk), Hr' as (Hi' & Hj' & Hk').
    destruct (concat_offsets var i j k) as [Hob Hoe].
    destruct (concat_offsets var i' j' k') as [Hob' Hoe']. fold s a in Hob, Hoe, Hob', Hoe'.
    unfold apart. simpl begin_. simpl end_. rewrite Hob, Hoe, Hob', Hoe'.
    destruct (before_total (i, k, j) (i', k', j')) as [Hb|Hb];
      [congruence|left|right];
      (apply pre_before; [done|unfold in_range; simpl; lia..|done]). }
  exists (_replace_bin_sizes
            (mkBins buf (dim out0) (begin_ out0) (end_ out0)) (sum_dim s)).
  split_and!; [|by rewrite <- Hlen0|done|done|].
  { unfold _concat_bins_variable, _remap_bins, assign_bins. fold s a out0.
    assert (Hshape : same_shape (begin_ out0) (begin_ var) = true).
    { apply bool_decide_eq_true. simpl. lia. }
    rewrite Hshape, Hfold. done. }
  intros i k Hi Hk. unfold bin_at. simpl data. simpl begin_. simpl end_.
  rewrite cumsum_sub_pre, cumsum_pre, !sum_dim_pre. fold a.
  rewrite <- pre_row_end. simpl n3. rewrite <- Hs2.
  assert (Hgen : ∀ m, (m ≤ n2 (begin_ var))%nat →
            slice buf (pre a i k 0) (pre a i k m)
            = Some (concat ((λ j, events var i j k) <$> seq 0 m))).
  { induction m as [|m IH]; intros Hm.
    - apply slice_empty.
      + apply pre_nonneg; simpl; [done|lia..].
      + rewrite Hlen, Hlen0. etrans; [|exact Htot].
        apply pre_le_total; simpl; [done|lia..].
    - rewrite seq_S, fmap_app, concat_app. simpl. rewrite app_nil_r.
      eapply slice_app; [apply IH; lia|].
      specialize (Hread i m k). simpl begin_ in Hread. simpl end_ in Hread.
      destruct (concat_offsets var i m k) as [Hob Hoe]. fold s a in Hob, Hoe.
      rewrite Hob, Hoe in Hread. rewrite Hread.
      + apply valid_bins_events; [done|unfold in_range; lia].
      + apply elem_of_indices. unfold in_range; lia. }
  by apply Hgen.
Qed.

End Binned.

Arguments BinnedVar : clear implicits.

(** ** Data arrays with binned data *)

Section DataArrays.

Context {E V : Type}.

(** A coordinate, mask or attribute: its dimension labels and its values. *)
Record MetaVar := mkMeta {
  dims : list string;
  values : V;
}.

Record DataArray := mkDataArray {
  da_data : BinnedVar E;
  coords : gmap string MetaVar;
  masks : gmap string MetaVar;
  attrs : gmap string MetaVar;
}.

(** [_reduced] *)
Definition _reduced (obj : gmap string MetaVar) (dim : string) : gmap string MetaVar :=
  filter (λ nv, dim ∉ dims nv.2) obj.

Definition reduced_coords (da : DataArray) (dim : string) := _reduced (coords da) dim.
Definition reduced_attrs (da : DataArray) (dim : string) := _reduced (attrs da) dim.

(** [mask.copy()] yields a variable with the same dimensions and values. *)
Definition copy_var (v : MetaVar) : MetaVar := mkMeta (dims v) (values v).

Definition reduced_masks (da : DataArray) (dim : string) :=
  copy_var <$> _reduced (masks da) dim.

(** [irreducible_mask] belongs to the dataset module of the library: the
    combination of the masks that depend on [dim], a boolean variable over
    the dimensions of these masks, or [None] when no mask depends on
    [dim]. *)
Variable irreducible_mask : gmap string MetaVar → string → option BoolVar.

(** [hide_masked_and_reduce_meta]; the two indexing operations can raise. *)
Definition hide_masked_and_reduce_meta (da : DataArray) (dim : string)
    : result Exn DataArray :=
  data ← match irreducible_mask (masks da) dim with
          | Some mask =>
              let comps := da_data da in
              let select := invert mask in
              begin ← index_bool (begin_ comps) select;
              end' ← index_bool (end_ comps) select;
              ok (_bins_no_validate (BinRemapping.data comps)
                    (BinRemapping.dim comps) begin end')
          | None => ok (da_data da)
          end;
  ok (mkDataArray data (reduced_coords da dim) (reduced_masks da dim)
        (reduced_attrs da dim)).

Variable junk : nat → E.

(** [concat_bins] at a [DataArray]; the inner [None] is that of
    [_concat_bins_variable]. *)
Definition concat_bins (obj : DataArray) (dim : string)
    : result Exn (option DataArray) :=
  da ← hide_masked_and_reduce_meta obj dim;
  ok (data ← _concat_bins_variable junk (da_data da);
      Some (mkDataArray data (coords da) (masks da) (attrs da))).

(** The indices along [dim] that a mask leaves visible. *)
Definition unmasked (mask : list bool) : list nat := selected (negb <$> mask).

End DataArrays.

Arguments MetaVar : clear implicits.
Arguments DataArray : clear implicits.

(** ** Contiguity *)

(** The successor of a position in row-major order. *)
Definition next_pos (a : Arr) (p : nat * nat * nat) : nat * nat * nat :=
  let '(i, j, k) := p in
  if decide (S k < n3 a)%nat then (i, j, S k)
  else if decide (S j < n2 a)%nat then (i, S j, O)
  else (S i, O, O).

Definition get_at (a : Arr) (p : nat * nat * nat) : Z :=
  let '(i, j, k) := p in get a i j k.

Definition in_range_at (a : Arr) (p : nat * nat * nat) : Prop :=
  let '(i, j, k) := p in in_range a i j k.

(** The bins of [out] have the sizes [sizes] and lie one after the other from
    offset zero, in row-major order. *)
Definition contiguous {E} (out : BinnedVar E) (sizes : Arr) : Prop :=
  end_ out = cumsum sizes
  ∧ begin_ out = arr_sub (cumsum sizes) sizes
  ∧ (∀ p, get_at (end_ out) p = get_at (begin_ out) p + get_at sizes p)
  ∧ (in_range sizes 0 0 0 → get (begin_ out) 0 0 0 = 0)
  ∧ (∀ p, in_range_at sizes p → in_range_at sizes (next_pos sizes p) →
       get_at (begin_ out) (next_pos sizes p) = get_at (end_ out) p).

(** Arrays written as nested lists, for examples. *)
Definition arr_of (l : list (list (list Z))) : Arr :=
  mkArr (length l) (length (nth 0 l [])) (length (nth 0 (nth 0 l []) []))
    (λ i j k, nth k (nth j (nth i l []) []) 0).

Definition ex_var : BinnedVar nat :=
  mkBins [10; 11; 12; 13; 14]%nat "event"
    (arr_of [[[0; 2]]; [[2; 5]]]) (arr_of [[[2; 2]]; [[5; 5]]]).

(** Two bins that share the two events of the buffer. *)
Definition overlapping_var : BinnedVar nat :=
  mkBins [10; 11]%nat "event" (arr_of [[[0]; [0]]]) (arr_of [[[2]; [2]]]).

(** Three bins along [x]; the mask ["m"] hides the middle one. *)
Definition ex_da : DataArray nat (list bool) :=
  mkDataArray
    (mkBins [10; 11; 12; 13; 14]%nat "event"
       (arr_of [[[0]; [2]; [3]]]) (arr_of [[[2]; [3]; [5]]]))
    {[ "x" := mkMeta ["x"] [] ; "t" := mkMeta [] [] ]}
    {[ "m" := mkMeta ["x"] [false; true; false] ]}
    ∅.

Definition ex_irreducible_mask (ms : gmap string (MetaVar (list bool)))
    (dim : string) : option BoolVar :=
  match ms !! "m" with
  | Some m => if decide (dim ∈ dims m) then Some (mkBoolVar (dims m) (values m)) else None
  | None => None
  end.

(** Two by two bins over [y] and [x]; the mask ["m"] over both dimensions
    hides the bin at [y = 0], [x = 1]. *)
Definition ex_da_2d : DataArray nat (list bool) :=
  mkDataArray
    (mkBins [10; 11; 12; 13; 14]%nat "event"
       (arr_of [[[0]; [1]]; [[2]; [3]]]) (arr_of [[[1]; [2]]; [[3]; [5]]]))
    {[ "x" := mkMeta ["x"] [] ]}
    {[ "m" := mkMeta ["y"; "x"] [false; true; false; false] ]}
    ∅.

(** ** Properties of the remap *)

Lemma replace_bin_sizes_contiguous {E} (var : BinnedVar E) (sizes : Arr) :
  contiguous (_replace_bin_sizes var sizes) sizes.
Proof.
  unfold contiguous. simpl. split_and!; [done|done| | |].
  - intros [[i j] k]. simpl. lia.
  - intros _. simpl. lia.
  - intros [[i j] k] (Hi & Hj & Hk). unfold next_pos.
    repeat case_decide; simpl; intros (Hi' & Hj' & Hk').
    + lia.
    + assert (n3 sizes = S k) as Hn by lia.
      pose proof (pre_row_end sizes i j) as Hrow. unfold pre in Hrow.
      rewrite Hn in Hrow. simpl in Hrow. lia.
    + assert (n3 sizes = S k) as Hn by lia.
      assert (n2 sizes = S j) as Hm by lia.
      pose proof (pre_row_end sizes i j) as Hrow.
      pose proof (pre_block_end sizes i) as Hblock. unfold pre in Hrow, Hblock.
      rewrite Hn in Hrow. rewrite Hm in Hblock. simpl in Hrow, Hblock. lia.
Qed.

Lemma concat_bins_total {E} (var out : BinnedVar E) :
  begin_ out = arr_sub (cumsum (sum_dim (bins_size var))) (sum_dim (bins_size var)) →
  end_ out = cumsum (sum_dim (bins_size var)) →
  arr_total (bins_size out) = arr_total (bins_size var)
  ∧ ∀ i k, get (bins_size out) i 0 k
           = sumZ (λ j, get (bins_size var) i j k) (n2 (bins_size var)).
Proof.
  intros Hb He. split.
  - rewrite <- (arr_total_transpose (bins_size var)).
    unfold arr_total, block_total, row_total, bins_size at 1 2 3 4.
    rewrite Hb, He. simpl. apply sumZ_ext. intros i _.
    rewrite Z.add_0_l. apply sumZ_ext. intros k _. lia.
  - intros i k. unfold bins_size at 1. rewrite Hb, He. simpl. lia.
Qed.

(** C2, as the code has it. For a binned variable whose bins are slices of
    the content buffer and fit into a buffer of the same length when laid out
    one after the other (bins that do not overlap), concatenating the bins
    along a dimension succeeds; the output has one bin per remaining outer
    index, holding the events of the input bins along the dimension in their
    order along the dimension, each bin's events in their order; the sizes of
    the output bins ([end - begin]) add up to the sum of the input bin sizes. *)
Theorem concat_bins_conserves_events {E} (junk : nat → E) (var : BinnedVar E) :
  valid_bins var → bins_fit var →
  ∃ out, _concat_bins_variable junk var = Some out
    ∧ arr_total (bins_size out) = arr_total (bins_size var)
    ∧ (n1 (begin_ out) = n1 (begin_ var) ∧ n2 (begin_ out) = 1%nat
       ∧ n3 (begin_ out) = n3 (begin_ var))
    ∧ ∀ i k, (i < n1 (begin_ var))%nat → (k < n3 (begin_ var))%nat →
        get (bins_size out) i 0 k
        = sumZ (λ j, get (bins_size var) i j k) (n2 (begin_ var))
        ∧ bin_at out i 0 k
          = Some (concat ((λ j, events var i j k) <$> seq 0 (n2 (begin_ var)))).
Proof.
  intros Hvalid Hfit.
  destruct (concat_bins_spec junk var Hvalid Hfit) as (out & Hout & _ & Hb & He & Hbins).
  destruct (concat_bins_total var out Hb He) as [Htot Hsz].
  destruct Hvalid as [Hsh _]. apply bool_decide_eq_true in Hsh as (Hs1 & Hs2 & Hs3).
  exists out. split_and!; [done|done|rewrite Hb; simpl; lia..|].
  intros i k Hi Hk. split; [|by apply Hbins].
  rewrite Hsz. simpl. by rewrite Hs2.
Qed.

Lemma concat_bins_conserves_events_witness :
  valid_bins ex_var ∧ bins_fit ex_var
  ∧ ∃ out, _concat_bins_variable (λ _, O) ex_var = Some out
      ∧ arr_total (bins_size out) = arr_total (bins_size ex_var)
      ∧ (n1 (begin_ out) = n1 (begin_ ex_var) ∧ n2 (begin_ out) = 1%nat
         ∧ n3 (begin_ out) = n3 (begin_ ex_var))
      ∧ ∀ i k, (i < n1 (begin_ ex_var))%nat → (k < n3 (begin_ ex_var))%nat →
          get (bins_size out) i 0 k
          = sumZ (λ j, get (bins_size ex_var) i j k) (n2 (begin_ ex_var))
          ∧ bin_at out i 0 k
            = Some (concat ((λ j, events ex_var i j k)
                              <$> seq 0 (n2 (begin_ ex_var)))).
Proof.
  assert (Hv : valid_bins ex_var).
  { split; [reflexivity|]. intros i j k (Hi & Hj & Hk). simpl in Hi, Hj, Hk.
    destruct i as [|[|i]]; [| |lia]; (destruct j as [|j]; [|lia]);
      (destruct k as [|[|k]]; [| |lia]); vm_compute; intuition discriminate. }
  assert (Hf : bins_fit ex_var) by (vm_compute; discriminate).
  split; [exact Hv|]. split; [exact Hf|].
  exact (concat_bins_conserves_events (λ _, O) ex_var Hv Hf).
Defined.

(** C2 fails for bins that overlap. Both bins are slices of the buffer, their
    sizes add up to 4, and the buffer that receives the events has the length
    2 of the content buffer: the concatenation has no result. *)
Lemma concat_bins_overlapping_fails :
  valid_bins overlapping_var
  ∧ arr_total (bins_size overlapping_var) = 4
  ∧ length (copy_for_overwrite (λ _, O) (data overlapping_var)) = 2%nat
  ∧ _concat_bins_variable (λ _, O) overlapping_var = None.
Proof.
  split_and!; [|reflexivity..].
  split; [reflexivity|]. intros i j k (Hi & Hj & Hk). simpl in Hi, Hj, Hk.
  destruct i as [|i]; [|lia]. destruct j as [|[|j]]; [| |lia];
    (destruct k as [|k]; [|lia]); vm_compute; intuition discriminate.
Qed.

Lemma fmap_nth_seq {A B} (f : A → B) (d : A) (l : list A) :
  (λ j, f (nth j l d)) <$> seq 0 (length l) = f <$> l.
Proof.
  induction l as [|x l IH]; [done|]. simpl. f_equal.
  rewrite <- fmap_S_seq, <- list_fmap_compose. exact IH.
Qed.

Lemma elem_of_unmasked (mask : list bool) j :
  j ∈ unmasked mask ↔ mask !! j = Some false.
Proof.
  unfold unmasked, selected. rewrite list_elem_of_filter, elem_of_seq.
  rewrite list_lookup_fmap, length_fmap. split.
  - intros [Hsel _]. destruct (mask !! j) as [[]|]; simplify_eq/=; done.
  - intros Hm. rewrite Hm. split; [done|].
    apply lookup_lt_Some in Hm. lia.
Qed.

Lemma lookup_reduced {V} (obj : gmap string (MetaVar V)) dim name v :
  _reduced obj dim !! name = Some v ↔ obj !! name = Some v ∧ dim ∉ dims v.
Proof. unfold _reduced. by rewrite map_lookup_filter_Some. Qed.

Lemma valid_bins_select {E} (v : BinnedVar E) (mask : list bool) :
  valid_bins v → length mask = n2 (begin_ v) →
  valid_bins (_bins_no_validate (data v) (dim v)
                (arr_select (begin_ v) (negb <$> mask))
                (arr_select (end_ v) (negb <$> mask))).
Proof.
  intros [Hsh Hv] Hlen. split.
  - apply bool_decide_eq_true in Hsh as (H1 & H2 & H3).
    apply bool_decide_eq_true. simpl. lia.
  - intros i j k (Hi & Hj & Hk). simpl in *. apply Hv.
    split_and!; [done| |done].
    assert (Hin : nth j (selected (negb <$> mask)) O ∈ unmasked mask).
    { apply list_elem_of_In, nth_In. exact Hj. }
    apply elem_of_unmasked, lookup_lt_Some in Hin. lia.
Qed.

(** C8, as the code has it. When the masks of a data array have an
    irreducible mask along the concatenation dimension and that mask has
    one dimension, [hide_masked_and_reduce_meta] keeps the content buffer as
    it is and keeps of the begin/end offsets the slices along the dimension
    that are not masked (the mask has one value per index of the data along
    the dimension); of the coordinates, masks and attributes it keeps
    those that do not span the dimension. The concatenation that follows
    puts into every output bin the events of the unmasked input bins only: a
    masked index along the dimension contributes no event. When the
    irreducible mask has another number of dimensions, the indexing of the
    offsets raises [DimensionError], and so does the concatenation. *)
Theorem hide_masked_reuses_buffer {E V}
    (irreducible_mask : gmap string (MetaVar V) → string → option BoolVar)
    (junk : nat → E) (da : DataArray E V) (dim : string) (m : BoolVar) :
  irreducible_mask (masks da) dim = Some m →
  (length (bool_dims m) ≠ 1%nat →
   hide_masked_and_reduce_meta irreducible_mask da dim = inl DimensionError
   ∧ concat_bins irreducible_mask junk da dim = inl DimensionError)
  ∧ (bool_dims m = [dim] →
     length (bool_values m) = n2 (begin_ (da_data da)) →
     ∃ r, hide_masked_and_reduce_meta irreducible_mask da dim = inr r
       ∧ data (da_data r) = data (da_data da)
       ∧ (∀ j, j ∈ unmasked (bool_values m) ↔ bool_values m !! j = Some false)
       ∧ (n1 (begin_ (da_data r)) = n1 (begin_ (da_data da))
          ∧ n2 (begin_ (da_data r)) = length (unmasked (bool_values m))
          ∧ n3 (begin_ (da_data r)) = n3 (begin_ (da_data da)))
       ∧ (∀ i j k,
            get (begin_ (da_data r)) i j k
            = get (begin_ (da_data da)) i (nth j (unmasked (bool_values m)) O) k
            ∧ get (end_ (da_data r)) i j k
              = get (end_ (da_data da)) i (nth j (unmasked (bool_values m)) O) k)
       ∧ (∀ name v, coords r !! name = Some v ↔
            coords da !! name = Some v ∧ dim ∉ dims v)
       ∧ (∀ name v, masks r !! name = Some v ↔
            masks da !! name = Some v ∧ dim ∉ dims v)
       ∧ (∀ name v, attrs r !! name = Some v ↔
            attrs da !! name = Some v ∧ dim ∉ dims v)
       ∧ (valid_bins (da_data da) → bins_fit (da_data r) →
          ∃ out, concat_bins irreducible_mask junk da dim = inr (Some out)
            ∧ coords out = coords r ∧ masks out = masks r ∧ attrs out = attrs r
            ∧ ∀ i k, (i < n1 (begin_ (da_data da)))%nat →
                     (k < n3 (begin_ (da_data da)))%nat →
                bin_at (da_data out) i 0 k
                = Some (concat ((λ j, events (da_data da) i j k)
                                  <$> unmasked (bool_values m))))).
Proof.
  intros Hmask. split.
  - intros Hdims. unfold concat_bins, hide_masked_and_reduce_meta.
    rewrite Hmask. unfold index_bool, invert. simpl.
    split; repeat case_decide; done.
  - intros Hdims Hlen.
    assert (Hr : hide_masked_and_reduce_meta irreducible_mask da dim
                 = inr (mkDataArray
                          (_bins_no_validate (data (da_data da)) (BinRemapping.dim (da_data da))
                             (arr_select (begin_ (da_data da)) (negb <$> bool_values m))
                             (arr_select (end_ (da_data da)) (negb <$> bool_values m)))
                          (reduced_coords da dim) (reduced_masks da dim)
                          (reduced_attrs da dim))).
    { unfold hide_masked_and_reduce_meta. rewrite Hmask.
      unfold index_bool, invert. simpl. rewrite Hdims. done. }
    eexists. split; [exact Hr|]. simpl.
    split_and!; [done|apply elem_of_unmasked|done..| | | |].
    + intros name v. apply lookup_reduced.
    + intros name v. unfold reduced_masks. rewrite lookup_fmap.
      destruct (_reduced (masks da) dim !! name) as [v0|] eqn:Hv0; simpl.
      * apply lookup_reduced in Hv0 as [Hv0 Hd]. destruct v0 as [d0 x0].
        unfold copy_var; simpl. split; [intros [= <-]; done|].
        intros [Hv _]. congruence.
      * split; [done|]. intros Hv%lookup_reduced. congruence.
    + intros name v. apply lookup_reduced.
    + intros Hvalid Hfit.
      pose proof (valid_bins_select _ (bool_values m) Hvalid Hlen) as Hvalid'.
      destruct (concat_bins_spec junk _ Hvalid' Hfit)
        as (out & Hout & _ & _ & _ & Hbins).
      unfold concat_bins. rewrite Hr. simpl. rewrite Hout. simpl.
      eexists. split_and!; [done..|].
      intros i k Hi Hk. simpl. rewrite (Hbins i k Hi Hk). simpl. f_equal. f_equal.
      apply (fmap_nth_seq (λ j, events (da_data da) i j k) O
               (unmasked (bool_values m))).
Qed.

Lemma hide_masked_reuses_buffer_witness :
  ex_irreducible_mask (masks ex_da) "x" = Some (mkBoolVar ["x"] [false; true; false])
  ∧ ∃ r, hide_masked_and_reduce_meta ex_irreducible_mask ex_da "x" = inr r
      ∧ data (da_data r) = [10; 11; 12; 13; 14]%nat
      ∧ ∃ out, concat_bins ex_irreducible_mask (λ _, O) ex_da "x" = inr (Some out)
          ∧ bin_at (da_data out) 0 0 0 = Some [10; 11; 13; 14]%nat.
Proof.
  assert (Hm : ex_irreducible_mask (masks ex_da) "x"
               = Some (mkBoolVar ["x"] [false; true; false]))
    by (vm_compute; reflexivity).
  split; [exact Hm|].
  destruct (proj2 (hide_masked_reuses_buffer ex_irreducible_mask (λ _, O) ex_da "x"
                     (mkBoolVar ["x"] [false; true; false]) Hm) eq_refl eq_refl)
    as (r & Hr & Hbuf & _ & _ & _ & _ & _ & _ & Hconcat).
  exists r. split; [exact Hr|]. split; [exact Hbuf|].
  destruct Hconcat as (out & Hout & _ & _ & _ & Hbins).
  - split; [reflexivity|]. intros i j k (Hi & Hj & Hk). simpl in Hi, Hj, Hk.
    destruct i as [|i]; [|lia]. destruct j as [|[|[|j]]]; [| | |lia];
      (destruct k as [|k]; [|lia]); vm_compute; intuition discriminate.
  - unfold hide_masked_and_reduce_meta in Hr. rewrite Hm in Hr.
    vm_compute in Hr. injection Hr as <-. vm_compute. discriminate.
  - exists out. split; [exact Hout|].
    apply (Hbins O O); simpl; lia.
Defined.

(** C8 fails for a mask over two dimensions: the data array has an
    irreducible mask along [x], over [y] and [x], and
    [hide_masked_and_reduce_meta] raises [DimensionError] where the offsets
    are indexed with the mask; no bin is excluded and no metadata is
    dropped. *)
Lemma hide_masked_two_dimensional_mask_raises :
  ex_irreducible_mask (masks ex_da_2d) "x"
  = Some (mkBoolVar ["y"; "x"] [false; true; false; false])
  ∧ hide_masked_and_reduce_meta ex_irreducible_mask ex_da_2d "x"
    = inl DimensionError
  ∧ concat_bins ex_irreducible_mask (λ _, O) ex_da_2d "x" = inl DimensionError.
Proof. split_and!; vm_compute; reflexivity. Qed.

End BinRemapping.

(* ===================================================================== *)
(** * Part I, continued: the rebuilt offsets in 64-bit integers            *)
(* ===================================================================== *)

Module Int64Offsets.

Import BinRemapping.

(** The index variables of the library hold 64-bit signed integers, and
    arithmetic on them wraps around: a result is taken modulo [2^64] into
    the range from [-2^63] to [2^63 - 1]. *)
Definition wrap (z : Z) : Z := (z + 2 ^ 63) mod 2 ^ 64 - 2 ^ 63.

(** [a - b], elementwise. *)
Definition arr_sub (a b : Arr) : Arr :=
  mkArr (n1 a) (n2 a) (n3 a) (λ i j k, wrap (get a i j k - get b i j k)).

(** Modelled from the spec: [cumsum], the inclusive cumulative sum in
    row-major order. Adding with wrap-around is adding modulo [2^64]
    ([wrap_add]), so the running sum at a position is the sum of the
    elements at and before it, wrapped. *)
Definition cumsum (a : Arr) : Arr :=
  mkArr (n1 a) (n2 a) (n3 a) (λ i j k, wrap (get (BinRemapping.cumsum a) i j k)).

Section Remap.

Context {E : Type}.
Variable junk : nat → E.

(** [_replace_bin_sizes] *)
Definition _replace_bin_sizes (var : BinnedVar E) (sizes : Arr) : BinnedVar E :=
  let out_end := cumsum sizes in
  let out_begin := arr_sub out_end sizes in
  _bins_no_validate (data var) (dim var) out_begin out_end.

(** [_remap_bins] *)
Definition _remap_bins (var : BinnedVar E) (begin end' sizes : Arr)
    : option (BinnedVar E) :=
  let out := _bins_no_validate (copy_for_overwrite junk (data var)) (dim var)
               begin end' in
  out ← assign_bins out var;
  Some (_replace_bin_sizes out sizes).

End Remap.

(** The bins of [out] have the sizes [sizes] and lie one after the other
    from offset zero, in row-major order: at every position of [sizes], end
    is the cumulative sum of the sizes, as an integer, and begin is end
    minus size. *)
Definition laid_out {E} (out : BinnedVar E) (sizes : Arr) : Prop :=
  same_shape (begin_ out) sizes = true
  ∧ same_shape (end_ out) sizes = true
  ∧ (∀ p, in_range_at sizes p →
       get_at (end_ out) p = get_at (BinRemapping.cumsum sizes) p
       ∧ get_at (begin_ out) p = get_at (end_ out) p - get_at sizes p
       ∧ 0 ≤ get_at (begin_ out) p ≤ get_at (end_ out) p)
  ∧ (in_range sizes 0 0 0 → get (begin_ out) 0 0 0 = 0)
  ∧ (∀ p, in_range_at sizes p → in_range_at sizes (next_pos sizes p) →
       get_at (begin_ out) (next_pos sizes p) = get_at (end_ out) p).

(** Two sizes of [2^62]: their sum is not a 64-bit integer. *)
Definition ex_huge_sizes : Arr := arr_of [[[2 ^ 62; 2 ^ 62]]].

(** Two empty bins. *)
Definition ex_empty_bins : BinnedVar nat :=
  mkBins [] "event" (arr_of [[[0; 0]]]) (arr_of [[[0; 0]]]).

Lemma wrap_small z : - 2 ^ 63 ≤ z < 2 ^ 63 → wrap z = z.
Proof. intros Hz. unfold wrap. rewrite Z.mod_small; lia. Qed.

Lemma wrap_range z : - 2 ^ 63 ≤ wrap z < 2 ^ 63.
Proof.
  unfold wrap. pose proof (Z.mod_pos_bound (z + 2 ^ 63) (2 ^ 64) ltac:(lia)). lia.
Qed.

(** Wrapping after every addition gives the wrapped sum. *)
Lemma wrap_add a b : wrap (wrap a + b) = wrap (a + b).
Proof.
  unfold wrap.
  f_equal.
  replace ((a + 2 ^ 63) mod 2 ^ 64 - 2 ^ 63 + b + 2 ^ 63)
    with ((a + 2 ^ 63) mod 2 ^ 64 + b) by lia.
  rewrite Zplus_mod_idemp_l. f_equal. lia.
Qed.

(** The rebuilt offsets at a position, when no sum leaves the range. *)
Lemma replace_bin_sizes_exact {E} (var : BinnedVar E) (sizes : Arr) i j k :
  nonneg sizes → arr_total sizes < 2 ^ 63 → in_range sizes i j k →
  get (end_ (_replace_bin_sizes var sizes)) i j k = pre sizes i j (S k)
  ∧ get (begin_ (_replace_bin_sizes var sizes)) i j k = pre sizes i j k.
Proof.
  intros Hnn Htot (Hi & Hj & Hk). simpl.
  pose proof (pre_nonneg sizes i j k Hnn Hi Hj ltac:(lia)) as H0.
  pose proof (pre_nonneg sizes i j (S k) Hnn Hi Hj ltac:(lia)) as H1.
  pose proof (pre_le_total sizes i j k Hnn Hi Hj ltac:(lia)) as H2.
  pose proof (pre_le_total sizes i j (S k) Hnn Hi Hj ltac:(lia)) as H3.
  change (sumZ (block_total sizes) i + sumZ (row_total sizes i) j
          + (sumZ (get sizes i j) k + get sizes i j k))
    with (pre sizes i j (S k)).
  rewrite (wrap_small (pre sizes i j (S k))) by lia. split; [done|].
  replace (pre sizes i j (S k) - get sizes i j k) with (pre sizes i j k)
    by (unfold pre; simpl; lia).
  apply wrap_small. lia.
Qed.

Lemma replace_bin_sizes_laid_out {E} (var : BinnedVar E) (sizes : Arr) :
  nonneg sizes → arr_total sizes < 2 ^ 63 →
  laid_out (_replace_bin_sizes var sizes) sizes.
Proof.
  intros Hnn Htot.
  destruct (replace_bin_sizes_contiguous var sizes) as (_ & _ & _ & Hfirst & Hnext).
  assert (Hexact : ∀ p, in_range_at sizes p →
            get_at (end_ (_replace_bin_sizes var sizes)) p
            = get_at (BinRemapping.cumsum sizes) p
            ∧ get_at (begin_ (_replace_bin_sizes var sizes)) p
              = get_at (BinRemapping.arr_sub (BinRemapping.cumsum sizes) sizes) p).
  { intros [[i j] k] Hp.
    destruct (replace_bin_sizes_exact var sizes i j k Hnn Htot Hp) as [He Hb].
    unfold get_at. rewrite He, Hb, cumsum_pre, cumsum_sub_pre. done. }
  split_and!.
  - apply bool_decide_eq_true. done.
  - apply bool_decide_eq_true. done.
  - intros [[i j] k] Hp. destruct (Hexact _ Hp) as [He Hb].
    split; [exact He|]. rewrite Hb, He. unfold get_at. simpl.
    split; [done|].
    destruct Hp as (Hi & Hj & Hk).
    pose proof (pre_nonneg sizes i j k Hnn Hi Hj ltac:(lia)) as H0.
    pose proof (Hnn i j k ltac:(done)) as Hs. unfold pre in H0. lia.
  - intros H000. destruct (Hexact (O, O, O) H000) as [_ Hb].
    unfold get_at in Hb. rewrite Hb. simpl in *. apply Hfirst. exact H000.
  - intros p Hp Hp'. destruct (Hexact _ Hp) as [He _].
    destruct (Hexact _ Hp') as [_ Hb']. rewrite Hb', He.
    by apply Hnext.
Qed.

(** C7, as the code has it. The begin/end offsets of a binned variable that
    a remap produces are rebuilt from the output sizes alone, in 64-bit
    integers. For sizes that are not negative and add up to less than
    [2^63], end is the inclusive cumulative sum of the sizes and begin is
    end minus sizes, so the first bin begins at 0 and every bin begins
    where its predecessor in row-major order ends; the begin/end arrays
    passed to the remap play no part in it. *)
Theorem remap_bins_contiguous {E} (junk : nat → E) (sizes : Arr) :
  nonneg sizes → arr_total sizes < 2 ^ 63 →
  (∀ var : BinnedVar E, laid_out (_replace_bin_sizes var sizes) sizes)
  ∧ (∀ (var : BinnedVar E) (begin end' : Arr) (out : BinnedVar E),
       _remap_bins junk var begin end' sizes = Some out →
       laid_out out sizes).
Proof.
  intros Hnn Htot. split; [intros var; by apply replace_bin_sizes_laid_out|].
  intros var b e out Hr. unfold _remap_bins in Hr.
  destruct (assign_bins _ var) as [out1|]; simplify_eq/=.
  by apply replace_bin_sizes_laid_out.
Qed.

(** A remap whose caller-supplied offsets swap the two non-empty bins. *)
Lemma remap_bins_contiguous_witness :
  ∃ out, _remap_bins (λ _, O) ex_var (arr_of [[[3; 3]]; [[0; 3]]])
           (arr_of [[[5; 3]]; [[3; 3]]]) (arr_of [[[2; 0]]; [[3; 0]]]) = Some out
    ∧ laid_out out (arr_of [[[2; 0]]; [[3; 0]]]).
Proof.
  assert (Hnn : nonneg (arr_of [[[2; 0]]; [[3; 0]]])).
  { intros i j k (Hi & Hj & Hk). simpl in Hi, Hj, Hk.
    destruct i as [|[|i]]; [| |lia]; (destruct j as [|j]; [|lia]);
      (destruct k as [|[|k]]; [| |lia]); vm_compute; discriminate. }
  assert (Htot : arr_total (arr_of [[[2; 0]]; [[3; 0]]]) < 2 ^ 63)
    by (vm_compute; reflexivity).
  destruct (_remap_bins (λ _, O) ex_var (arr_of [[[3; 3]]; [[0; 3]]])
              (arr_of [[[5; 3]]; [[3; 3]]]) (arr_of [[[2; 0]]; [[3; 0]]]))
    as [out|] eqn:Hr.
  - exists out. split; [reflexivity|].
    exact (proj2 (remap_bins_contiguous (λ _, O) (arr_of [[[2; 0]]; [[3; 0]]])
                    Hnn Htot) ex_var _ _ out Hr).
  - exfalso. unfold _remap_bins in Hr.
    destruct (assign_bins
                (_bins_no_validate (copy_for_overwrite (λ _, O) (data ex_var))
                   (dim ex_var) (arr_of [[[3; 3]]; [[0; 3]]])
                   (arr_of [[[5; 3]]; [[3; 3]]])) ex_var) as [out1|] eqn:Ha.
    + discriminate Hr.
    + vm_compute in Ha. discriminate Ha.
Defined.

(** C7 fails when the cumulative sum leaves the 64-bit integers. A remap of
    two empty bins with the sizes [2^62] and [2^62] returns the end offsets
    [2^62] and [-2^63]: the second end is not the cumulative sum [2^63] of
    the sizes and lies before the begin [2^62] of its bin. *)
Lemma remap_bins_overflow_wraps :
  ∃ out, _remap_bins (λ _, O) ex_empty_bins (arr_of [[[0; 0]]]) (arr_of [[[0; 0]]])
           ex_huge_sizes = Some out
    ∧ get (BinRemapping.cumsum ex_huge_sizes) 0 0 1 = 2 ^ 63
    ∧ get (end_ out) 0 0 1 = - 2 ^ 63
    ∧ get (begin_ out) 0 0 1 = 2 ^ 62
    ∧ ¬ laid_out out ex_huge_sizes.
Proof.
  assert (Ha : assign_bins
                 (_bins_no_validate (copy_for_overwrite (λ _, O) (data ex_empty_bins))
                    (dim ex_empty_bins) (arr_of [[[0; 0]]]) (arr_of [[[0; 0]]]))
                 ex_empty_bins = Some ex_empty_bins)
    by (vm_compute; reflexivity).
  exists (_replace_bin_sizes ex_empty_bins ex_huge_sizes). split.
  { unfold _remap_bins. rewrite Ha. reflexivity. }
  split_and!; [vm_compute; reflexivity..|].
  intros (_ & _ & Hat & _).
  destruct (Hat (O, O, 1%nat)) as [He _]; [vm_compute; lia|].
  vm_compute in He. discriminate He.
Qed.

End Int64Offsets.

(* ===================================================================== *)
(** * Part II: write-back of results ([coords/transform_coords.py])        *)
(* ===================================================================== *)

Module WriteBack.

(** The exceptions that the write-back distinguishes. [AttributeError] is what
    Python raises for [None.coords]; [OtherError] stands for every other
    exception of the array library. *)
Inductive Exn := DimensionError | VariableError | AttributeError | OtherError.

#[global] Instance Exn_eq_dec : EqDecision Exn.
Proof. solve_decision. Defined.

(** The computations of the write-back. *)
Abbreviation res := (result Exn).

(** [Destination] *)
Inductive Destination := coord | attr.

#[global] Instance Destination_eq_dec : EqDecision Destination.
Proof. solve_decision. Defined.

(** [Destination.other] *)
Definition other (d : Destination) : Destination :=
  match d with
  | coord => attr
  | attr => coord
  end.

Section Store.

(** Variables of the array library, and the bin indices (begin/end offsets)
    of a binned payload. *)
Context {Var Indices : Type}.

(** [Coord]: the entry of the coordinate table for one name. *)
Record Coord := mkCoord {
  dense : option Var;
  event : option Var;
  destination : Destination;
  usages : Z;
}.

Definition has_dense (c : Coord) : bool := bool_decide (is_Some (dense c)).
Definition has_event (c : Coord) : bool := bool_decide (is_Some (event c)).

(** The binned payload of a data array: its bin indices and the per-event
    coordinates and attributes ([da.bins.coords], [da.bins.attrs]). *)
Record Payload := mkPayload {
  indices : Indices;
  bcoords : gmap string Var;
  battrs : gmap string Var;
}.

(** A data array as the write-back sees it. [bins] is [None] for dense data
    ([da.bins is None]). [copies] counts the copies of the content buffer
    made by [da.data.copy()]; it is a ghost field. *)
Record DataArray := mkDA {
  coords : gmap string Var;
  attrs : gmap string Var;
  bins : option Payload;
  copies : nat;
}.

(** The array library decides whether an assignment to a metadata dict is
    accepted: [dense_error] for [da.coords[name] = c] and [da.attrs[name] = c],
    [bins_error] for the per-event dicts, where the outcome depends on the bin
    indices of the payload and on the variable. [None] means accepted. *)
Variable dense_error : Var → option Exn.
Variable bins_error : Indices → Var → option Exn.

(** The bin indices of [da.data.copy()]. *)
Variable copy_indices : Indices → Indices.

Definition pop_payload (dest : Destination) (name : string) (p : Payload) : Payload :=
  match dest with
  | coord => mkPayload (indices p) (delete name (bcoords p)) (battrs p)
  | attr => mkPayload (indices p) (bcoords p) (delete name (battrs p))
  end.

(** [try_del] of [_store_coord] *)
Definition try_del (name : string) (dest : Destination) (da : DataArray) : DataArray :=
  match dest with
  | coord => mkDA (delete name (coords da)) (attrs da)
               (pop_payload coord name <$> bins da) (copies da)
  | attr => mkDA (coords da) (delete name (attrs da))
              (pop_payload attr name <$> bins da) (copies da)
  end.

(** [store(da, c)] of [_store_coord] *)
Definition store_dense (name : string) (dest : Destination) (da : DataArray)
    (c : Var) : res DataArray :=
  match dense_error c with
  | Some e => raise e
  | None =>
      ok match dest with
         | coord => mkDA (<[name := c]> (coords da)) (attrs da) (bins da) (copies da)
         | attr => mkDA (coords da) (<[name := c]> (attrs da)) (bins da) (copies da)
         end
  end.

(** [store(da.bins, c)] of [_store_coord] *)
Definition store_bins (name : string) (dest : Destination) (da : DataArray)
    (c : Var) : res DataArray :=
  match bins da with
  | None => raise AttributeError
  | Some p =>
      match bins_error (indices p) c with
      | Some e => raise e
      | None =>
          let p' := match dest with
                    | coord => mkPayload (indices p) (<[name := c]> (bcoords p)) (battrs p)
                    | attr => mkPayload (indices p) (bcoords p) (<[name := c]> (battrs p))
                    end in
          ok (mkDA (coords da) (attrs da) (Some p') (copies da))
      end
  end.

(** [da.data = da.data.copy()] *)
Definition copy_data (da : DataArray) : DataArray :=
  mkDA (coords da) (attrs da)
    ((λ p, mkPayload (copy_indices (indices p)) (bcoords p) (battrs p)) <$> bins da)
    (S (copies da)).

(** [_store_coord] of [transform_coords.py] *)
Definition _store_coord (da : DataArray) (name : string) (c : Coord) : res DataArray :=
  let da := try_del name (other (destination c)) da in
  if decide (usages c = 0) then ok (try_del name (destination c) da)
  else
    da ← match dense c with
          | Some v => store_dense name (destination c) da v
          | None => ok da
          end;
    match event c with
    | Some v =>
        match store_bins name (destination c) da v with
        | inl DimensionError | inl VariableError =>
            (* Thrown on mismatching bin indices, e.g. slice *)
            store_bins name (destination c) (copy_data da) v
        | r => r
        end
    | None => ok da
    end.

(** [da.copy(deep=False)]: the copy has dicts of its own and shares the
    buffers. *)
Definition shallow_copy (da : DataArray) : DataArray := da.

(** [da.data = bins(...)] on the constituents of [da.bins]: the same
    constituents, wrapped anew. *)
Definition rewrap (da : DataArray) : DataArray := da.

Definition set_destination (c : Coord) (d : Destination) : Coord :=
  mkCoord (dense c) (event c) d (usages c).

(** [_store_results]; [table] lists the items of the coordinate table. *)
Definition _store_results (da : DataArray) (table : list (string * Coord))
    (targets : gset string) : res DataArray :=
  let da := shallow_copy da in
  let da := if bool_decide (is_Some (bins da)) then rewrap da else da in
  foldl (λ (acc : res DataArray) (item : string * Coord),
           da ← acc;
           let c := if decide (item.1 ∈ targets)
                    then set_destination item.2 coord else item.2 in
           _store_coord da item.1 c)
        (ok da) table.

(** [_store_event_coord] of [coords.py] *)
Definition _store_event_coord (obj : DataArray) (name : string) (c : Var) : res DataArray :=
  obj ← match store_bins name coord obj c with
         | inl VariableError =>
             (* Thrown on mismatching bin indices, e.g. slice *)
             store_bins name coord (copy_data obj) c
         | r => r
         end;
  ok (mkDA (coords obj) (attrs obj)
        ((λ p, if bool_decide (name ∈ dom (battrs p))
               then pop_payload attr name p else p) <$> bins obj)
        (copies obj)).

(** Name [name] is in at most one of the coordinates and the attributes, and
    in at most one of the per-event coordinates and per-event attributes. *)
Definition in_one_store (name : string) (da : DataArray) : Prop :=
  ¬ (name ∈ dom (coords da) ∧ name ∈ dom (attrs da))
  ∧ ∀ p, bins da = Some p → ¬ (name ∈ dom (bcoords p) ∧ name ∈ dom (battrs p)).

(** The per-event dict that a destination selects. *)
Definition event_store (dest : Destination) (p : Payload) : gmap string Var :=
  match dest with
  | coord => bcoords p
  | attr => battrs p
  end.

(** The dict of the data array that a destination selects. *)
Definition dense_store (dest : Destination) (da : DataArray) : gmap string Var :=
  match dest with
  | coord => coords da
  | attr => attrs da
  end.

(** [name] is in neither store of destination [dest]. *)
Definition absent (dest : Destination) (name : string) (da : DataArray) : Prop :=
  (name ∉ dom (dense_store dest da))
  ∧ (∀ p, bins da = Some p → name ∉ dom (event_store dest p)).

(** [da'] holds name [n] in the stores in which [da] holds it. *)
Definition same_at (n : string) (da da' : DataArray) : Prop :=
  (∀ dest, n ∈ dom (dense_store dest da') ↔ n ∈ dom (dense_store dest da))
  ∧ ∀ p', bins da' = Some p' →
      ∃ p, bins da = Some p
        ∧ ∀ dest, n ∈ dom (event_store dest p') ↔ n ∈ dom (event_store dest p).

Lemma same_at_refl n da : same_at n da da.
Proof. split; [done|]. intros p Hp. by exists p. Qed.

Lemma same_at_trans n da1 da2 da3 :
  same_at n da1 da2 → same_at n da2 da3 → same_at n da1 da3.
Proof.
  intros [Hd1 Hb1] [Hd2 Hb2]. split.
  - intros dest. by rewrite Hd2.
  - intros p3 Hp3. destruct (Hb2 p3 Hp3) as (p2 & Hp2 & H23).
    destruct (Hb1 p2 Hp2) as (p1 & Hp1 & H12).
    exists p1. split; [done|]. intros dest. by rewrite H23.
Qed.

Lemma same_at_in_one_store n da da' :
  same_at n da da' → in_one_store n da → in_one_store n da'.
Proof.
  intros [Hd Hb] [Hone Hbone]. split.
  - pose proof (Hd coord) as Hc. pose proof (Hd attr) as Ha. simpl in *. tauto.
  - intros p' Hp'. destruct (Hb p' Hp') as (p & Hp & Hs).
    pose proof (Hs coord) as Hc. pose proof (Hs attr) as Ha.
    specialize (Hbone p Hp). simpl in *. tauto.
Qed.

Lemma absent_in_one_store dest name da :
  absent dest name da → in_one_store name da.
Proof.
  intros [Hd Hb]. split.
  - destruct dest; simpl in *; tauto.
  - intros p Hp. specialize (Hb p Hp). destruct dest; simpl in *; tauto.
Qed.

(** *** What the operations of [_store_coord] do to the stores *)

Lemma not_in_dom_delete (m : gmap string Var) name name' :
  name ∉ dom m ∨ name = name' → name ∉ dom (delete name' m).
Proof.
  rewrite !not_elem_of_dom. intros [Hm| ->].
  - rewrite lookup_delete. by case_decide.
  - apply lookup_delete_eq.
Qed.

Lemma dom_delete_other (m : gmap string Var) n name :
  n ≠ name → n ∈ dom (delete name m) ↔ n ∈ dom m.
Proof. intros Hne. by rewrite !elem_of_dom, lookup_delete_ne. Qed.

Lemma dom_insert_other (m : gmap string Var) n name v :
  n ≠ name → n ∈ dom (<[name := v]> m) ↔ n ∈ dom m.
Proof. intros Hne. by rewrite !elem_of_dom, lookup_insert_ne. Qed.

Lemma try_del_absent name dest da : absent dest name (try_del name dest da).
Proof.
  split.
  - destruct dest; simpl; apply not_in_dom_delete; by right.
  - intros p. destruct dest; simpl; (destruct (bins da) as [p0|]; [|done]);
      simpl; intros Hp; simplify_eq/=; apply not_in_dom_delete; by right.
Qed.

Lemma try_del_keeps_absent name dest dest' da :
  absent dest name da → absent dest name (try_del name dest' da).
Proof.
  intros [Hd Hb]. split.
  - destruct dest, dest'; simpl in *; try done; apply not_in_dom_delete; by left.
  - intros p. destruct (bins da) as [p0|] eqn:Hp0.
    + specialize (Hb p0 eq_refl).
      destruct dest, dest'; simpl; rewrite Hp0; simpl; intros [= <-]; simpl in *;
        try done; apply not_in_dom_delete; by left.
    + destruct dest'; simpl; rewrite Hp0; done.
Qed.

Lemma try_del_same_at n name dest da :
  n ≠ name → same_at n da (try_del name dest da).
Proof.
  intros Hne. split.
  - intros d. destruct d, dest; simpl; try done; by apply dom_delete_other.
  - intros p'. destruct (bins da) as [p0|] eqn:Hp0.
    + destruct dest; simpl; rewrite Hp0; simpl; intros [= <-]; exists p0;
        (split; [done|]); intros d; destruct d; simpl; try done;
        by apply dom_delete_other.
    + destruct dest; simpl; rewrite Hp0; done.
Qed.

Lemma store_dense_absent name dest da v da' :
  store_dense name dest da v = inr da' →
  absent (other dest) name da → absent (other dest) name da'.
Proof.
  unfold store_dense. destruct (dense_error v); [done|]. intros [= <-].
  intros [Hd Hb]. split; [|by destruct dest]. by destruct dest.
Qed.

Lemma store_dense_same_at n name dest da v da' :
  store_dense name dest da v = inr da' → n ≠ name → same_at n da da'.
Proof.
  unfold store_dense. destruct (dense_error v); [done|]. intros [= <-] Hne.
  split.
  - intros d. destruct d, dest; simpl; try done; by apply dom_insert_other.
  - intros p'. destruct dest; simpl; intros Hp'; by exists p'.
Qed.

Lemma store_bins_absent name dest da v da' :
  store_bins name dest da v = inr da' →
  absent (other dest) name da → absent (other dest) name da'.
Proof.
  unfold store_bins. destruct (bins da) as [p|] eqn:Hp; [|done].
  destruct (bins_error (indices p) v); [done|]. intros [= <-].
  intros [Hd Hb]. specialize (Hb p Hp). split; [by destruct dest|].
  intros p'. simpl. intros [= <-]. by destruct dest.
Qed.

Lemma store_bins_same_at n name dest da v da' :
  store_bins name dest da v = inr da' → n ≠ name → same_at n da da'.
Proof.
  unfold store_bins. destruct (bins da) as [p|] eqn:Hp; [|done].
  destruct (bins_error (indices p) v); [done|]. intros [= <-] Hne.
  split; [done|]. intros p'. simpl. intros [= <-]. exists p.
  split; [done|]. intros d. destruct d, dest; simpl; try done;
    by apply dom_insert_other.
Qed.

Lemma copy_data_absent name dest da :
  absent dest name da → absent dest name (copy_data da).
Proof.
  intros [Hd Hb]. split; [by destruct dest|].
  intros p'. simpl. destruct (bins da) as [p|]; [|done]. simpl. intros [= <-].
  specialize (Hb p eq_refl). by destruct dest.
Qed.

Lemma copy_data_same_at n da : same_at n da (copy_data da).
Proof.
  split; [by intros []|]. intros p'. simpl.
  destruct (bins da) as [p|]; [|done]. simpl. intros [= <-].
  exists p. split; [done|]. by intros [].
Qed.

(** The try/except block of [_store_coord]. *)
Lemma store_event_inv name dest da v da' :
  match store_bins name dest da v with
  | inl DimensionError | inl VariableError => store_bins name dest (copy_data da) v
  | r => r
  end = inr da' →
  (absent (other dest) name da → absent (other dest) name da')
  ∧ ∀ n, n ≠ name → same_at n da da'.
Proof.
  destruct (store_bins name dest da v) as [e|da1] eqn:Hs.
  - assert (store_bins name dest (copy_data da) v = inr da' →
            (absent (other dest) name da → absent (other dest) name da')
            ∧ ∀ n, n ≠ name → same_at n da da') as Hretry.
    { intros Hr. split.
      - intros Ha. eapply store_bins_absent; [done|]. by apply copy_data_absent.
      - intros n Hne. eapply same_at_trans; [apply copy_data_same_at|].
        by eapply store_bins_same_at. }
    destruct e; try done; exact Hretry.
  - intros [= <-]. split.
    + by eapply store_bins_absent.
    + intros n Hne. by eapply store_bins_same_at.
Qed.

Lemma store_coord_inv da name c da' :
  _store_coord da name c = inr da' →
  in_one_store name da' ∧ ∀ n, n ≠ name → same_at n da da'.
Proof.
  unfold _store_coord.
  set (da0 := try_del name (other (destination c)) da).
  assert (Ha0 : absent (other (destination c)) name da0) by apply try_del_absent.
  assert (Hs0 : ∀ n, n ≠ name → same_at n da da0)
    by (intros; by apply try_del_same_at).
  case_decide as Hu.
  { intros [= <-]. split.
    - eapply absent_in_one_store. by apply try_del_keeps_absent.
    - intros n Hne. eapply same_at_trans; [by apply Hs0|].
      by apply try_del_same_at. }
  set (m := match dense c with
            | Some v => store_dense name (destination c) da0 v
            | None => ok da0
            end).
  assert (Hm : ∀ da1, m = inr da1 →
            absent (other (destination c)) name da1
            ∧ ∀ n, n ≠ name → same_at n da da1).
  { intros da1. unfold m. destruct (dense c) as [v|].
    - intros Hsd. split; [by eapply store_dense_absent|].
      intros n Hne. eapply same_at_trans; [by apply Hs0|].
      by eapply store_dense_same_at.
    - intros [= <-]. done. }
  destruct m as [e|da1]; [done|]. simpl.
  destruct (Hm da1 eq_refl) as [Ha1 Hs1].
  destruct (event c) as [v|].
  - intros [Habs Hsame]%store_event_inv. split.
    + eapply absent_in_one_store. by apply Habs.
    + intros n Hne. eapply same_at_trans; [by apply Hs1|]. by apply Hsame.
  - intros [= <-]. split; [by eapply absent_in_one_store|done].
Qed.

(** After a [_store_coord], every name that was in at most one store is in
    at most one store, and so is the stored name. *)
Lemma store_coord_in_one_store da name c da' n :
  _store_coord da name c = inr da' →
  n = name ∨ in_one_store n da → in_one_store n da'.
Proof.
  intros [Hname Hother]%store_coord_inv Hn.
  destruct (decide (n = name)) as [->|Hne]; [done|].
  destruct Hn as [?|Hn]; [done|].
  eapply same_at_in_one_store; [by apply Hother|done].
Qed.

Lemma store_results_loop (targets : gset string) (table : list (string * Coord)) :
  ∀ (acc : res DataArray) da',
    foldl (λ (acc : res DataArray) (item : string * Coord),
             da ← acc;
             let c := if decide (item.1 ∈ targets)
                      then set_destination item.2 coord else item.2 in
             _store_coord da item.1 c) acc table = inr da' →
    ∃ da0, acc = inr da0
      ∧ (∀ n, in_one_store n da0 → in_one_store n da')
      ∧ (∀ item, item ∈ table → in_one_store item.1 da').
Proof.
  induction table as [|[name c] table IH]; intros acc da' Hfold; simpl in Hfold.
  - exists da'. split_and!; [done|done|]. intros item Hin. by apply elem_of_nil in Hin.
  - destruct (IH _ _ Hfold) as (da1 & Hstep & Hkeep & Hin).
    destruct acc as [e|da0]; [done|]. simpl in Hstep.
    exists da0. split_and!; [done| |].
    + intros n Hn. apply Hkeep.
      eapply store_coord_in_one_store; [done|by right].
    + intros item [->|Hitem]%elem_of_cons; [|by apply Hin].
      apply Hkeep. simpl. eapply store_coord_in_one_store; [done|by left].
Qed.

End Store.

Arguments Coord : clear implicits.
Arguments Payload : clear implicits.
Arguments DataArray : clear implicits.

(** ** An instance of the array-library primitives

    Modelled from the spec: a binned payload is a content buffer with begin
    and end offsets per bin. An event coordinate is described here by its bin
    indices; it can be stored when its bin indices are those of the data
    (otherwise the library raises [VariableError], "mismatching bin indices").
    A copy of the data lays the bins out one after the other from offset 0. *)

Definition ex_bins_error (idx : list (Z * Z)) (v : list (Z * Z)) : option Exn :=
  if decide (idx = v) then None else Some VariableError.

Fixpoint ex_layout (start : Z) (idx : list (Z * Z)) : list (Z * Z) :=
  match idx with
  | [] => []
  | (b, e) :: idx => (start, start + (e - b)) :: ex_layout (start + (e - b)) idx
  end.

Definition ex_copy_indices (idx : list (Z * Z)) : list (Z * Z) := ex_layout 0 idx.

Definition ex_dense_error (v : list (Z * Z)) : option Exn := None.

(** A slice of binned data: two bins that start at offset 2 of the buffer,
    with a dense coordinate and an event coordinate ["x"]. *)
Definition ex_sliced : DataArray (list (Z * Z)) (list (Z * Z)) :=
  mkDA {[ "x" := [] ]} {[ "y" := [] ]}
    (Some (mkPayload [(2, 5); (5, 9)] {[ "x" := [(2, 5); (5, 9)] ]}
             {[ "y" := [(2, 5); (5, 9)] ]}))
    0.

(** A computed event coordinate has the bins of the data laid out from 0. *)
Definition ex_computed : Coord (list (Z * Z)) :=
  mkCoord None (Some [(0, 3); (3, 7)]) coord 1.

(** An event coordinate with bins of the sizes of the data in the layout of
    another slice: the bins start at offset 1. *)
Definition ex_misfit : Coord (list (Z * Z)) :=
  mkCoord None (Some [(1, 4); (4, 8)]) coord 1.

(** C10. After the write-back of a transform result, every name of the
    coordinate table is in at most one of the coordinates and the attributes of
    the output and, for binned data, in at most one of the per-event
    coordinates and per-event attributes: [_store_coord] deletes the name from
    the other destination before it writes it or deletes it. *)
Theorem store_results_in_one_store {Var Indices}
    (dense_error : Var → option Exn) (bins_error : Indices → Var → option Exn)
    (copy_indices : Indices → Indices)
    (da : DataArray Var Indices) (table : list (string * Coord Var))
    (targets : gset string) (da' : DataArray Var Indices) :
  _store_results dense_error bins_error copy_indices da table targets = inr da' →
  ∀ name c, (name, c) ∈ table → in_one_store name da'.
Proof.
  unfold _store_results. intros Hres name c Hin.
  apply store_results_loop in Hres as (da0 & _ & _ & Hall).
  by apply (Hall (name, c)).
Qed.

Lemma store_results_in_one_store_witness :
  ∃ da',
    _store_results ex_dense_error ex_bins_error ex_copy_indices ex_sliced
      [("y", ex_computed)] {[ "y" ]} = inr da'
    ∧ in_one_store "y" da'.
Proof.
  eexists. split; [vm_compute; reflexivity|].
  eapply (store_results_in_one_store ex_dense_error ex_bins_error ex_copy_indices
            ex_sliced [("y", ex_computed)] {[ "y" ]}).
  - vm_compute. reflexivity.
  - apply list_elem_of_singleton. reflexivity.
Defined.

(** C6, as the code has it. When the store of an event coordinate into the
    binned payload fails with the error of mismatching bin indices
    ([VariableError], and in [transform_coords.py] also [DimensionError]), the
    content buffer is copied exactly once and the same store is retried once
    on the copy. The outcome of the retry is the outcome of the write-back:
    when the retry is accepted the coordinate is stored and no error reaches
    the caller; an error raised by the retry is returned to the caller. *)
Theorem store_event_copy_and_retry {Var Indices}
    (dense_error : Var → option Exn) (bins_error : Indices → Var → option Exn)
    (copy_indices : Indices → Indices)
    (da : DataArray Var Indices) (name : string) (v : Var)
    (p : Payload Var Indices) (e : Exn) :
  bins da = Some p →
  bins_error (indices p) v = Some e →
  (∀ c : Coord Var,
     e = DimensionError ∨ e = VariableError →
     usages c ≠ 0 → event c = Some v →
     (∀ d, dense c = Some d → dense_error d = None) →
     match bins_error (copy_indices (indices p)) v with
     | None =>
         ∃ da' p', _store_coord dense_error bins_error copy_indices da name c = inr da'
           ∧ copies da' = S (copies da)
           ∧ bins da' = Some p'
           ∧ indices p' = copy_indices (indices p)
           ∧ event_store (destination c) p' !! name = Some v
     | Some e' =>
         _store_coord dense_error bins_error copy_indices da name c = inl e'
     end)
  ∧ (e = VariableError →
     match bins_error (copy_indices (indices p)) v with
     | None =>
         ∃ da' p', _store_event_coord bins_error copy_indices da name v = inr da'
           ∧ copies da' = S (copies da)
           ∧ bins da' = Some p'
           ∧ indices p' = copy_indices (indices p)
           ∧ bcoords p' !! name = Some v
     | Some e' => _store_event_coord bins_error copy_indices da name v = inl e'
     end).
Proof.
  intros Hp He. split.
  - intros c Hcaught Hu Hev Hdense. unfold _store_coord.
    rewrite decide_False by done. rewrite Hev.
    set (da0 := try_del name (other (destination c)) da).
    assert (Hda1 : ∃ da1,
              match dense c with
              | Some d => store_dense dense_error name (destination c) da0 d
              | None => ok da0
              end = inr da1
              ∧ copies da1 = copies da
              ∧ ∃ p1, bins da1 = Some p1 ∧ indices p1 = indices p).
    { assert (Hb0 : ∃ p0, bins da0 = Some p0 ∧ indices p0 = indices p).
      { unfold da0. destruct (destination c); simpl; rewrite Hp; simpl;
          eexists; (split; [done|done]). }
      assert (Hc0 : copies da0 = copies da) by (unfold da0; by destruct (destination c)).
      destruct (dense c) as [d|] eqn:Hd; [|by exists da0].
      unfold store_dense. rewrite (Hdense d eq_refl). eexists. split; [done|].
      destruct (destination c); simpl; done. }
    destruct Hda1 as (da1 & -> & Hc1 & p1 & Hp1 & Hi1). simpl.
    assert (Hfirst : store_bins bins_error name (destination c) da1 v = inl e).
    { unfold store_bins. by rewrite Hp1, Hi1, He. }
    rewrite Hfirst.
    assert (Hretry :
      match bins_error (copy_indices (indices p)) v with
      | None =>
          ∃ da' p', store_bins bins_error name (destination c) (copy_data copy_indices da1) v = inr da'
            ∧ copies da' = S (copies da) ∧ bins da' = Some p'
            ∧ indices p' = copy_indices (indices p)
            ∧ event_store (destination c) p' !! name = Some v
      | Some e' =>
          store_bins bins_error name (destination c) (copy_data copy_indices da1) v = inl e'
      end).
    { unfold store_bins, copy_data. simpl. rewrite Hp1. simpl. rewrite Hi1.
      destruct (bins_error (copy_indices (indices p)) v) as [e'|]; [done|].
      eexists _, _. split_and!; [done|simpl; by rewrite Hc1|done|..].
      - by destruct (destination c).
      - destruct (destination c); simpl; apply lookup_insert_eq. }
    destruct Hcaught as [-> | ->]; exact Hretry.
  - intros ->. unfold _store_event_coord.
    assert (Hfirst : store_bins bins_error name coord da v = inl VariableError).
    { unfold store_bins. by rewrite Hp, He. }
    rewrite Hfirst. unfold store_bins, copy_data. simpl. rewrite Hp. simpl.
    destruct (bins_error (copy_indices (indices p)) v) as [e'|]; [done|].
    simpl. eexists _, _. split_and!; [done|done|done|..].
    + by case_bool_decide.
    + case_bool_decide; simpl; apply lookup_insert_eq.
Qed.

(** The store of a computed event coordinate into a slice of binned data:
    the first store is refused, the copy accepts the coordinate. *)
Lemma store_event_copy_and_retry_witness :
  bins ex_sliced = Some (mkPayload [(2, 5); (5, 9)] {[ "x" := [(2, 5); (5, 9)] ]}
                           {[ "y" := [(2, 5); (5, 9)] ]})
  ∧ ex_bins_error [(2, 5); (5, 9)] [(0, 3); (3, 7)] = Some VariableError
  ∧ (∃ da', _store_coord ex_dense_error ex_bins_error ex_copy_indices
              ex_sliced "y" ex_computed = inr da'
       ∧ copies da' = 1%nat)
  ∧ (∃ da', _store_event_coord ex_bins_error ex_copy_indices
              ex_sliced "y" [(0, 3); (3, 7)] = inr da'
       ∧ copies da' = 1%nat).
Proof.
  split; [reflexivity|]. split; [reflexivity|].
  destruct (store_event_copy_and_retry ex_dense_error ex_bins_error ex_copy_indices
              ex_sliced "y" [(0, 3); (3, 7)] _ VariableError eq_refl eq_refl)
    as [Hnew Hold].
  split.
  - specialize (Hnew ex_computed (or_intror eq_refl)).
    destruct Hnew as (da' & p' & Hres & Hcopies & _); [done|reflexivity|done|].
    exists da'. split; [exact Hres|exact Hcopies].
  - destruct (Hold eq_refl) as (da' & p' & Hres & Hcopies & _).
    exists da'. split; [exact Hres|exact Hcopies].
Defined.

(** C6 fails when the retry is refused as well. The bins of the coordinate
    have the sizes of the bins of the data, in a layout that is neither that
    of the data nor that of its copy: the first store is refused, the buffer
    is copied, the retry is refused, and its error reaches the caller. *)
Lemma store_event_retry_error_surfaces :
  ex_bins_error [(2, 5); (5, 9)] [(1, 4); (4, 8)] = Some VariableError
  ∧ ex_bins_error (ex_copy_indices [(2, 5); (5, 9)]) [(1, 4); (4, 8)]
    = Some VariableError
  ∧ _store_coord ex_dense_error ex_bins_error ex_copy_indices
      ex_sliced "y" ex_misfit = inl VariableError
  ∧ _store_event_coord ex_bins_error ex_copy_indices
      ex_sliced "y" [(1, 4); (4, 8)] = inl VariableError
  ∧ _store_results ex_dense_error ex_bins_error ex_copy_indices ex_sliced
      [("y", ex_misfit)] {[ "y" ]} = inl VariableError.
Proof. vm_compute. done. Qed.

End WriteBack.

(* ===================================================================== *)
(** * Part III: rules and the rule graph ([coords.py])                     *)
(* ===================================================================== *)

Module RuleGraph.

(** The exceptions of graph construction, name resolution and rule
    evaluation. [VariableArguments] and [DuplicateOutput] are the two
    [ValueError]s of the module; [CycleError] is the [graphlib.CycleError]
    (a [ValueError]) of the topological sorter. *)
Inductive Exn :=
  | VariableArguments
  | DuplicateOutput (product : string)
  | CoordError (name : string)
  | CycleError
  | KeyError (name : string)
  | TypeError.

Abbreviation res := (result Exn).

(** The part of [inspect.getfullargspec(func)] that [_argnames] reads. *)
Record ArgSpec := mkArgSpec {
  args : list string;
  varargs : option string;
  varkw : option string;
  kwonlyargs : list string;
}.

(** ** The topological sorter of the Python library

    [graphlib.TopologicalSorter(graph).static_order()] takes a dict from node
    to its predecessors; the predecessors are nodes as well. It yields the
    nodes in groups: a node is yielded once all its predecessors have been
    yielded. When nodes remain none of which can become ready, the graph has
    a cycle and [CycleError] is raised, before any node is yielded. The order
    inside a group is not part of the contract of the library; here a group is
    in the order of the node list. *)

Definition preds (g : gmap string (list string)) (n : string) : list string :=
  default [] (g !! n).

Definition sorter_nodes (g : gmap string (list string)) : list string :=
  elements (dom g ∪ list_to_set (concat (map_to_list g).*2) : gset string).

Definition ready (g : gmap string (list string)) (done : list string)
    (n : string) : Prop :=
  Forall (λ p, p ∈ done) (preds g n).

#[global] Instance ready_dec g done n : Decision (ready g done n).
Proof. unfold ready. apply _. Defined.

(** [kahn rounds g todo done] yields [rounds] groups. *)
Fixpoint kahn (rounds : nat) (g : gmap string (list string))
    (todo done : list string) : list string * list string :=
  match rounds with
  | O => (todo, done)
  | S rounds =>
      kahn rounds g (filter (λ n, ¬ ready g done n) todo)
        (done ++ filter (ready g done) todo)
  end.

Definition static_order (g : gmap string (list string)) : res (list string) :=
  let nodes := sorter_nodes g in
  match kahn (length nodes) g nodes [] with
  | ([], order) => ok order
  | (_ :: _, _) => raise CycleError
  end.

Section Rules.

(** Python callables, compared by identity. *)
Context {Func : Type} `{EqDecision Func}.
Variable getfullargspec : Func → ArgSpec.

(** [_argnames] *)
Definition _argnames (func : Func) : res (list string) :=
  let spec := getfullargspec func in
  if bool_decide (is_Some (varargs spec) ∨ is_Some (varkw spec))
  then raise VariableArguments
  else ok (args spec ++ kwonlyargs spec).

(** The three rule classes. A fetch rule also refers to the metadata dicts of
    the data array of the transform; these are the same for all fetch rules
    of one transform and are kept with the data. *)
Inductive _Rule :=
  | _FetchRule (out_names : list string)
  | _RenameRule (out_names : list string) (in_name : string)
  | _ComputeRule (out_names : list string) (func : Func) (arg_names : list string).

#[global] Instance _Rule_eq_dec : EqDecision _Rule.
Proof. solve_decision. Defined.

Definition out_names (r : _Rule) : list string :=
  match r with
  | _FetchRule o | _RenameRule o _ | _ComputeRule o _ _ => o
  end.

(** [rule.dependencies] *)
Definition dependencies (r : _Rule) : list string :=
  match r with
  | _FetchRule _ => []
  | _RenameRule _ in_name => [in_name]
  | _ComputeRule _ _ arg_names => arg_names
  end.

(** The keys of a graph dict are a name or a tuple of names, its values a
    name (rename) or a callable. *)
Inductive Products := PName (name : string) | PTuple (names : list string).
Inductive Producer := PStr (in_name : string) | PFunc (func : Func).

(** [(products, ) if isinstance(products, str) else products] *)
Definition product_names (products : Products) : list string :=
  match products with
  | PName name => [name]
  | PTuple names => names
  end.

(** [_make_rule]; the constructor of a compute rule calls [_argnames]. *)
Definition _make_rule (products : Products) (producer : Producer) : res _Rule :=
  match producer with
  | PStr in_name => ok (_RenameRule (product_names products) in_name)
  | PFunc func =>
      arg_names ← _argnames func;
      ok (_ComputeRule (product_names products) func arg_names)
  end.

(** The inner loop of [_convert_to_rule_graph]. *)
Fixpoint add_products (rule : _Rule) (products : list string)
    (rule_graph : gmap string _Rule) : res (gmap string _Rule) :=
  match products with
  | [] => ok rule_graph
  | product :: products =>
      if bool_decide (is_Some (rule_graph !! product))
      then raise (DuplicateOutput product)
      else add_products rule products (<[product := rule]> rule_graph)
  end.

(** The outer loop of [_convert_to_rule_graph], over the items of the dict. *)
Fixpoint convert_loop (graph : list (Products * Producer))
    (rule_graph : gmap string _Rule) : res (gmap string _Rule) :=
  match graph with
  | [] => ok rule_graph
  | (products, producer) :: graph =>
      rule ← _make_rule products producer;
      rule_graph ← add_products rule (product_names products) rule_graph;
      convert_loop graph rule_graph
  end.

(** [_convert_to_rule_graph]; [Graph.__init__] stores its result. *)
Definition _convert_to_rule_graph (graph : list (Products * Producer))
    : res (gmap string _Rule) :=
  convert_loop graph ∅.

(** [_sort_topologically] *)
Definition _sort_topologically (graph : gmap string _Rule) : res (list string) :=
  static_order (dependencies <$> graph).

(** The names of the metadata of a data array, and of the metadata of its
    bins when the data is binned. *)
Record Data := mkData {
  meta : gset string;
  bins_meta : option (gset string);
}.

(** [_is_meta_data] *)
Definition _is_meta_data (name : string) (data : Data) : bool :=
  bool_decide (name ∈ meta data)
  || match bins_meta data with
     | Some m => bool_decide (name ∈ m)
     | None => false
     end.

(** [Graph._rule_for] *)
Definition _rule_for (graph : gmap string _Rule) (out_name : string)
    (data : Data) : res _Rule :=
  if _is_meta_data out_name data then ok (_FetchRule [out_name])
  else match graph !! out_name with
       | Some rule => ok rule
       | None => raise (CoordError out_name)
       end.

(** The loop of [Graph.subgraph]. [pending] is the stack with its top at the
    head: [pop()] takes the head, [extend(deps)] pushes the dependencies in
    order. [None] stands for a loop that has not finished within [fuel]
    iterations. *)
Fixpoint subgraph_loop (fuel : nat) (graph : gmap string _Rule) (data : Data)
    (subgraph : gmap string _Rule) (pending : list string)
    : option (res (gmap string _Rule)) :=
  match pending with
  | [] => Some (ok subgraph)
  | out_name :: pending =>
      match fuel with
      | O => None
      | S fuel =>
          if bool_decide (is_Some (subgraph !! out_name))
          then subgraph_loop fuel graph data subgraph pending
          else match _rule_for graph out_name data with
               | inl e => Some (raise e)
               | inr rule =>
                   subgraph_loop fuel graph data (<[out_name := rule]> subgraph)
                     (reverse (dependencies rule) ++ pending)
               end
      end
  end.

(** [Graph.subgraph] *)
Definition subgraph (fuel : nat) (graph : gmap string _Rule) (data : Data)
    (targets : list string) : option (res (gmap string _Rule)) :=
  subgraph_loop fuel graph data ∅ (reverse targets).

(** The loop of [_non_duplicate_rules] over the sorted names. *)
Fixpoint non_duplicate_loop (rules : gmap string _Rule) (order : list string)
    (already_used : list _Rule) (result : list _Rule) : res (list _Rule) :=
  match order with
  | [] => ok result
  | n :: order =>
      match rules !! n with
      | None => raise (KeyError n)
      | Some rule =>
          if bool_decide (rule ∈ already_used)
          then non_duplicate_loop rules order already_used result
          else non_duplicate_loop rules order (rule :: already_used) (result ++ [rule])
      end
  end.

(** [_non_duplicate_rules] *)
Definition _non_duplicate_rules (rules : gmap string _Rule) : res (list _Rule) :=
  order ← _sort_topologically rules;
  non_duplicate_loop rules order [] [].

(** The first step of [_transform_data_array]: the rule sequence for the
    targets. *)
Definition rule_sequence_for (fuel : nat) (graph : gmap string _Rule)
    (data : Data) (targets : list string) : option (res (list _Rule)) :=
  sub ← subgraph fuel graph data targets;
  Some (sub ← sub; _non_duplicate_rules sub).

(** Name [n] is produced by a rule that depends on [p]. *)
Definition depends (graph : gmap string _Rule) (n p : string) : Prop :=
  ∃ rule, graph !! n = Some rule ∧ p ∈ dependencies rule.

(** No name depends on itself, directly or through other names. *)
Definition acyclic (graph : gmap string _Rule) : Prop :=
  ∀ n, ¬ tc (depends graph) n n.

(** Every dependency of the rule at position [i] of [rules] is an output of a
    rule at an earlier position. *)
Definition dependencies_first (rules : list _Rule) : Prop :=
  ∀ i rule d, rules !! i = Some rule → d ∈ dependencies rule →
    ∃ j rule', (j < i)%nat ∧ rules !! j = Some rule' ∧ d ∈ out_names rule'.

(** The names that the keys of a graph dict declare, in order. *)
Definition declared (graph : list (Products * Producer)) : list string :=
  concat (product_names <$> graph.*1).

(** ** The topological sorter *)

(** In [l] every node comes after its predecessors. *)
Definition ordered (g : gmap string (list string)) (l : list string) : Prop :=
  ∀ i n, l !! i = Some n → Forall (λ p, p ∈ take i l) (preds g n).

(** [p] is a predecessor of [n]. *)
Definition edge (g : gmap string (list string)) (n p : string) : Prop :=
  p ∈ preds g n.

(** ** The subgraph for a set of targets *)

(** Every entry of [sub] is the rule that [_rule_for] gives for its name. *)
Definition resolved (graph : gmap string _Rule) (data : Data)
    (sub : gmap string _Rule) : Prop :=
  ∀ n rule, sub !! n = Some rule → _rule_for graph n data = inr rule.

(** The dependencies of the rules of [sub] are names of [sub]. *)
Definition closed (sub : gmap string _Rule) : Prop :=
  ∀ n rule d, sub !! n = Some rule → d ∈ dependencies rule → is_Some (sub !! d).

(** The names for which [_rule_for] has a rule. *)
Definition resolvable (graph : gmap string _Rule) (data : Data) : gset string :=
  dom graph ∪ meta data ∪ default ∅ (bins_meta data).

(** ** Construction of the rule graph *)

Lemma make_rule_out_names products producer rule :
  _make_rule products producer = inr rule →
  out_names rule = product_names products.
Proof.
  destruct producer as [in_name|func]; simpl.
  - by intros [= <-].
  - destruct (_argnames func) as [e|arg_names]; simpl; [done|]. by intros [= <-].
Qed.

Lemma add_products_inv rule products rule_graph rule_graph' :
  add_products rule products rule_graph = inr rule_graph' →
  NoDup products
  ∧ (∀ n, n ∈ products → rule_graph !! n = None)
  ∧ (∀ n, rule_graph' !! n
          = if decide (n ∈ products) then Some rule else rule_graph !! n).
Proof.
  revert rule_graph. induction products as [|product products IH];
    intros rule_graph; simpl.
  - intros [= <-]. split_and!; [constructor|by intros n ?%elem_of_nil|done].
  - case_bool_decide as Hin; [done|]. intros (Hnd & Hfresh & Hlook)%IH.
    assert (Hnone : rule_graph !! product = None)
      by (by apply eq_None_not_Some).
    assert (Hnotin : product ∉ products).
    { intros Hp. specialize (Hfresh _ Hp). by rewrite lookup_insert_eq in Hfresh. }
    split_and!.
    + by constructor.
    + intros n [->|Hn]%elem_of_cons; [done|].
      specialize (Hfresh _ Hn). rewrite lookup_insert in Hfresh.
      by case_decide.
    + intros n. rewrite Hlook. destruct (decide (n = product)) as [->|Hne].
      * rewrite decide_False by done. rewrite lookup_insert_eq.
        rewrite decide_True; [done|by left].
      * rewrite lookup_insert_ne by done.
        destruct (decide (n ∈ products)) as [Hn|Hn].
        -- rewrite decide_True; [done|by right].
        -- rewrite decide_False; [done|]. by intros [?|?]%elem_of_cons.
Qed.

Lemma convert_loop_inv graph rule_graph rule_graph' :
  convert_loop graph rule_graph = inr rule_graph' →
  NoDup (declared graph)
  ∧ (∀ n, n ∈ declared graph → rule_graph !! n = None)
  ∧ (∀ n rule, rule_graph' !! n = Some rule ↔
       ((n ∉ declared graph) ∧ rule_graph !! n = Some rule)
       ∨ ∃ products producer, (products, producer) ∈ graph
           ∧ n ∈ product_names products
           ∧ _make_rule products producer = inr rule).
Proof.
  revert rule_graph. induction graph as [|[products producer] graph IH];
    intros rule_graph; simpl.
  - intros [= <-]. split_and!; [constructor|by intros n ?%elem_of_nil|].
    intros n rule. split.
    + intros Hn. left. split; [by intros ?%elem_of_nil|done].
    + intros [[_ Hn]|(? & ? & ?%elem_of_nil & _)]; done.
  - destruct (_make_rule products producer) as [e|rule0] eqn:Hmk; simpl; [done|].
    destruct (add_products rule0 (product_names products) rule_graph)
      as [e|rule_graph1] eqn:Hadd; simpl; [done|].
    apply add_products_inv in Hadd as (Hnd0 & Hfresh0 & Hlook0).
    intros (Hnd & Hfresh & Hlook)%IH.
    unfold declared in *. simpl.
    split_and!.
    + apply NoDup_app. split_and!; [done| |done].
      intros n Hn Hn'. specialize (Hfresh _ Hn'). rewrite Hlook0 in Hfresh.
      by rewrite decide_True in Hfresh.
    + intros n [Hn|Hn]%elem_of_app; [by apply Hfresh0|].
      specialize (Hfresh _ Hn). rewrite Hlook0 in Hfresh. by case_decide.
    + intros n rule. rewrite Hlook, Hlook0. rewrite elem_of_app. split.
      * intros [[Hn Hr]|(ps & pr & Hin & Hn & Hr)].
        -- case_decide as Hn0.
           ++ right. exists products, producer. simplify_eq.
              split_and!; [by left|done|done].
           ++ left. split; [tauto|done].
        -- right. exists ps, pr. split_and!; [by right|done|done].
      * intros [[Hn Hr]|(ps & pr & Hin & Hn & Hr)].
        -- left. split; [tauto|]. rewrite decide_False; [done|tauto].
        -- apply elem_of_cons in Hin as [Heq|Hin]; [|right; by exists ps, pr].
           simplify_eq. left. split.
           ++ intros Hn'. specialize (Hfresh _ Hn'). rewrite Hlook0 in Hfresh.
              by rewrite decide_True in Hfresh.
           ++ rewrite decide_True by done. congruence.
Qed.

Lemma NoDup_concat_unique {A} (ls : list (list A)) i j l1 l2 x :
  NoDup (concat ls) → ls !! i = Some l1 → ls !! j = Some l2 →
  x ∈ l1 → x ∈ l2 → i = j.
Proof.
  revert i j. induction ls as [|l ls IH]; intros i j Hnd Hi Hj H1 H2; [done|].
  simpl in Hnd. apply NoDup_app in Hnd as (_ & Hdisj & Hnd).
  assert (Hrest : ∀ k l', ls !! k = Some l' → x ∈ l' → x ∈ concat ls).
  { intros k l' Hk Hx. apply list_elem_of_In, in_concat. exists l'.
    split; apply list_elem_of_In; [by eapply list_elem_of_lookup_2|done]. }
  destruct i as [|i], j as [|j]; simpl in *; simplify_eq; [done| | |].
  - exfalso. by eapply Hdisj, Hrest.
  - exfalso. by eapply Hdisj, Hrest.
  - f_equal. by eapply IH.
Qed.

Lemma edge_nodes g n p :
  edge g n p → n ∈ sorter_nodes g ∧ p ∈ sorter_nodes g.
Proof.
  unfold edge, preds, sorter_nodes. intros Hp.
  destruct (g !! n) as [l|] eqn:Hn; simpl in Hp; [|by apply elem_of_nil in Hp].
  rewrite !elem_of_elements, !elem_of_union, !elem_of_list_to_set. split.
  - left. apply elem_of_dom. by eexists.
  - right. apply list_elem_of_In, in_concat. exists l.
    split; apply list_elem_of_In; [|done].
    apply list_elem_of_fmap. exists (n, l). split; [done|].
    by apply elem_of_map_to_list.
Qed.

Lemma ordered_nil g : ordered g [].
Proof. intros i n Hi. done. Qed.

Lemma ordered_app g done group :
  ordered g done → (∀ n, n ∈ group → ready g done n) →
  ordered g (done ++ group).
Proof.
  intros Hord Hready i n Hi. destruct (decide (i < length done)%nat) as [Hlt|Hge].
  - rewrite lookup_app_l in Hi by done. rewrite take_app_le by lia.
    by apply Hord.
  - rewrite lookup_app_r in Hi by lia.
    apply list_elem_of_lookup_2, Hready in Hi.
    eapply Forall_impl; [exact Hi|]. intros p Hp. simpl.
    rewrite take_app_ge by lia. apply elem_of_app. by left.
Qed.

Lemma kahn_inv g rounds todo done todo' done' :
  kahn rounds g todo done = (todo', done') →
  ordered g done →
  ordered g done' ∧ done' ++ todo' ≡ₚ done ++ todo.
Proof.
  revert todo done. induction rounds as [|rounds IH]; intros todo done; simpl.
  - intros [= <- <-]. done.
  - intros Hk Hord. apply IH in Hk as [Hord' Hperm].
    + split; [done|]. rewrite Hperm, <- app_assoc.
      by rewrite filter_app_complement.
    + apply ordered_app; [done|]. by intros n [? _]%list_elem_of_filter.
Qed.

Lemma static_order_sound g order :
  static_order g = inr order →
  order ≡ₚ sorter_nodes g ∧ NoDup order ∧ ordered g order.
Proof.
  unfold static_order.
  destruct (kahn _ g _ []) as [todo done] eqn:Hk.
  destruct todo as [|? ?]; [|done]. intros [= <-].
  apply kahn_inv in Hk as [Hord Hperm]; [|apply ordered_nil].
  rewrite app_nil_r in Hperm. simpl in Hperm. split_and!; [done| |done].
  rewrite Hperm. unfold sorter_nodes. apply NoDup_elements.
Qed.

(** A sorted graph has no cycle: along every chain of predecessors the
    position in the order goes down. *)
Lemma ordered_tc g l i n m :
  ordered g l → l !! i = Some n → tc (edge g) n m →
  ∃ j, l !! j = Some m ∧ (j < i)%nat.
Proof.
  intros Hord Hi Htc. revert i Hi.
  induction Htc as [n m Hnm|n k m Hnk Hkm IH]; intros i Hi.
  - pose proof (Hord i n Hi) as Hall. rewrite Forall_forall in Hall.
    by apply Hall, elem_of_take in Hnm.
  - pose proof (Hord i n Hi) as Hall. rewrite Forall_forall in Hall.
    apply Hall, elem_of_take in Hnk as (j & Hj & Hlt).
    destruct (IH j Hj) as (j' & Hj' & Hlt'). exists j'. split; [done|lia].
Qed.

Lemma ordered_acyclic g l n :
  NoDup l → ordered g l → n ∈ l → ¬ tc (edge g) n n.
Proof.
  intros Hnd Hord [i Hi]%list_elem_of_lookup Htc.
  destruct (ordered_tc g l i n n Hord Hi Htc) as (j & Hj & Hlt).
  pose proof (NoDup_lookup l i j n Hnd Hi Hj). lia.
Qed.

(** The sorter raises [CycleError] for a graph with a cycle. *)
Lemma static_order_cycle g n :
  tc (edge g) n n → static_order g = inl CycleError.
Proof.
  intros Htc. destruct (static_order g) as [e|order] eqn:Hso.
  - unfold static_order in Hso. destruct (kahn _ g _ []) as [[|??] ?]; [done|].
    by injection Hso as <-.
  - apply static_order_sound in Hso as (Hperm & Hnd & Hord).
    exfalso. eapply (ordered_acyclic g order n); [done..| |done].
    rewrite Hperm.
    assert (∃ m, edge g n m) as [m Hm] by (inversion Htc; eauto).
    by apply edge_nodes in Hm as [? _].
Qed.

Lemma tc_edge_nodes g n m : tc (edge g) n m → m ∈ sorter_nodes g.
Proof.
  induction 1 as [n m Hnm|n k m _ _ IH]; [|done].
  by apply edge_nodes in Hnm as [_ ?].
Qed.

(** In a graph without cycle, some node that is still to do is ready. *)
Lemma kahn_progress g todo done :
  (∀ n, ¬ tc (edge g) n n) →
  (∀ n, n ∈ sorter_nodes g → n ∈ done ∨ n ∈ todo) →
  todo ≠ [] →
  ∃ n, n ∈ todo ∧ ready g done n.
Proof.
  intros Hacyc Hcover Htodo.
  destruct todo as [|n0 todo0] eqn:Htd; [done|]. rewrite <- Htd in *.
  assert (Hn0 : n0 ∈ todo) by (rewrite Htd; by left). clear Htd Htodo.
  assert (Hsn : sn (edge g) n0).
  { apply tc_finite_sn.
    - intros n. apply Hacyc.
    - exists (sorter_nodes g). intros m. apply tc_edge_nodes. }
  induction Hsn as [n _ IH].
  destruct (decide (ready g done n)) as [Hr|Hr]; [by exists n|].
  apply not_Forall_Exists in Hr; [|apply _].
  apply Exists_exists in Hr as (p & Hp & Hpdone).
  apply (IH p); [exact Hp|].
  destruct (Hcover p) as [?|?]; [|done..].
  by apply (edge_nodes g n p) in Hp as [_ ?].
Qed.

Lemma kahn_complete g rounds todo done :
  (∀ n, ¬ tc (edge g) n n) →
  (∀ n, n ∈ sorter_nodes g → n ∈ done ∨ n ∈ todo) →
  (length todo ≤ rounds)%nat →
  (kahn rounds g todo done).1 = [].
Proof.
  intros Hacyc. revert todo done.
  induction rounds as [|rounds IH]; intros todo done Hcover Hlen; simpl.
  - destruct todo; [done|simpl in Hlen; lia].
  - apply IH.
    + intros n Hn. rewrite elem_of_app, !list_elem_of_filter.
      destruct (Hcover n Hn) as [?|?]; [tauto|].
      destruct (decide (ready g done n)); tauto.
    + destruct (decide (todo = [])) as [->|Hne]; [simpl; lia|].
      destruct (kahn_progress g todo done Hacyc Hcover Hne) as (n & Hn & Hr).
      assert (length (filter (λ n, ¬ ready g done n) todo) < length todo)%nat; [|lia].
      eapply length_filter_lt; [exact Hn|]. tauto.
Qed.

(** The sorter returns an order for every graph without cycle. *)
Lemma static_order_complete g :
  (∀ n, ¬ tc (edge g) n n) → ∃ order, static_order g = inr order.
Proof.
  intros Hacyc. unfold static_order.
  pose proof (kahn_complete g (length (sorter_nodes g)) (sorter_nodes g) []
                Hacyc ltac:(tauto) ltac:(lia)) as Hk.
  destruct (kahn _ g _ []) as [todo done]. simpl in Hk. subst todo.
  by eexists.
Qed.

Lemma subgraph_loop_mono fuel fuel' graph data sub pending r :
  subgraph_loop fuel graph data sub pending = Some r →
  (fuel ≤ fuel')%nat →
  subgraph_loop fuel' graph data sub pending = Some r.
Proof.
  revert fuel' sub pending. induction fuel as [|fuel IH];
    intros fuel' sub pending Hloop Hle.
  - destruct pending; [|done]. by destruct fuel'.
  - destruct fuel' as [|fuel']; [lia|].
    destruct pending as [|out_name pending]; [done|]. simpl in *.
    case_bool_decide; [apply IH; [done|lia]|].
    destruct (_rule_for graph out_name data); [done|].
    apply IH; [done|lia].
Qed.

Lemma subgraph_loop_inv fuel graph data sub pending sub' :
  subgraph_loop fuel graph data sub pending = Some (inr sub') →
  resolved graph data sub →
  (∀ n rule d, sub !! n = Some rule → d ∈ dependencies rule →
     is_Some (sub !! d) ∨ d ∈ pending) →
  resolved graph data sub' ∧ closed sub'
  ∧ (∀ n, n ∈ pending → is_Some (sub' !! n))
  ∧ sub ⊆ sub'.
Proof.
  revert sub pending. induction fuel as [|fuel IH]; intros sub pending Hloop Hres Hdeps.
  - destruct pending; [|done]. simpl in Hloop. simplify_eq.
    split_and!; [done| |by intros n ?%elem_of_nil|done].
    intros n rule d Hn Hd. destruct (Hdeps n rule d Hn Hd) as [?|?%elem_of_nil]; done.
  - destruct pending as [|out_name pending]; simpl in Hloop.
    { simplify_eq. split_and!; [done| |by intros n ?%elem_of_nil|done].
      intros n rule d Hn Hd.
      destruct (Hdeps n rule d Hn Hd) as [?|?%elem_of_nil]; done. }
    case_bool_decide as Hin.
    + apply IH in Hloop as (Hres' & Hcl & Hpend & Hsub); [|done|].
      * split_and!; [done|done| |done].
        intros n [->|Hn]%elem_of_cons; [|by apply Hpend].
        destruct Hin as [rule Hrule]. exists rule.
        by eapply lookup_weaken.
      * intros n rule d Hn Hd.
        destruct (Hdeps n rule d Hn Hd) as [?|[->|?]%elem_of_cons]; auto.
    + apply eq_None_not_Some in Hin.
      destruct (_rule_for graph out_name data) as [e|rule0] eqn:Hrule; [done|].
      apply IH in Hloop as (Hres' & Hcl & Hpend & Hsub).
      * split_and!; [done|done| |].
        -- intros n [->|Hn]%elem_of_cons.
           ++ exists rule0. eapply lookup_weaken; [|done]. apply lookup_insert_eq.
           ++ apply Hpend, elem_of_app. by right.
        -- etrans; [|done]. by apply insert_subseteq.
      * intros n rule. rewrite lookup_insert. case_decide; [|by apply Hres].
        intros [= <-]. by subst.
      * intros n rule d. rewrite lookup_insert. case_decide as Hn.
        -- intros [= <-] Hd. right. apply elem_of_app. left.
           by apply elem_of_reverse.
        -- intros Hrule' Hd. rewrite lookup_insert.
           destruct (Hdeps n rule d Hrule' Hd) as [?|[->|?]%elem_of_cons].
           ++ left. by case_decide.
           ++ left. by rewrite decide_True.
           ++ right. apply elem_of_app. by right.
Qed.

Lemma rule_for_resolvable graph data n rule :
  _rule_for graph n data = inr rule → n ∈ resolvable graph data.
Proof.
  unfold _rule_for, _is_meta_data, resolvable.
  destruct (bool_decide (n ∈ meta data)) eqn:Hm.
  { apply bool_decide_eq_true in Hm. set_solver. }
  destruct (bins_meta data) as [m|]; simpl.
  - destruct (bool_decide (n ∈ m)) eqn:Hb.
    { apply bool_decide_eq_true in Hb. set_solver. }
    destruct (graph !! n) eqn:Hg; [|done]. intros _.
    apply elem_of_union; left. apply elem_of_union; left.
    apply elem_of_dom. by eexists.
  - destruct (graph !! n) eqn:Hg; [|done]. intros _.
    apply elem_of_union; left. apply elem_of_union; left.
    apply elem_of_dom. by eexists.
Qed.

(** The loop of [Graph.subgraph] finishes: it returns the subgraph or
    raises. *)
Lemma subgraph_loop_terminates graph data sub pending :
  ∃ fuel r, subgraph_loop fuel graph data sub pending = Some r.
Proof.
  remember (size (resolvable graph data ∖ dom sub)) as k eqn:Hk.
  revert sub pending Hk.
  induction (lt_wf k) as [k _ IHk]. intros sub pending Hk.
  induction pending as [|out_name pending IHp].
  - by exists O, (ok sub).
  - destruct IHp as (fuel & r & Hloop).
    destruct (decide (is_Some (sub !! out_name))) as [Hin|Hin].
    { exists (S fuel), r. simpl. by rewrite bool_decide_eq_true_2. }
    destruct (_rule_for graph out_name data) as [e|rule] eqn:Hrule.
    { exists 1%nat, (raise e). simpl.
      rewrite bool_decide_eq_false_2 by done. by rewrite Hrule. }
    destruct (IHk (size (resolvable graph data ∖ dom (<[out_name := rule]> sub))))
      with (sub := <[out_name := rule]> sub)
           (pending := reverse (dependencies rule) ++ pending)
      as (fuel' & r' & Hloop'); [|done|].
    { subst k. apply subset_size.
      apply rule_for_resolvable in Hrule.
      assert (out_name ∉ dom sub) by (by rewrite elem_of_dom).
      rewrite dom_insert_L. set_solver. }
    exists (S fuel'), r'. simpl.
    rewrite bool_decide_eq_false_2 by done. by rewrite Hrule.
Qed.

(** ** The rule sequence *)

Lemma preds_dependencies (rules : gmap string _Rule) n rule :
  rules !! n = Some rule → preds (dependencies <$> rules) n = dependencies rule.
Proof. intros Hn. unfold preds. by rewrite lookup_fmap, Hn. Qed.

Lemma dependencies_first_snoc rules rule :
  dependencies_first rules →
  (∀ d, d ∈ dependencies rule → ∃ rule', rule' ∈ rules ∧ d ∈ out_names rule') →
  dependencies_first (rules ++ [rule]).
Proof.
  intros Hfirst Hnew i r d Hi Hd.
  destruct (decide (i < length rules)%nat) as [Hlt|Hge].
  - rewrite lookup_app_l in Hi by done.
    destruct (Hfirst i r d Hi Hd) as (j & r' & Hj & Hr' & Hout).
    exists j, r'. split_and!; [done| |done]. rewrite lookup_app_l; [done|lia].
  - rewrite lookup_app_r in Hi by lia.
    apply list_lookup_singleton_Some in Hi as [Hi <-].
    destruct (Hnew d Hd) as (r' & [j Hj]%list_elem_of_lookup & Hout).
    pose proof (lookup_lt_Some _ _ _ Hj).
    exists j, r'. split_and!; [lia| |done]. by rewrite lookup_app_l.
Qed.

(** The loop keeps the first occurrence of every rule, in the order of the
    names. [pre] are the names already seen. *)
Lemma non_duplicate_loop_spec (rules : gmap string _Rule) order :
  ∀ pre already_used result,
    ordered (dependencies <$> rules) (pre ++ order) →
    (∀ n, n ∈ pre ++ order → is_Some (rules !! n)) →
    (∀ n rule, rules !! n = Some rule → n ∈ out_names rule) →
    (∀ rule, rule ∈ already_used ↔ rule ∈ result) →
    NoDup result →
    (∀ rule, rule ∈ result ↔ ∃ n, n ∈ pre ∧ rules !! n = Some rule) →
    dependencies_first result →
    ∃ seq, non_duplicate_loop rules order already_used result = inr seq
      ∧ NoDup seq
      ∧ (∀ rule, rule ∈ seq ↔ ∃ n, n ∈ pre ++ order ∧ rules !! n = Some rule)
      ∧ dependencies_first seq.
Proof.
  induction order as [|n order IH];
    intros pre used result Hord Hall Hwf Hused Hnd Hmem Hfirst.
  - exists result. rewrite app_nil_r. done.
  - simpl. destruct (Hall n) as [rule Hrule]; [apply elem_of_app; right; by left|].
    rewrite Hrule.
    replace (pre ++ n :: order) with ((pre ++ [n]) ++ order) in *
      by (by rewrite <- app_assoc).
    case_bool_decide as Hin.
    + apply IH; [done..| |done].
      intros r. rewrite Hmem. split.
      * intros (m & Hm & Hr). exists m. split; [apply elem_of_app; by left|done].
      * intros (m & [Hm|Hm%list_elem_of_singleton]%elem_of_app & Hr).
        -- by exists m.
        -- subst m. rewrite Hrule in Hr. injection Hr as <-.
           by apply Hmem, Hused.
    + apply IH; [done..| | | |].
      * intros r. rewrite elem_of_cons, elem_of_app, list_elem_of_singleton, Hused.
        tauto.
      * apply NoDup_app. split_and!; [done| |apply NoDup_singleton].
        intros r Hr ->%list_elem_of_singleton. by apply Hin, Hused.
      * intros r. rewrite elem_of_app, list_elem_of_singleton, Hmem. split.
        -- intros [(m & Hm & Hr)| ->].
           ++ exists m. split; [apply elem_of_app; by left|done].
           ++ exists n. split; [apply elem_of_app; right; by left|done].
        -- intros (m & [Hm|Hm%list_elem_of_singleton]%elem_of_app & Hr).
           ++ left. by exists m.
           ++ right. subst m. congruence.
      * apply dependencies_first_snoc; [done|].
        intros d Hd.
        assert (Hi : ((pre ++ [n]) ++ order) !! length pre = Some n).
        { rewrite <- app_assoc. simpl. by apply list_lookup_middle. }
        pose proof (Hord _ _ Hi) as Hpreds.
        rewrite (preds_dependencies _ _ _ Hrule), Forall_forall in Hpreds.
        specialize (Hpreds d Hd).
        rewrite <- app_assoc, take_app_length in Hpreds.
        destruct (Hall d) as [rule' Hrule'];
          [rewrite <- app_assoc; apply elem_of_app; by left|].
        exists rule'. split; [|by eapply Hwf].
        apply Hmem. by exists d.
Qed.

Lemma edge_depends (rules : gmap string _Rule) n p :
  edge (dependencies <$> rules) n p ↔ depends rules n p.
Proof.
  unfold edge, depends, preds. rewrite lookup_fmap.
  destruct (rules !! n) as [rule|]; simpl.
  - split; [intros ?; by exists rule|]. by intros (? & [= <-] & ?).
  - split; [by intros ?%elem_of_nil|]. by intros (? & ? & ?).
Qed.

Lemma sorter_nodes_closed (rules : gmap string _Rule) n :
  closed rules → n ∈ sorter_nodes (dependencies <$> rules) ↔ is_Some (rules !! n).
Proof.
  intros Hcl. unfold sorter_nodes.
  rewrite elem_of_elements, elem_of_union, elem_of_dom, lookup_fmap, fmap_is_Some.
  split; [|by left]. intros [?|Hn]; [done|].
  apply elem_of_list_to_set, list_elem_of_In, in_concat in Hn as (l & Hl & Hn).
  apply list_elem_of_In, list_elem_of_fmap in Hl as ([m l'] & -> & Hm).
  apply elem_of_map_to_list in Hm. rewrite lookup_fmap in Hm.
  destruct (rules !! m) as [rule|] eqn:Hrule; simplify_eq/=.
  eapply Hcl; [done|]. by apply list_elem_of_In.
Qed.

(** [_non_duplicate_rules] on a closed map of rules whose dependencies have
    no cycle. *)
Lemma non_duplicate_rules_spec (rules : gmap string _Rule) :
  closed rules →
  (∀ n rule, rules !! n = Some rule → n ∈ out_names rule) →
  acyclic rules →
  ∃ seq, _non_duplicate_rules rules = inr seq
    ∧ NoDup seq
    ∧ (∀ rule, rule ∈ seq ↔ ∃ n, rules !! n = Some rule)
    ∧ dependencies_first seq.
Proof.
  intros Hcl Hwf Hacyc. unfold _non_duplicate_rules, _sort_topologically.
  destruct (static_order_complete (dependencies <$> rules)) as [order Horder].
  { intros n Htc. apply (Hacyc n). eapply tc_congruence with (f := id); [|done].
    intros ??. apply edge_depends. }
  rewrite Horder. simpl.
  apply static_order_sound in Horder as (Hperm & Hnd & Hord).
  assert (Hall : ∀ n, n ∈ [] ++ order → is_Some (rules !! n)).
  { intros n Hn. apply sorter_nodes_closed; [done|]. by rewrite <- Hperm. }
  assert (Hmem0 : ∀ rule : _Rule,
            rule ∈ [] ↔ ∃ n, n ∈ @nil string ∧ rules !! n = Some rule).
  { intros rule. split; [by intros ?%elem_of_nil|].
    by intros (? & ?%elem_of_nil & _). }
  assert (Hfirst0 : dependencies_first []) by (by intros i rule d Hi).
  destruct (non_duplicate_loop_spec rules order [] [] [] Hord Hall Hwf
              ltac:(done) (NoDup_nil_2) Hmem0 Hfirst0)
    as (seq & Hseq & Hnd' & Hmem & Hfirst).
  exists seq. split_and!; [done|done| |done].
  intros rule. rewrite Hmem. simpl. split.
  - intros (n & _ & Hn). by exists n.
  - intros (n & Hn). exists n. split; [|done].
    rewrite Hperm. apply sorter_nodes_closed; [done|by eexists].
Qed.

Lemma convert_out_names graph rule_graph n rule :
  _convert_to_rule_graph graph = inr rule_graph →
  rule_graph !! n = Some rule → n ∈ out_names rule.
Proof.
  intros (_ & _ & Hlook)%convert_loop_inv Hn.
  apply Hlook in Hn as [[_ ?]|(ps & pr & _ & Hin & Hmk)]; [done|].
  by rewrite (make_rule_out_names _ _ _ Hmk).
Qed.

Lemma rule_for_inv graph data n rule :
  _rule_for graph n data = inr rule →
  (_is_meta_data n data = true ∧ rule = _FetchRule [n])
  ∨ (_is_meta_data n data = false ∧ graph !! n = Some rule).
Proof.
  unfold _rule_for. destruct (_is_meta_data n data).
  - intros [= <-]. by left.
  - destruct (graph !! n); [|done]. intros [= <-]. by right.
Qed.

Lemma resolved_depends graph data sub n p :
  resolved graph data sub → depends sub n p → depends graph n p.
Proof.
  intros Hres (rule & Hn & Hp).
  apply Hres, rule_for_inv in Hn as [[_ ->]|[_ Hn]].
  - by apply elem_of_nil in Hp.
  - by exists rule.
Qed.

Lemma subgraph_inv fuel graph data targets sub :
  subgraph fuel graph data targets = Some (inr sub) →
  resolved graph data sub ∧ closed sub
  ∧ ∀ t, t ∈ targets → is_Some (sub !! t).
Proof.
  intros Hsub. apply subgraph_loop_inv in Hsub as (Hres & Hcl & Hpend & _).
  - split_and!; [done..|]. intros t Ht. by apply Hpend, elem_of_reverse.
  - by intros n rule Hn.
  - by intros n rule d Hn.
Qed.

(** [Graph.subgraph] raises no other error than the Coordinate-not-found
    error of [_rule_for]. *)
Lemma subgraph_loop_error fuel graph data sub pending e :
  subgraph_loop fuel graph data sub pending = Some (inl e) →
  ∃ n, e = CoordError n ∧ _rule_for graph n data = inl (CoordError n).
Proof.
  revert sub pending. induction fuel as [|fuel IH]; intros sub pending.
  - by destruct pending.
  - destruct pending as [|out_name pending]; [done|]. simpl.
    case_bool_decide; [apply IH|].
    destruct (_rule_for graph out_name data) as [e'|rule] eqn:Hrule; [|apply IH].
    intros [= ->]. assert (He : e = CoordError out_name).
    { unfold _rule_for in Hrule.
      destruct (_is_meta_data out_name data); [done|].
      destruct (graph !! out_name); [done|]. by injection Hrule as <-. }
    exists out_name. by rewrite <- He.
Qed.

(** A map of rules that the sorter can sort has no cycle. *)
Lemma sorted_acyclic (rules : gmap string _Rule) order :
  _sort_topologically rules = inr order → acyclic rules.
Proof.
  intros Hso n Htc. unfold _sort_topologically in Hso.
  assert (Htc' : tc (edge (dependencies <$> rules)) n n).
  { eapply tc_congruence with (f := id); [|done]. intros ??. by apply edge_depends. }
  by rewrite (static_order_cycle _ n Htc') in Hso.
Qed.

End Rules.

Arguments _Rule : clear implicits.
Arguments Producer : clear implicits.

(** The signatures of some callables, named by strings. *)
Definition ex_argspec (func : string) : ArgSpec :=
  if decide (func = "f") then mkArgSpec ["x"; "y"] None None []
  else if decide (func = "g") then mkArgSpec ["a"] None None []
  else mkArgSpec [] (Some "args") None [].

Definition ex_graph : list (Products * Producer string) :=
  [(PName "a", PFunc "f"); (PTuple ["b"; "c"], PFunc "g"); (PName "d", PStr "c")].

Definition ex_graph_duplicate : list (Products * Producer string) :=
  [(PName "a", PFunc "f"); (PTuple ["b"; "a"], PFunc "g")].

Definition ex_rule_graph : gmap string (_Rule string) :=
  match _convert_to_rule_graph ex_argspec ex_graph with
  | inr rule_graph => rule_graph
  | inl _ => ∅
  end.

(** A data array with the coordinates ["x"] and ["y"]. *)
Definition ex_data : Data := mkData {[ "x"; "y" ]} None.

(** Two renames of each other. *)
Definition ex_cyclic : gmap string (_Rule string) :=
  {[ "a" := _RenameRule ["a"] "b"; "b" := _RenameRule ["b"] "a" ]}.

Definition ex_no_data : Data := mkData ∅ None.

(** C9. When two items of a graph dict declare the same output name, the
    construction of the graph raises; in a graph that has been constructed,
    each name maps to the rule of the one item that declares it, and no other
    rule of the graph has the name among its outputs. *)
Theorem convert_rejects_duplicates {Func} `{EqDecision Func}
    (getfullargspec : Func → ArgSpec) (graph : list (Products * Producer Func)) :
  (∀ i j e1 e2 name,
     i ≠ j → graph !! i = Some e1 → graph !! j = Some e2 →
     name ∈ product_names e1.1 → name ∈ product_names e2.1 →
     ∃ err, _convert_to_rule_graph getfullargspec graph = inl err)
  ∧ (∀ rule_graph,
       _convert_to_rule_graph getfullargspec graph = inr rule_graph →
       ∀ name rule, rule_graph !! name = Some rule →
         name ∈ out_names rule
         ∧ (∃ i products producer,
              graph !! i = Some (products, producer)
              ∧ name ∈ product_names products
              ∧ _make_rule getfullargspec products producer = inr rule
              ∧ ∀ j e, graph !! j = Some e → name ∈ product_names e.1 → j = i)
         ∧ (∀ name' rule', rule_graph !! name' = Some rule' →
              name ∈ out_names rule' → rule' = rule)).
Proof.
  assert (Hunique : ∀ rule_graph,
            _convert_to_rule_graph getfullargspec graph = inr rule_graph →
            ∀ i j e1 e2 name, graph !! i = Some e1 → graph !! j = Some e2 →
              name ∈ product_names e1.1 → name ∈ product_names e2.1 → i = j).
  { intros rule_graph (Hnd & _ & _)%convert_loop_inv i j e1 e2 name Hi Hj H1 H2.
    apply (NoDup_concat_unique (product_names <$> graph.*1) i j
             (product_names e1.1) (product_names e2.1) name); [done| | |done..].
    - by rewrite !list_lookup_fmap, Hi.
    - by rewrite !list_lookup_fmap, Hj. }
  split.
  - intros i j e1 e2 name Hne Hi Hj H1 H2.
    destruct (_convert_to_rule_graph getfullargspec graph) as [err|rule_graph] eqn:Hc;
      [by exists err|].
    destruct Hne. by eapply Hunique.
  - intros rule_graph Hc.
    pose proof (convert_loop_inv _ _ _ _ Hc) as (_ & _ & Hlook).
    assert (Hentry : ∀ name rule, rule_graph !! name = Some rule →
              ∃ i products producer,
                graph !! i = Some (products, producer)
                ∧ name ∈ product_names products
                ∧ _make_rule getfullargspec products producer = inr rule).
    { intros name rule [[_ Hempty]|(ps & pr & Hin & Hn & Hmk)]%Hlook; [done|].
      apply list_elem_of_lookup in Hin as [i Hi]. by exists i, ps, pr. }
    intros name rule Hrule.
    destruct (Hentry _ _ Hrule) as (i & ps & pr & Hi & Hn & Hmk).
    pose proof (make_rule_out_names _ _ _ _ Hmk) as Hout.
    split_and!.
    + by rewrite Hout.
    + exists i, ps, pr. split_and!; [done..|].
      intros j e Hj Hname. by eapply (Hunique _ Hc j i e (ps, pr) name).
    + intros name' rule' Hrule' Hname.
      destruct (Hentry _ _ Hrule') as (i' & ps' & pr' & Hi' & Hn' & Hmk').
      rewrite (make_rule_out_names _ _ _ _ Hmk') in Hname.
      assert (i' = i) as ->
        by (by eapply (Hunique _ Hc i' i (ps', pr') (ps, pr) name)).
      congruence.
Qed.

Lemma convert_rejects_duplicates_witness :
  (∃ err, _convert_to_rule_graph ex_argspec ex_graph_duplicate = inl err)
  ∧ (∃ rule_graph, _convert_to_rule_graph ex_argspec ex_graph = inr rule_graph
       ∧ rule_graph !! "c" = Some (_ComputeRule ["b"; "c"] "g" ["a"])
       ∧ ∀ name' rule', rule_graph !! name' = Some rule' →
           "c" ∈ out_names rule' → rule' = _ComputeRule ["b"; "c"] "g" ["a"]).
Proof.
  split.
  - apply (proj1 (convert_rejects_duplicates ex_argspec ex_graph_duplicate)
             0%nat 1%nat (PName "a", PFunc "f") (PTuple ["b"; "a"], PFunc "g") "a").
    + lia.
    + reflexivity.
    + reflexivity.
    + simpl. apply list_elem_of_singleton. reflexivity.
    + simpl. apply elem_of_cons. right. apply list_elem_of_singleton. reflexivity.
  - destruct (_convert_to_rule_graph ex_argspec ex_graph) as [e|rule_graph] eqn:Hc;
      [vm_compute in Hc; discriminate|].
    exists rule_graph.
    assert (Hlook : rule_graph !! "c" = Some (_ComputeRule ["b"; "c"] "g" ["a"])).
    { vm_compute in Hc. injection Hc as <-. vm_compute. reflexivity. }
    split; [reflexivity|]. split; [exact Hlook|].
    apply (proj2 (convert_rejects_duplicates ex_argspec ex_graph) rule_graph Hc
             "c" _ Hlook).
Defined.

(** C5. For a graph without cycle, the subgraph for the targets is found in
    finitely many steps (or a name cannot be resolved). When it is found, the
    rule sequence is a list of distinct rules: each rule of the subgraph is in
    the list once, also when it produces several requested names, and each
    dependency of a rule in the list is an output of a rule at an earlier
    position. *)
Theorem rule_sequence_topological {Func} `{EqDecision Func}
    (getfullargspec : Func → ArgSpec) (graph_dict : list (Products * Producer Func))
    (graph : gmap string (_Rule Func)) (data : Data) (targets : list string) :
  _convert_to_rule_graph getfullargspec graph_dict = inr graph →
  acyclic graph →
  (∃ fuel r, subgraph fuel graph data targets = Some r)
  ∧ ∀ fuel sub, subgraph fuel graph data targets = Some (inr sub) →
      ∃ rules, rule_sequence_for fuel graph data targets = Some (inr rules)
        ∧ NoDup rules
        ∧ dependencies_first rules
        ∧ (∀ rule, rule ∈ rules ↔ ∃ n, sub !! n = Some rule)
        ∧ (∀ t, t ∈ targets →
             ∃ rule, rule ∈ rules ∧ sub !! t = Some rule ∧ t ∈ out_names rule).
Proof.
  intros Hgraph Hacyc. split; [apply subgraph_loop_terminates|].
  intros fuel sub Hsub.
  destruct (subgraph_inv _ _ _ _ _ Hsub) as (Hres & Hcl & Htargets).
  assert (Hwf : ∀ n rule, sub !! n = Some rule → n ∈ out_names rule).
  { intros n rule Hn. apply Hres, rule_for_inv in Hn as [[_ ->]|[_ Hn]].
    - simpl. by apply list_elem_of_singleton.
    - by eapply convert_out_names. }
  destruct (non_duplicate_rules_spec sub Hcl Hwf) as (rules & Hseq & Hnd & Hmem & Hfirst).
  { intros n Htc. apply (Hacyc n). eapply tc_congruence with (f := id); [|done].
    intros ??. by apply (resolved_depends graph data sub). }
  exists rules. split_and!; [|done..|].
  - unfold rule_sequence_for. rewrite Hsub. simpl. by rewrite Hseq.
  - intros t [rule Hrule]%Htargets. exists rule. split_and!; [|done|by eapply Hwf].
    apply Hmem. by exists t.
Qed.

Lemma ex_rule_graph_acyclic : acyclic ex_rule_graph.
Proof.
  eapply (sorted_acyclic ex_rule_graph). vm_compute. reflexivity.
Qed.

Lemma rule_sequence_topological_witness :
  ∃ rules,
    rule_sequence_for 20 ex_rule_graph ex_data ["d"; "b"] = Some (inr rules)
    ∧ rules = [_FetchRule ["y"]; _FetchRule ["x"]; _ComputeRule ["a"] "f" ["x"; "y"];
               _ComputeRule ["b"; "c"] "g" ["a"]; _RenameRule ["d"] "c"]
    ∧ NoDup rules ∧ dependencies_first rules.
Proof.
  assert (Hgraph : _convert_to_rule_graph ex_argspec ex_graph = inr ex_rule_graph)
    by (vm_compute; reflexivity).
  destruct (subgraph 20 ex_rule_graph ex_data ["d"; "b"]) as [[e|sub]|] eqn:Hsub;
    [vm_compute in Hsub; discriminate| |vm_compute in Hsub; discriminate].
  destruct (proj2 (rule_sequence_topological ex_argspec ex_graph ex_rule_graph
                     ex_data ["d"; "b"] Hgraph ex_rule_graph_acyclic) 20%nat sub Hsub)
    as (rules & Hseq & Hnd & Hfirst & _).
  exists rules. split; [exact Hseq|]. split; [|split; [exact Hnd|exact Hfirst]].
  vm_compute in Hseq. congruence.
Defined.

(** C4 fails when a target cannot be resolved: with the targets [a] and [z]
    and no rule for [z], the error is the Coordinate-not-found error for
    [z]. *)
Lemma cycle_hidden_by_missing_coordinate :
  ex_cyclic !! "a" = Some (_RenameRule ["a"] "b")
  ∧ ex_cyclic !! "b" = Some (_RenameRule ["b"] "a")
  ∧ _is_meta_data "a" ex_no_data = false
  ∧ _is_meta_data "b" ex_no_data = false
  ∧ "a" ∈ ["a"; "z"]
  ∧ rule_sequence_for 20 ex_cyclic ex_no_data ["a"; "z"]
    = Some (inl (CoordError "z")).
Proof.
  split_and!; [vm_compute; reflexivity..| |vm_compute; reflexivity].
  apply elem_of_cons. by left.
Qed.

End RuleGraph.

(* ===================================================================== *)
(** * Part IV: evaluation of compute rules ([coords.py])                   *)
(* ===================================================================== *)

Module Evaluate.

Import WriteBack.

(** The exceptions of rule evaluation; [FuncError] is an exception raised
    by the user function. *)
Inductive Exn := KeyError (name : string) | TypeError | NameError | FuncError.

Abbreviation res := (result Exn).

Section Compute.

Context {Func Var : Type}.

(** [var.bins is not None] *)
Variable is_binned : Var → bool.

(** A user function returns a variable or a dict of variables. *)
Inductive Output := Single (var : Var) | Dict (vars : gmap string Var).

(** The keyword arguments of a call; a value can be Python's [None]. *)
Abbreviation Kwargs := (gmap string (option Var)).

(** The call of a function with keyword arguments. *)
Variable call : Func → Kwargs → res Output.

(** [_Coord] *)
Record _Coord := mkCoord {
  dense : option Var;
  event : option Var;
  destination : Destination;
}.

Definition has_dense (c : _Coord) : bool := bool_decide (is_Some (dense c)).
Definition has_event (c : _Coord) : bool := bool_decide (is_Some (event c)).

(** The state of an evaluation: the coordinates computed so far, whose
    destinations a rule changes in place, and the calls of user functions
    made so far. *)
Record State := mkState {
  coords : gmap string _Coord;
  calls : list (Func * Kwargs);
}.

(** [_Rule._consume_coord]: the coordinate of the table becomes an attribute;
    the same object is returned. *)
Definition _consume_coord (name : string) (coords : gmap string _Coord)
    : res (_Coord * gmap string _Coord) :=
  match coords !! name with
  | None => raise (KeyError name)
  | Some c =>
      let c := mkCoord (dense c) (event c) attr in
      ok (c, <[name := c]> coords)
  end.

(** [{name: self._consume_coord(name, coords) for name in self._arg_names}] *)
Fixpoint consume_inputs (arg_names : list string) (inputs : gmap string _Coord)
    (coords : gmap string _Coord)
    : res (gmap string _Coord * gmap string _Coord) :=
  match arg_names with
  | [] => ok (inputs, coords)
  | name :: arg_names =>
      cc ← _consume_coord name coords;
      consume_inputs arg_names (<[name := cc.1]> inputs) cc.2
  end.

(** A call of the user function, recorded in the state. *)
Definition call_func (func : Func) (kwargs : Kwargs) (calls : list (Func * Kwargs))
    : res (Output * list (Func * Kwargs)) :=
  out ← call func kwargs;
  ok (out, calls ++ [(func, kwargs)]).

(** [_ComputeRule._to_dict] *)
Definition _to_dict (out_names : list string) (output : Output) : res (gmap string Var) :=
  match output with
  | Dict vars => ok vars
  | Single var =>
      match out_names with
      | [name] => ok {[ name := var ]}
      | _ => raise TypeError
      end
  end.

(** [_ComputeRule._without_unrequested] *)
Definition _without_unrequested {A} (out_names : list string) (d : gmap string A)
    : gmap string A :=
  filter (λ kv, kv.1 ∈ out_names) d.

(** [_ComputeRule._compute_pure_dense] *)
Definition _compute_pure_dense (out_names : list string) (func : Func)
    (inputs : gmap string _Coord) (calls : list (Func * Kwargs))
    : res (gmap string _Coord * list (Func * Kwargs)) :=
  oc ← call_func func (dense <$> inputs) calls;
  outputs ← _to_dict out_names oc.1;
  ok ((λ var, mkCoord (Some var) None coord) <$> outputs, oc.2).

(** [_ComputeRule._compute_with_events] *)
Definition _compute_with_events (out_names : list string) (func : Func)
    (inputs : gmap string _Coord) (calls : list (Func * Kwargs))
    : res (gmap string _Coord * list (Func * Kwargs)) :=
  let args := (λ c, if has_event c then event c else dense c) <$> inputs in
  oc ← call_func func args calls;
  outputs ← _to_dict out_names oc.1;
  (* Dense outputs may be produced as side effects of processing event
     coords. *)
  ok ((λ var, mkCoord (if is_binned var then None else Some var)
                      (if is_binned var then Some var else None) coord)
        <$> outputs, oc.2).

(** [any(coord.has_event for coord in inputs.values())] *)
Definition any_has_event (inputs : gmap string _Coord) : bool :=
  existsb (λ kv, has_event kv.2) (map_to_list inputs).

(** [_ComputeRule.__call__] of the rule with outputs [out_names], function
    [func] and argument names [arg_names]. *)
Definition compute_rule_call (out_names : list string) (func : Func)
    (arg_names : list string) (st : State) : res (gmap string _Coord * State) :=
  ic ← consume_inputs arg_names ∅ (coords st);
  oc ← (if negb (any_has_event ic.1)
        then _compute_pure_dense out_names func ic.1 (calls st)
        else _compute_with_events out_names func ic.1 (calls st));
  ok (_without_unrequested out_names oc.1, mkState ic.2 oc.2).

(** ** The evaluation of [CoordTransform._compute_coord]

    [args] are the pairs (dense, event) that [_get_coord] has returned for
    the argument names. *)

(** [_call_function] *)
Definition _call_function (func : Func) (args : Kwargs) (out_name : string)
    (calls : list (Func * Kwargs)) : res (gmap string Var * list (Func * Kwargs)) :=
  oc ← call_func func args calls;
  match oc.1 with
  | Single var => ok ({[ out_name := var ]}, oc.2)
  | Dict vars => ok (vars, oc.2)
  end.

(** The loop over [list(out_bins.keys())]: a result that is not binned moves
    from [out_bins] to [out]. When [out] has the name already, the code
    asserts [identical(out[name], coord)]; the module neither imports nor
    defines [identical], and the call raises [NameError]. *)
Fixpoint move_dense (names : list string) (out out_bins : gmap string Var)
    : res (gmap string Var * gmap string Var) :=
  match names with
  | [] => ok (out, out_bins)
  | name :: names =>
      match out_bins !! name with
      | None => raise (KeyError name)
      | Some var =>
          if is_binned var then move_dense names out out_bins
          else
            let out_bins := delete name out_bins in
            match out !! name with
            | Some _ => raise NameError
            | None => move_dense names (<[name := var]> out) out_bins
            end
      end
  end.

(** [zip] of the two dicts, as the dict comprehension at the end of
    [_compute_coord] builds it. *)
Definition pair_up (out out_bins : gmap string Var)
    : gmap string (option Var * option Var) :=
  merge (λ d e, match d, e with
                | None, None => None
                | _, _ => Some (d, e)
                end) out out_bins.

(** [_compute_coord], from [have_all_dense_inputs] on. *)
Definition _compute_coord (func : Func) (args : gmap string (option Var * option Var))
    (name : string) (calls : list (Func * Kwargs))
    : res (gmap string (option Var * option Var) * list (Func * Kwargs)) :=
  let have_all_dense_inputs :=
    forallb (λ kv, bool_decide (is_Some kv.2.1)) (map_to_list args) in
  oc ← (if have_all_dense_inputs
        then _call_function func (fst <$> args) name calls
        else ok (∅, calls));
  let have_event_inputs :=
    existsb (λ kv, bool_decide (is_Some kv.2.2)) (map_to_list args) in
  if have_event_inputs then
    let event_args :=
      (λ v : option Var * option Var, if bool_decide (is_Some v.2) then v.2 else v.1)
        <$> args in
    bc ← _call_function func event_args name oc.2;
    oo ← move_dense (map_to_list bc.1).*1 oc.1 bc.1;
    ok (pair_up oo.1 oo.2, bc.2)
  else ok (pair_up oc.1 ∅, oc.2).

(** ** Facts about the evaluation *)

(** The coordinate [c] after it has been consumed. *)
Definition consumed (c : _Coord) : _Coord := mkCoord (dense c) (event c) attr.

Lemma consume_inputs_spec arg_names :
  ∀ inputs coords inputs' coords',
    consume_inputs arg_names inputs coords = inr (inputs', coords') →
    (∀ n, n ∈ arg_names →
       ∃ c, coords !! n = Some c ∧ inputs' !! n = Some (consumed c))
    ∧ (∀ n, n ∉ arg_names → inputs' !! n = inputs !! n)
    ∧ (∀ n, coords' !! n
            = if decide (n ∈ arg_names) then consumed <$> coords !! n
              else coords !! n).
Proof.
  induction arg_names as [|name arg_names IH]; intros inputs coords inputs' coords'.
  - simpl. intros [= <- <-]. split_and!; [by intros n ?%elem_of_nil|done|done].
  - simpl. unfold _consume_coord at 1.
    destruct (coords !! name) as [c|] eqn:Hc; simpl; [|done].
    intros (Hin & Hout & Hcoords)%IH.
    assert (Hlook : ∀ n c', <[name := consumed c]> coords !! n = Some c' →
              ∃ c0, coords !! n = Some c0 ∧ consumed c' = consumed c0).
    { intros n c'. rewrite lookup_insert. case_decide as Hn.
      - intros [= <-]. subst n. by exists c.
      - intros ?. by exists c'. }
    split_and!.
    + intros n Hn. destruct (decide (n ∈ arg_names)) as [Hn'|Hn'].
      * destruct (Hin n Hn') as (c' & Hc' & Hi).
        destruct (Hlook _ _ Hc') as (c0 & Hc0 & Heq).
        exists c0. split; [done|]. by rewrite Hi, Heq.
      * apply elem_of_cons in Hn as [->|?]; [|done].
        exists c. split; [done|]. rewrite Hout by done. apply lookup_insert_eq.
    + intros n Hn. rewrite Hout by (intros ?; apply Hn; by right).
      apply lookup_insert_ne. intros ->. apply Hn. by left.
    + intros n. rewrite Hcoords.
      destruct (decide (n ∈ arg_names)) as [Hn|Hn].
      * rewrite decide_True by (by right). rewrite lookup_insert.
        case_decide; [subst n; by rewrite Hc|done].
      * rewrite lookup_insert. case_decide as Hn'.
        -- subst n. rewrite decide_True by (by left). by rewrite Hc.
        -- rewrite decide_False; [done|]. by intros [?|?]%elem_of_cons.
Qed.

Lemma any_has_event_true (inputs : gmap string _Coord) :
  any_has_event inputs = true ↔
  ∃ n c, inputs !! n = Some c ∧ is_Some (event c).
Proof.
  unfold any_has_event. rewrite existsb_exists. split.
  - intros ([n c] & Hin%list_elem_of_In%elem_of_map_to_list & He%bool_decide_eq_true).
    by exists n, c.
  - intros (n & c & Hn & He). exists (n, c). split.
    + by apply list_elem_of_In, elem_of_map_to_list.
    + by apply bool_decide_eq_true.
Qed.

Lemma lookup_without_unrequested {A} out_names (d : gmap string A) name :
  _without_unrequested out_names d !! name
  = if decide (name ∈ out_names) then d !! name else None.
Proof.
  unfold _without_unrequested. case_decide as Hn.
  - destruct (d !! name) as [x|] eqn:Hd.
    + by apply map_lookup_filter_Some.
    + apply map_lookup_filter_None. left. done.
  - apply map_lookup_filter_None. right. intros x _. done.
Qed.

End Compute.

Arguments Output : clear implicits.
Arguments _Coord : clear implicits.
Arguments State : clear implicits.

(** ** An example: variables are integers, binned or not *)

Definition ex_is_binned (var : bool * Z) : bool := var.1.

(** The function ["double"] doubles its argument [x]; ["double_n"] returns
    also the number of bins as ["n"], a dense value. *)
Definition ex_call (func : string) (kwargs : gmap string (option (bool * Z)))
    : res (Output (bool * Z)) :=
  match kwargs !! "x" with
  | Some (Some (binned, x)) =>
      if decide (func = "double") then ok (Single (binned, 2 * x))
      else ok (Dict {[ "y" := (binned, 2 * x); "n" := (false, 1) ]})
  | _ => raise FuncError
  end.

Definition ex_state : State string (bool * Z) :=
  mkState {[ "x" := mkCoord (Some (false, 3)) (Some (true, 3)) coord ]} [].

(** C3. A compute rule that returns has called the user function exactly
    once, with one argument per dependency: the rule runs the dense
    evaluation or the evaluation with events, never the two of them, so no
    output name is produced by two evaluations. When no dependency has an
    event component the arguments are the dense values and every requested
    output is stored as dense. When some dependency has an event component,
    the arguments are the event values where there are some and the dense
    values otherwise; a binned result becomes the event component of its
    output and any other result the dense component. *)
Theorem compute_rule_evaluation {Func Var} (is_binned : Var → bool)
    (call : Func → gmap string (option Var) → res (Output Var))
    (out_names : list string) (func : Func) (arg_names : list string)
    (st : State Func Var) (outputs : gmap string (_Coord Var))
    (st' : State Func Var) :
  compute_rule_call is_binned call out_names func arg_names st
  = inr (outputs, st') →
  ∃ kwargs out vars,
    calls st' = calls st ++ [(func, kwargs)]
    ∧ call func kwargs = inr out
    ∧ _to_dict out_names out = inr vars
    ∧ (∀ n, is_Some (kwargs !! n) ↔ n ∈ arg_names)
    ∧ (∀ n, n ∈ arg_names → is_Some (coords st !! n))
    ∧ ((∀ n c, n ∈ arg_names → coords st !! n = Some c → event c = None) →
       (∀ n c, n ∈ arg_names → coords st !! n = Some c →
          kwargs !! n = Some (dense c))
       ∧ (∀ name, outputs !! name
                  = if decide (name ∈ out_names)
                    then (λ var, mkCoord (Some var) None coord) <$> vars !! name
                    else None))
    ∧ ((∃ n c, n ∈ arg_names ∧ coords st !! n = Some c ∧ is_Some (event c)) →
       (∀ n c, n ∈ arg_names → coords st !! n = Some c →
          kwargs !! n = Some (if has_event c then event c else dense c))
       ∧ (∀ name, outputs !! name
                  = if decide (name ∈ out_names)
                    then (λ var, if is_binned var
                                 then mkCoord None (Some var) coord
                                 else mkCoord (Some var) None coord)
                           <$> vars !! name
                    else None)).
Proof.
  unfold compute_rule_call.
  destruct (consume_inputs arg_names ∅ (coords st)) as [e|[inputs coords']] eqn:Hc;
    simpl; [done|].
  apply consume_inputs_spec in Hc as (Hin & Hout & _).
  assert (Hdom : ∀ {A} (f : _Coord Var → A) n,
            is_Some ((f <$> inputs) !! n) ↔ n ∈ arg_names).
  { intros A f n. rewrite lookup_fmap, fmap_is_Some. split.
    - intros Hn. destruct (decide (n ∈ arg_names)) as [|Hn']; [done|].
      rewrite (Hout n Hn'), lookup_empty in Hn. by destruct Hn.
    - intros (c & _ & ->)%Hin. by eexists. }
  assert (Hargs : ∀ n, n ∈ arg_names → is_Some (coords st !! n)).
  { intros n (c & -> & _)%Hin. by eexists. }
  assert (Hany : any_has_event inputs = true ↔
            ∃ n c, n ∈ arg_names ∧ coords st !! n = Some c ∧ is_Some (event c)).
  { rewrite any_has_event_true. split.
    - intros (n & c & Hn & He).
      destruct (decide (n ∈ arg_names)) as [Hn'|Hn'].
      + destruct (Hin n Hn') as (c0 & Hc0 & Hi). exists n, c0.
        rewrite Hn in Hi. injection Hi as ->. done.
      + by rewrite (Hout n Hn'), lookup_empty in Hn.
    - intros (n & c & Hn & Hc & He). destruct (Hin n Hn) as (c0 & Hc0 & Hi).
      exists n, (consumed c0). split; [done|]. simpl. by simplify_eq. }
  destruct (any_has_event inputs) eqn:Hev; simpl.
  - unfold _compute_with_events, call_func.
    set (kwargs := (λ c, if has_event c then event c else dense c) <$> inputs).
    destruct (call func kwargs) as [e|out] eqn:Hcall; simpl; [done|].
    destruct (_to_dict out_names out) as [e|vars] eqn:Hdict; simpl; [done|].
    intros [= <- <-]. exists kwargs, out, vars.
    split_and!; [done|done|done|apply Hdom|done| |].
    + intros Hno. apply proj1 in Hany. destruct (Hany eq_refl) as (n & c & Hn & Hc & He).
      rewrite (Hno n c Hn Hc) in He. by destruct He.
    + intros _. split.
      * intros n c Hn Hc. destruct (Hin n Hn) as (c0 & Hc0 & Hi).
        unfold kwargs. rewrite lookup_fmap, Hi. simpl.
        rewrite Hc in Hc0. by injection Hc0 as <-.
      * intros name. rewrite lookup_without_unrequested. case_decide; [|done].
        rewrite lookup_fmap. destruct (vars !! name) as [var|]; [|done].
        simpl. by destruct (is_binned var).
  - unfold _compute_pure_dense, call_func.
    destruct (call func (dense <$> inputs)) as [e|out] eqn:Hcall; simpl; [done|].
    destruct (_to_dict out_names out) as [e|vars] eqn:Hdict; simpl; [done|].
    intros [= <- <-]. exists (dense <$> inputs), out, vars.
    split_and!; [done|done|done|apply Hdom|done| |].
    + intros _. split.
      * intros n c Hn Hc. destruct (Hin n Hn) as (c0 & Hc0 & Hi).
        rewrite lookup_fmap, Hi. simpl.
        rewrite Hc in Hc0. by injection Hc0 as <-.
      * intros name. rewrite lookup_without_unrequested. by rewrite lookup_fmap.
    + intros Hex. apply Hany in Hex. done.
Qed.

Lemma compute_rule_evaluation_witness :
  compute_rule_call ex_is_binned ex_call ["y"] "double" ["x"] ex_state
  = inr ({[ "y" := mkCoord None (Some (true, 6)) coord ]},
         mkState {[ "x" := mkCoord (Some (false, 3)) (Some (true, 3)) attr ]}
           [("double", {[ "x" := Some (true, 3) ]})])
  ∧ (∃ kwargs, calls ex_state ++ [("double", kwargs)]
               = [("double", {[ "x" := Some (true, 3) ]})]).
Proof.
  assert (Hcall : compute_rule_call ex_is_binned ex_call ["y"] "double" ["x"] ex_state
            = inr ({[ "y" := mkCoord None (Some (true, 6)) coord ]},
                   mkState {[ "x" := mkCoord (Some (false, 3)) (Some (true, 3)) attr ]}
                     [("double", {[ "x" := Some (true, 3) ]})]))
    by (vm_compute; reflexivity).
  split; [exact Hcall|].
  destruct (compute_rule_evaluation ex_is_binned ex_call _ _ _ _ _ _ Hcall)
    as (kwargs & out & vars & Hcalls & _).
  exists kwargs. simpl in Hcalls. by rewrite <- Hcalls.
Defined.

End Evaluate.

(* ===================================================================== *)
(** * Part V: renaming of dimensions ([coords/transform_coords.py])        *)
(* ===================================================================== *)

Module RenameDims.

Inductive Exn := KeyError (name : string).

Abbreviation res := (result Exn).

(** What the rename analysis uses of the graph class: [graph.nodes()],
    [graph.children_of(node)] and [graph.nodes_topologically()]. *)
Record Graph := mkGraph {
  nodes : list string;
  children_of : string → list string;
  nodes_topologically : list string;
}.

(** The colors: for every node, a fraction for every dimension coordinate.
    Python's [Fraction] compares by value; the fractions are rationals
    compared with [Qeq_bool]. *)
Abbreviation Colors := (gmap string (gmap string Q)).

(** The initial colors of [_color_dims]. *)
Definition init_colors (graph : Graph) (dim_coords : list string) : Colors :=
  list_to_map
    ((λ coord, (coord, list_to_map ((λ dim, (dim, 0%Q)) <$> dim_coords)))
       <$> nodes graph).

(** [colors[coord][dim]] *)
Definition color (colors : Colors) (coord dim : string) : res Q :=
  match colors !! coord with
  | None => raise (KeyError coord)
  | Some c =>
      match c !! dim with
      | None => raise (KeyError dim)
      | Some q => ok q
      end
  end.

(** [colors[coord][dim] = q] *)
Definition set_color (colors : Colors) (coord dim : string) (q : Q) : res Colors :=
  match colors !! coord with
  | None => raise (KeyError coord)
  | Some c => ok (<[coord := <[dim := q]> c]> colors)
  end.

(** The loop over the children of [coord] in [_color_dims];
    [n_children] is [len(children)]. *)
Fixpoint color_children (dim_coords : list string) (dim coord : string)
    (n_children : nat) (children : list string) (colors : Colors) : res Colors :=
  match children with
  | [] => ok colors
  | child :: children =>
      colors ← (if bool_decide (child ∈ dim_coords) then ok colors
                else
                  old ← color colors child dim;
                  q ← color colors coord dim;
                  set_color colors child dim
                    (old + q * (1 # Pos.of_nat n_children))%Q);
      color_children dim_coords dim coord n_children children colors
  end.

(** The while loop of [_color_dims]; the stack has its top at the head.
    [None] stands for a loop that has not finished within [fuel]
    iterations. *)
Fixpoint depth_first (fuel : nat) (graph : Graph) (dim_coords : list string)
    (dim : string) (depth_first_stack : list string) (colors : Colors)
    : option (res Colors) :=
  match depth_first_stack with
  | [] => Some (ok colors)
  | coord :: depth_first_stack =>
      match fuel with
      | O => None
      | S fuel =>
          let children := children_of graph coord in
          match color_children dim_coords dim coord (length children)
                  children colors with
          | inl e => Some (raise e)
          | inr colors =>
              depth_first fuel graph dim_coords dim
                (reverse children ++ depth_first_stack) colors
          end
      end
  end.

(** The loop of [_color_dims] over the dimension coordinates. *)
Fixpoint color_dims_loop (fuel : nat) (graph : Graph) (dim_coords : list string)
    (dims : list string) (colors : Colors) : option (res Colors) :=
  match dims with
  | [] => Some (ok colors)
  | dim :: dims =>
      match set_color colors dim dim 1%Q with
      | inl e => Some (raise e)
      | inr colors =>
          match depth_first fuel graph dim_coords dim [dim] colors with
          | None => None
          | Some (inl e) => Some (raise e)
          | Some (inr colors) => color_dims_loop fuel graph dim_coords dims colors
          end
      end
  end.

(** [_color_dims]; [dim_coords] lists the elements of the set. *)
Definition _color_dims (fuel : nat) (graph : Graph) (dim_coords : list string)
    : option (res Colors) :=
  color_dims_loop fuel graph dim_coords dim_coords (init_colors graph dim_coords).

(** [_has_full_color_of_dim] *)
Definition _has_full_color_of_dim (colors : gmap string Q) (dim : string) : bool :=
  forallb (λ df : string * Q,
             if decide (df.1 = dim) then Qeq_bool df.2 1 else negb (Qeq_bool df.2 1))
          (map_to_list colors).

(** The inner loop of [_dim_name_changes]: the first node with the full
    color of [dim], if there is one. *)
Fixpoint first_full (colors : Colors) (dim : string) (nodes : list string)
    : res (option string) :=
  match nodes with
  | [] => ok None
  | node :: nodes =>
      match colors !! node with
      | None => raise (KeyError node)
      | Some c =>
          if _has_full_color_of_dim c dim then ok (Some node)
          else first_full colors dim nodes
      end
  end.

(** The outer loop of [_dim_name_changes]. *)
Fixpoint name_changes_loop (colors : Colors) (nodes : list string)
    (dims : list string) (name_changes : gmap string string)
    : res (gmap string string) :=
  match dims with
  | [] => ok name_changes
  | dim :: dims =>
      found ← first_full colors dim nodes;
      name_changes_loop colors nodes dims
        match found with
        | Some node => <[dim := node]> name_changes
        | None => name_changes
        end
  end.

(** [_dim_name_changes] *)
Definition _dim_name_changes (fuel : nat) (rule_graph : Graph)
    (dim_coords : list string) : option (res (gmap string string)) :=
  colors ← _color_dims fuel rule_graph dim_coords;
  Some (colors ← colors;
        let nodes := reverse (nodes_topologically rule_graph) in
        name_changes_loop colors nodes dim_coords ∅).

(** Node [node] is eligible to take over the name of [dim]: its color is 1
    for [dim] and not 1 for every other dimension coordinate. *)
Definition eligible (colors : Colors) (dim_coords : list string) (dim node : string)
    : Prop :=
  ∃ c q, colors !! node = Some c ∧ c !! dim = Some q ∧ (q == 1)%Q
    ∧ ∀ d, d ∈ dim_coords → d ≠ dim → ∃ q', c !! d = Some q' ∧ ¬ (q' == 1)%Q.

(** Every node has a color for exactly the dimension coordinates. *)
Definition colors_over (dim_coords : list string) (colors : Colors) : Prop :=
  ∀ node c, colors !! node = Some c → ∀ d, is_Some (c !! d) ↔ d ∈ dim_coords.

(** The coordinate [x] is renamed to [a] and [a] to [b]; [c] and [d] are
    both computed from [y]. *)
Definition ex_graph : Graph :=
  mkGraph ["x"; "y"; "a"; "b"; "c"; "d"]
    (λ node, if decide (node = "x") then ["a"]
             else if decide (node = "a") then ["b"]
             else if decide (node = "y") then ["c"; "d"]
             else [])
    ["x"; "y"; "a"; "c"; "d"; "b"].

(** ** Eligibility *)

Lemma has_full_color_iff (c : gmap string Q) dim :
  _has_full_color_of_dim c dim = true ↔
  ∀ d q, c !! d = Some q → if decide (d = dim) then (q == 1)%Q else ¬ (q == 1)%Q.
Proof.
  unfold _has_full_color_of_dim. rewrite forallb_forall. split.
  - intros Hall d q Hd.
    specialize (Hall (d, q)). simpl in Hall.
    assert (Hin : In (d, q) (map_to_list c))
      by (by apply list_elem_of_In, elem_of_map_to_list).
    specialize (Hall Hin). case_decide.
    + by apply Qeq_bool_iff.
    + apply negb_true_iff in Hall. intros Hq%Qeq_bool_iff. congruence.
  - intros Hall [d q] Hin%list_elem_of_In%elem_of_map_to_list. simpl.
    specialize (Hall d q Hin). case_decide.
    + by apply Qeq_bool_iff.
    + apply negb_true_iff. destruct (Qeq_bool q 1) eqn:Hq; [|done].
      by apply Qeq_bool_iff in Hq.
Qed.

Lemma eligible_iff colors dim_coords dim node c :
  colors !! node = Some c →
  (∀ d, is_Some (c !! d) ↔ d ∈ dim_coords) →
  dim ∈ dim_coords →
  _has_full_color_of_dim c dim = true ↔ eligible colors dim_coords dim node.
Proof.
  intros Hnode Hdom Hdim. rewrite has_full_color_iff. split.
  - intros Hall. apply Hdom in Hdim as [q Hq].
    exists c, q. split_and!; [done|done| |].
    + specialize (Hall dim q Hq). by rewrite decide_True in Hall.
    + intros d [q' Hq']%Hdom Hne. exists q'. split; [done|].
      specialize (Hall d q' Hq'). by rewrite decide_False in Hall.
  - intros (c' & q & Hc' & Hq & Hone & Hother) d q' Hd.
    rewrite Hnode in Hc'. injection Hc' as <-.
    case_decide as Heq.
    + subst d. by simplify_eq.
    + destruct (Hother d) as (q'' & Hq'' & Hne); [|done|].
      * apply Hdom. by eexists.
      * by simplify_eq.
Qed.

(** ** The choice of the new name *)

Lemma first_full_spec colors dim nodes found :
  first_full colors dim nodes = inr found →
  match found with
  | Some node =>
      ∃ before after c, nodes = before ++ node :: after
        ∧ colors !! node = Some c ∧ _has_full_color_of_dim c dim = true
        ∧ ∀ n, n ∈ before →
            ∃ c', colors !! n = Some c' ∧ _has_full_color_of_dim c' dim = false
  | None =>
      ∀ n, n ∈ nodes →
        ∃ c', colors !! n = Some c' ∧ _has_full_color_of_dim c' dim = false
  end.
Proof.
  revert found. induction nodes as [|node nodes IH]; intros found; simpl.
  - intros [= <-]. by intros n ?%elem_of_nil.
  - destruct (colors !! node) as [c|] eqn:Hc; [|done].
    destruct (_has_full_color_of_dim c dim) eqn:Hfull.
    + intros [= <-]. exists [], nodes, c. split_and!; [done..|].
      by intros n ?%elem_of_nil.
    + intros Hfound. specialize (IH _ Hfound). destruct found as [node'|].
      * destruct IH as (before & after & c' & -> & Hc' & Hfull' & Hbefore).
        exists (node :: before), after, c'. split_and!; [done..|].
        intros n [->|Hn]%elem_of_cons; [by exists c|by apply Hbefore].
      * intros n [->|Hn]%elem_of_cons; [by exists c|by apply IH].
Qed.

Lemma name_changes_loop_spec colors nodes dims :
  ∀ name_changes result,
    name_changes_loop colors nodes dims name_changes = inr result →
    (∀ dim, dim ∉ dims → result !! dim = name_changes !! dim)
    ∧ (∀ dim, dim ∈ dims →
         ∃ found, first_full colors dim nodes = inr found
           ∧ result !! dim = match found with
                             | Some node => Some node
                             | None => name_changes !! dim
                             end).
Proof.
  induction dims as [|dim0 dims IH]; intros name_changes result; simpl.
  - intros [= <-]. split; [done|]. by intros dim ?%elem_of_nil.
  - destruct (first_full colors dim0 nodes) as [e|found0] eqn:Hfound; simpl; [done|].
    intros [Hout Hin]%IH. split.
    + intros dim Hdim. rewrite Hout by (intros ?; apply Hdim; by right).
      destruct found0; [|done]. apply lookup_insert_ne.
      intros ->. apply Hdim. by left.
    + intros dim Hdim. destruct (decide (dim ∈ dims)) as [Hd|Hd].
      * destruct (Hin dim Hd) as (found & Hf & Hres). exists found.
        split; [done|]. rewrite Hres. destruct found as [node|]; [done|].
        destruct (decide (dim = dim0)) as [->|Hne].
        -- rewrite Hfound in Hf. injection Hf as ->. done.
        -- destruct found0; [by rewrite lookup_insert_ne|done].
      * apply elem_of_cons in Hdim as [->|?]; [|done].
        exists found0. split; [done|]. rewrite Hout by done.
        destruct found0; [apply lookup_insert_eq|done].
Qed.

(** ** The colors range over the dimension coordinates *)

Lemma init_colors_over graph dim_coords :
  colors_over dim_coords (init_colors graph dim_coords).
Proof.
  intros node c Hc d. unfold init_colors in Hc.
  apply elem_of_list_to_map_2, list_elem_of_fmap in Hc as (coord & [= _ ->] & _).
  rewrite <- elem_of_dom, dom_list_to_map_L, elem_of_list_to_set.
  rewrite <- list_fmap_compose. simpl.
  by rewrite list_fmap_id.
Qed.

Lemma set_color_over dim_coords colors coord dim q colors' :
  set_color colors coord dim q = inr colors' →
  dim ∈ dim_coords → colors_over dim_coords colors →
  colors_over dim_coords colors'.
Proof.
  unfold set_color. destruct (colors !! coord) as [c|] eqn:Hc; [|done].
  intros [= <-] Hdim Hover node c'. rewrite lookup_insert.
  case_decide; [|by apply Hover]. intros [= <-] d.
  rewrite lookup_insert. case_decide as Hd.
  - subst d. split; [done|]. by eexists.
  - by apply (Hover coord).
Qed.

Lemma color_children_over dim_coords dim coord n children :
  ∀ colors colors',
    color_children dim_coords dim coord n children colors = inr colors' →
    dim ∈ dim_coords → colors_over dim_coords colors →
    colors_over dim_coords colors'.
Proof.
  induction children as [|child children IH]; intros colors colors'; simpl.
  - by intros [= <-].
  - case_bool_decide; simpl; [apply IH|].
    destruct (color colors child dim) as [e|old]; simpl; [done|].
    destruct (color colors coord dim) as [e|q]; simpl; [done|].
    destruct (set_color colors child dim _) as [e|colors1] eqn:Hset; simpl; [done|].
    intros Hrest Hdim Hover. eapply IH; [done..|]. by eapply set_color_over.
Qed.

Lemma depth_first_over fuel graph dim_coords dim :
  ∀ stack colors colors',
    depth_first fuel graph dim_coords dim stack colors = Some (inr colors') →
    dim ∈ dim_coords → colors_over dim_coords colors →
    colors_over dim_coords colors'.
Proof.
  induction fuel as [|fuel IH]; intros stack colors colors'.
  - destruct stack; [|done]. by intros [= <-].
  - destruct stack as [|coord stack]; [by intros [= <-]|]. simpl.
    destruct (color_children _ _ _ _ _ colors) as [e|colors1] eqn:Hch; [done|].
    intros Hdf Hdim Hover. eapply IH; [done..|]. by eapply color_children_over.
Qed.

Lemma color_dims_loop_over fuel graph dim_coords dims :
  ∀ colors colors',
    color_dims_loop fuel graph dim_coords dims colors = Some (inr colors') →
    (∀ d, d ∈ dims → d ∈ dim_coords) → colors_over dim_coords colors →
    colors_over dim_coords colors'.
Proof.
  induction dims as [|dim dims IH]; intros colors colors'; simpl.
  - by intros [= <-].
  - destruct (set_color colors dim dim 1) as [e|colors1] eqn:Hset; [done|].
    destruct (depth_first _ _ _ _ _ colors1) as [[e|colors2]|] eqn:Hdf; [done| |done].
    intros Hloop Hsub Hover.
    assert (dim ∈ dim_coords) by (apply Hsub; by left).
    eapply IH; [done| |].
    + intros d Hd. apply Hsub. by right.
    + eapply depth_first_over; [done..|]. by eapply set_color_over.
Qed.

Lemma color_dims_over fuel graph dim_coords colors :
  _color_dims fuel graph dim_coords = Some (inr colors) →
  colors_over dim_coords colors.
Proof.
  intros Hc. eapply color_dims_loop_over; [done..|]. apply init_colors_over.
Qed.

(** ** Termination of the coloring *)

Lemma depth_first_mono fuel fuel' graph dim_coords dim :
  ∀ stack colors r,
    depth_first fuel graph dim_coords dim stack colors = Some r →
    (fuel ≤ fuel')%nat →
    depth_first fuel' graph dim_coords dim stack colors = Some r.
Proof.
  revert fuel'. induction fuel as [|fuel IH]; intros fuel' stack colors r.
  - destruct stack; [|done]. by destruct fuel'.
  - destruct fuel' as [|fuel']; [lia|]. destruct stack as [|coord stack]; [done|].
    simpl. destruct (color_children _ _ _ _ _ colors); [done|].
    intros Hdf Hle. apply IH; [done|lia].
Qed.

Lemma color_dims_loop_mono fuel fuel' graph dim_coords dims :
  ∀ colors r,
    color_dims_loop fuel graph dim_coords dims colors = Some r →
    (fuel ≤ fuel')%nat →
    color_dims_loop fuel' graph dim_coords dims colors = Some r.
Proof.
  induction dims as [|dim dims IH]; intros colors r; simpl; [done|].
  destruct (set_color colors dim dim 1) as [e|colors1]; [done|].
  destruct (depth_first fuel _ _ _ _ colors1) as [r1|] eqn:Hdf; [|done].
  intros Hloop Hle. rewrite (depth_first_mono _ _ _ _ _ _ _ _ Hdf Hle).
  destruct r1 as [e|colors2]; [done|]. by apply IH.
Qed.

(** On a graph whose child relation is well founded (a graph without cycle),
    the depth-first traversal finishes. *)
Lemma depth_first_terminates graph dim_coords dim :
  well_founded (λ child parent, child ∈ children_of graph parent) →
  ∀ stack colors, ∃ fuel r, depth_first fuel graph dim_coords dim stack colors = Some r.
Proof.
  intros Hwf.
  set (T := λ stack, ∀ colors, ∃ fuel r,
              depth_first fuel graph dim_coords dim stack colors = Some r).
  assert (Hnode : ∀ node rest, T rest → T (node :: rest)).
  { intros node. induction (Hwf node) as [node _ IH]. intros rest Hrest colors.
    assert (Hlist : ∀ l, (∀ x, x ∈ l → x ∈ children_of graph node) → T (l ++ rest)).
    { induction l as [|x l IHl]; intros Hl; [done|]. simpl.
      apply (IH x); [apply Hl; by left|]. apply IHl. intros y Hy. apply Hl. by right. }
    destruct (color_children dim_coords dim node (length (children_of graph node))
                (children_of graph node) colors) as [e|colors1] eqn:Hch.
    - exists 1%nat, (raise e). simpl. by rewrite Hch.
    - destruct (Hlist (reverse (children_of graph node))) with (colors := colors1)
        as (fuel & r & Hdf).
      { intros x. by rewrite elem_of_reverse. }
      exists (S fuel), r. simpl. by rewrite Hch. }
  intros stack. induction stack as [|node stack IH].
  - intros colors. by exists O, (ok colors).
  - by apply Hnode.
Qed.

Lemma color_dims_loop_terminates graph dim_coords dims :
  well_founded (λ child parent, child ∈ children_of graph parent) →
  ∀ colors, ∃ fuel r, color_dims_loop fuel graph dim_coords dims colors = Some r.
Proof.
  intros Hwf. induction dims as [|dim dims IH]; intros colors.
  - by exists O, (ok colors).
  - simpl. destruct (set_color colors dim dim 1) as [e|colors1]; [by exists O, (raise e)|].
    destruct (depth_first_terminates graph dim_coords dim Hwf [dim] colors1)
      as (fuel1 & r1 & Hdf).
    destruct r1 as [e|colors2].
    + exists fuel1, (raise e). by rewrite Hdf.
    + destruct (IH colors2) as (fuel2 & r2 & Hloop).
      exists (fuel1 `max` fuel2)%nat, r2.
      rewrite (depth_first_mono _ _ _ _ _ _ _ _ Hdf) by lia.
      apply (color_dims_loop_mono fuel2); [done|lia].
Qed.

(** C1. The test of the rename analysis accepts a node for a dimension
    coordinate exactly when the node is eligible: its color is 1 for that
    dimension and not 1 for every other dimension coordinate. For every
    dimension coordinate the new name is the first eligible node of the
    reversed topological order; when no node is eligible the dimension has no
    entry in the result, and no other name has an entry. On a graph without
    cycle the analysis finishes. *)
Theorem dim_name_changes_first_eligible (rule_graph : Graph) (dim_coords : list string) :
  (well_founded (λ child parent, child ∈ children_of rule_graph parent) →
   ∃ fuel r, _dim_name_changes fuel rule_graph dim_coords = Some r)
  ∧ ∀ fuel colors name_changes,
      _color_dims fuel rule_graph dim_coords = Some (inr colors) →
      _dim_name_changes fuel rule_graph dim_coords = Some (inr name_changes) →
      (∀ node c dim, colors !! node = Some c → dim ∈ dim_coords →
         _has_full_color_of_dim c dim = true ↔ eligible colors dim_coords dim node)
      ∧ (∀ dim, dim ∈ dim_coords →
           match name_changes !! dim with
           | Some node =>
               ∃ before after,
                 reverse (nodes_topologically rule_graph) = before ++ node :: after
                 ∧ eligible colors dim_coords dim node
                 ∧ ∀ n, n ∈ before → ¬ eligible colors dim_coords dim n
           | None =>
               ∀ n, n ∈ nodes_topologically rule_graph →
                 ¬ eligible colors dim_coords dim n
           end)
      ∧ (∀ dim, dim ∉ dim_coords → name_changes !! dim = None).
Proof.
  split.
  { intros Hwf.
    destruct (color_dims_loop_terminates rule_graph dim_coords dim_coords Hwf
                (init_colors rule_graph dim_coords)) as (fuel & r & Hr).
    exists fuel. unfold _dim_name_changes, _color_dims. rewrite Hr. simpl.
    by eexists. }
  intros fuel colors name_changes Hcolors Hchanges.
  pose proof (color_dims_over _ _ _ _ Hcolors) as Hover.
  unfold _dim_name_changes in Hchanges. rewrite Hcolors in Hchanges.
  simpl in Hchanges. injection Hchanges as Hchanges.
  apply name_changes_loop_spec in Hchanges as [Hout Hin].
  assert (Hnot : ∀ dim n c, dim ∈ dim_coords → colors !! n = Some c →
            _has_full_color_of_dim c dim = false → ¬ eligible colors dim_coords dim n).
  { intros dim n c Hdim Hc Hfull Hel.
    apply (eligible_iff colors dim_coords dim n c Hc (Hover n c Hc) Hdim) in Hel.
    congruence. }
  split_and!.
  - intros node c dim Hc Hdim. by apply eligible_iff; [|apply (Hover node c)|].
  - intros dim Hdim. destruct (Hin dim Hdim) as (found & Hfound & ->).
    apply first_full_spec in Hfound. destruct found as [node|].
    + destruct Hfound as (before & after & c & Hrev & Hc & Hfull & Hbefore).
      exists before, after. split_and!; [done| |].
      * by apply (eligible_iff colors dim_coords dim node c Hc (Hover node c Hc) Hdim).
      * intros n (c' & Hc' & Hfull')%Hbefore. by eapply Hnot.
    + rewrite lookup_empty. intros n Hn.
      destruct (Hfound n) as (c' & Hc' & Hfull'); [by apply elem_of_reverse|].
      by eapply Hnot.
  - intros dim Hdim. by rewrite Hout.
Qed.

Lemma dim_name_changes_first_eligible_witness :
  _dim_name_changes 10 ex_graph ["x"; "y"]
  = Some (inr {[ "x" := "b"; "y" := "y" ]})
  ∧ ∃ colors, _color_dims 10 ex_graph ["x"; "y"] = Some (inr colors)
      ∧ eligible colors ["x"; "y"] "x" "b"
      ∧ ¬ eligible colors ["x"; "y"] "y" "c".
Proof.
  assert (Hchanges : _dim_name_changes 10 ex_graph ["x"; "y"]
                     = Some (inr {[ "x" := "b"; "y" := "y" ]}))
    by (vm_compute; reflexivity).
  split; [exact Hchanges|].
  destruct (_color_dims 10 ex_graph ["x"; "y"]) as [[e|colors]|] eqn:Hcolors;
    [vm_compute in Hcolors; discriminate| |vm_compute in Hcolors; discriminate].
  exists colors. split; [reflexivity|].
  destruct (proj2 (dim_name_changes_first_eligible ex_graph ["x"; "y"])
              10%nat colors _ Hcolors Hchanges) as (Htest & Hfirst & _).
  split.
  - destruct (Hfirst "x") as (before & after & _ & Hel & _); [by left|]. exact Hel.
  - assert (∃ c, colors !! "c" = Some c ∧ _has_full_color_of_dim c "y" = false)
      as (c & Hc & Hfull).
    { pose proof Hcolors as Hcopy. vm_compute in Hcopy. injection Hcopy as <-.
      eexists. split; vm_compute; reflexivity. }
    intros Hel. apply (Htest "c" c "y" Hc) in Hel; [congruence|].
    right. by left.
Defined.

End RenameDims.

(* ===================================================================== *)
(** * Part VI: more on the write-back ([coords/transform_coords.py])       *)
(* ===================================================================== *)

Module WriteBackFacts.

Import WriteBack.

Section Frame.

Context {Var Indices : Type}.
Variable dense_error : Var → option Exn.
Variable bins_error : Indices → Var → option Exn.
Variable copy_indices : Indices → Indices.

(** What the four metadata dicts of a data array hold under the name [n];
    the last component is [None] for dense data. *)
Definition held (n : string) (da : DataArray Var Indices)
    : option Var * option Var * option (option Var * option Var) :=
  (coords da !! n, attrs da !! n,
   (λ p, (bcoords p !! n, battrs p !! n)) <$> bins da).

(** The bin indices of the data, [None] for dense data. *)
Definition layout (da : DataArray Var Indices) : option Indices :=
  indices <$> bins da.

(** The step of the loop of [_store_results]. *)
Definition store_step (targets : gset string) (acc : res (DataArray Var Indices))
    (item : string * Coord Var) : res (DataArray Var Indices) :=
  da ← acc;
  let c := if decide (item.1 ∈ targets)
           then set_destination item.2 coord else item.2 in
  _store_coord dense_error bins_error copy_indices da item.1 c.

(** The destination of a table entry at the time it is stored. *)
Definition final_destination (targets : gset string) (name : string)
    (c : Coord Var) : Destination :=
  if decide (name ∈ targets) then coord else destination c.

(** No event value of the table is refused by bin indices [idx] with one of
    the two errors that [_store_coord] catches. *)
Definition accepted (idx : Indices) (table : list (string * Coord Var)) : Prop :=
  ∀ name c v, (name, c) ∈ table → event c = Some v →
    bins_error idx v ≠ Some DimensionError ∧ bins_error idx v ≠ Some VariableError.

Lemma held_try_del n name dest da :
  n ≠ name → held n (try_del name dest da) = held n da.
Proof.
  intros Hne. unfold held. destruct dest; simpl;
    rewrite ?lookup_delete_ne by done; destruct (bins da) as [p|]; simpl;
    rewrite ?lookup_delete_ne by done; done.
Qed.

Lemma held_store_dense n name dest da v da' :
  store_dense dense_error name dest da v = inr da' → n ≠ name →
  held n da' = held n da.
Proof.
  unfold store_dense. destruct (dense_error v); [done|]. intros [= <-] Hne.
  unfold held. destruct dest; simpl; rewrite ?lookup_insert_ne by done; done.
Qed.

Lemma held_store_bins n name dest da v da' :
  store_bins bins_error name dest da v = inr da' → n ≠ name →
  held n da' = held n da.
Proof.
  unfold store_bins. destruct (bins da) as [p|] eqn:Hp; [|done].
  destruct (bins_error (indices p) v); [done|]. intros [= <-] Hne.
  unfold held. rewrite Hp. destruct dest; simpl;
    rewrite ?lookup_insert_ne by done; done.
Qed.

Lemma held_copy_data n da : held n (copy_data copy_indices da) = held n da.
Proof. unfold held. simpl. by destruct (bins da). Qed.

(** [_store_coord] touches the stored name only. *)
Lemma held_store_coord da name c da' n :
  _store_coord dense_error bins_error copy_indices da name c = inr da' →
  n ≠ name → held n da' = held n da.
Proof.
  intros Hs Hne. unfold _store_coord in Hs.
  set (da0 := try_del name (other (destination c)) da) in Hs.
  assert (H0 : held n da0 = held n da) by (by apply held_try_del).
  case_decide as Hu.
  { injection Hs as <-. by rewrite held_try_del. }
  destruct (dense c) as [v|].
  - destruct (store_dense dense_error name (destination c) da0 v) as [e|da1] eqn:Hd;
      [done|]. simpl in Hs.
    assert (H1 : held n da1 = held n da)
      by (by rewrite (held_store_dense _ _ _ _ _ _ Hd Hne)).
    clear Hd H0. revert Hs. generalize da1 H1. clear da1 H1. intros da1 H1 Hs.
    destruct (event c) as [w|]; [|by injection Hs as <-].
    destruct (store_bins bins_error name (destination c) da1 w) as [e|da2] eqn:Hb.
    + assert (store_bins bins_error name (destination c)
                (copy_data copy_indices da1) w = inr da' → held n da' = held n da)
        as Hretry.
      { intros Hr. rewrite (held_store_bins _ _ _ _ _ _ Hr Hne).
        by rewrite held_copy_data. }
      destruct e; try done; by apply Hretry.
    + injection Hs as <-. by rewrite (held_store_bins _ _ _ _ _ _ Hb Hne).
  - simpl in Hs.
    destruct (event c) as [w|]; [|by injection Hs as <-].
    destruct (store_bins bins_error name (destination c) da0 w) as [e|da2] eqn:Hb.
    + assert (store_bins bins_error name (destination c)
                (copy_data copy_indices da0) w = inr da' → held n da' = held n da)
        as Hretry.
      { intros Hr. rewrite (held_store_bins _ _ _ _ _ _ Hr Hne).
        by rewrite held_copy_data. }
      destruct e; try done; by apply Hretry.
    + injection Hs as <-. by rewrite (held_store_bins _ _ _ _ _ _ Hb Hne).
Qed.

Lemma store_results_fold targets table da :
  _store_results dense_error bins_error copy_indices da table targets
  = foldl (store_step targets) (ok da) table.
Proof. unfold _store_results, shallow_copy, rewrap. by case_bool_decide. Qed.

Lemma fold_step_error targets table e :
  foldl (store_step targets) (inl e) table = inl e.
Proof. induction table as [|item table IH]; [done|]. simpl. exact IH. Qed.

(** The loop touches the names of the table only. *)
Lemma held_fold targets table :
  ∀ da da' n,
    foldl (store_step targets) (ok da) table = inr da' →
    n ∉ table.*1 → held n da' = held n da.
Proof.
  induction table as [|[name c] table IH]; intros da da' n Hfold Hn.
  - by injection Hfold as <-.
  - rewrite fmap_cons in Hn. apply not_elem_of_cons in Hn as [Hne Hn].
    simpl in Hfold, Hne.
    destruct (_store_coord dense_error bins_error copy_indices da name
                (if decide (name ∈ targets) then set_destination c coord else c))
      as [e|da1] eqn:Hs.
    + by rewrite fold_step_error in Hfold.
    + rewrite (IH _ _ _ Hfold Hn). by eapply held_store_coord.
Qed.

(** What a [_store_coord] that returns has stored under the name. *)
Lemma store_coord_values da name c da' :
  _store_coord dense_error bins_error copy_indices da name c = inr da' →
  usages c ≠ 0 →
  (∀ v, dense c = Some v → dense_store (destination c) da' !! name = Some v)
  ∧ (∀ v, event c = Some v →
       ∃ p', bins da' = Some p' ∧ event_store (destination c) p' !! name = Some v).
Proof.
  intros Hs Hu. unfold _store_coord in Hs.
  set (da0 := try_del name (other (destination c)) da) in Hs.
  rewrite decide_False in Hs by done.
  assert (Hbins : ∀ da1 w,
            match store_bins bins_error name (destination c) da1 w with
            | inl DimensionError | inl VariableError =>
                store_bins bins_error name (destination c) (copy_data copy_indices da1) w
            | r => r
            end = inr da' →
            dense_store (destination c) da' = dense_store (destination c) da1
            ∧ ∃ p', bins da' = Some p'
                ∧ event_store (destination c) p' !! name = Some w).
  { intros da1 w Hb.
    assert (Hone : ∀ da2, store_bins bins_error name (destination c) da2 w = inr da' →
              dense_store (destination c) da' = dense_store (destination c) da2
              ∧ ∃ p', bins da' = Some p'
                  ∧ event_store (destination c) p' !! name = Some w).
    { intros da2. unfold store_bins. destruct (bins da2) as [p|]; [|done].
      destruct (bins_error (indices p) w); [done|]. intros [= <-]. split.
      - by destruct (destination c).
      - eexists. split; [done|]. destruct (destination c); simpl;
          apply lookup_insert_eq. }
    destruct (store_bins bins_error name (destination c) da1 w) as [e|da2] eqn:Hfirst.
    - assert (store_bins bins_error name (destination c)
                (copy_data copy_indices da1) w = inr da') as Hr
        by (destruct e; done).
      destruct (Hone _ Hr) as [Hd Hp]. split; [|done].
      rewrite Hd. by destruct (destination c).
    - injection Hb as <-. by apply Hone. }
  destruct (dense c) as [v|].
  - destruct (store_dense dense_error name (destination c) da0 v) as [e|da1] eqn:Hd;
      [done|]. simpl in Hs.
    assert (Hv : dense_store (destination c) da1 !! name = Some v).
    { unfold store_dense in Hd. destruct (dense_error v); [done|].
      injection Hd as <-. destruct (destination c); simpl; apply lookup_insert_eq. }
    destruct (event c) as [w|].
    + destruct (Hbins _ _ Hs) as [Hsame Hp]. split.
      * intros ? [= <-]. by rewrite Hsame.
      * intros ? [= <-]. done.
    + injection Hs as <-. split; [by intros ? [= <-]|done].
  - simpl in Hs. split; [done|].
    destruct (event c) as [w|]; [|done].
    intros ? [= <-]. by destruct (Hbins _ _ Hs).
Qed.

Lemma try_del_layout name dest (da : DataArray Var Indices) :
  copies (try_del name dest da) = copies da
  ∧ layout (try_del name dest da) = layout da.
Proof.
  unfold layout. destruct dest; simpl; (split; [done|]); by destruct (bins da).
Qed.

(** While no store is refused with a caught error, [_store_coord] makes no
    copy and keeps the bin indices. *)
Lemma store_coord_no_copy da name c da' :
  _store_coord dense_error bins_error copy_indices da name c = inr da' →
  (∀ idx v, layout da = Some idx → event c = Some v →
     bins_error idx v ≠ Some DimensionError ∧ bins_error idx v ≠ Some VariableError) →
  copies da' = copies da ∧ layout da' = layout da.
Proof.
  intros Hs Hacc. unfold _store_coord in Hs.
  set (da0 := try_del name (other (destination c)) da) in Hs.
  assert (H0 : copies da0 = copies da ∧ layout da0 = layout da)
    by apply try_del_layout.
  case_decide as Hu.
  { injection Hs as <-. destruct H0 as [Hc Hl].
    destruct (try_del_layout name (destination c) da0) as [Hc' Hl'].
    split; congruence. }
  assert (H1 : ∀ da1,
            match dense c with
            | Some v => store_dense dense_error name (destination c) da0 v
            | None => ok da0
            end = inr da1 → copies da1 = copies da ∧ layout da1 = layout da).
  { intros da1. destruct (dense c) as [v|]; [|by intros [= <-]].
    unfold store_dense. destruct (dense_error v); [done|]. intros [= <-].
    unfold layout in *. by destruct (destination c). }
  destruct (match dense c with
            | Some v => store_dense dense_error name (destination c) da0 v
            | None => ok da0
            end) as [e|da1]; [done|]. simpl in Hs.
  destruct (H1 da1 eq_refl) as [Hc1 Hl1].
  destruct (event c) as [w|]; [|by injection Hs as <-].
  unfold store_bins in Hs at 1. unfold layout in Hl1, Hacc.
  destruct (bins da1) as [p|] eqn:Hp; [|done].
  destruct (bins da) as [p0|] eqn:Hp0; [|done]. simpl in Hl1.
  injection Hl1 as Hl1.
  destruct (Hacc (indices p0) w eq_refl eq_refl) as [Hdim Hvar].
  rewrite Hl1 in Hs.
  destruct (bins_error (indices p0) w) as [e|]; [by destruct e|].
  injection Hs as <-. simpl. unfold layout. simpl. rewrite Hp0. simpl.
  split; [done|]. by destruct (destination c).
Qed.

Lemma no_copy_fold targets table :
  ∀ da da',
    foldl (store_step targets) (ok da) table = inr da' →
    (∀ idx, layout da = Some idx → accepted idx table) →
    copies da' = copies da ∧ layout da' = layout da.
Proof.
  induction table as [|[name c] table IH]; intros da da' Hfold Hacc.
  - by injection Hfold as <-.
  - simpl in Hfold.
    destruct (_store_coord dense_error bins_error copy_indices da name
                (if decide (name ∈ targets) then set_destination c coord else c))
      as [e|da1] eqn:Hs; [by rewrite fold_step_error in Hfold|].
    apply store_coord_no_copy in Hs as [Hc Hl].
    + destruct (IH _ _ Hfold) as [Hc' Hl'].
      * intros idx Hidx n c' v Hin. rewrite Hl in Hidx.
        apply (Hacc idx Hidx n c' v). by right.
      * split; congruence.
    + intros idx v Hidx Hev. apply (Hacc idx Hidx name c v); [by left|].
      by case_decide.
Qed.

End Frame.

(** A data array without bins that has the coordinate ["x"]. *)
Definition ex_dense_data : DataArray (list (Z * Z)) (list (Z * Z)) :=
  mkDA {[ "x" := [] ]} ∅ None 0.

(** A coordinate that no rule uses any more. *)
Definition ex_unused : Coord (list (Z * Z)) :=
  mkCoord (Some []) (Some [(0, 3); (3, 7)]) attr 0.

(** An event coordinate with the bin indices of [ex_sliced]. *)
Definition ex_fitting : Coord (list (Z * Z)) :=
  mkCoord (Some []) (Some [(2, 5); (5, 9)]) attr 1.

(** X1. A coordinate without usages is removed by [_store_coord] from the
    coordinates, the attributes and both per-event dicts; the call does not
    raise, whatever the values of the coordinate, makes no copy of the buffer
    and leaves every other name as it is. *)
Theorem store_coord_unused_removed {Var Indices}
    (dense_error : Var → option Exn) (bins_error : Indices → Var → option Exn)
    (copy_indices : Indices → Indices)
    (da : DataArray Var Indices) (name : string) (c : Coord Var) :
  usages c = 0 →
  ∃ da', _store_coord dense_error bins_error copy_indices da name c = inr da'
    ∧ held name da' = (None, None, (λ _, (None, None)) <$> bins da)
    ∧ copies da' = copies da
    ∧ layout da' = layout da
    ∧ ∀ n, n ≠ name → held n da' = held n da.
Proof.
  intros Hu. unfold _store_coord. rewrite decide_True by done.
  eexists. split; [done|]. split_and!.
  - unfold held. destruct (destination c); simpl;
      rewrite ?lookup_delete_eq; destruct (bins da) as [p|]; simpl;
      rewrite ?lookup_delete_eq; done.
  - by destruct (destination c).
  - unfold layout. destruct (destination c); simpl; by destruct (bins da).
  - intros n Hne. by rewrite !held_try_del.
Qed.

Lemma store_coord_unused_removed_witness :
  usages ex_unused = 0
  ∧ ∃ da', _store_coord ex_dense_error ex_bins_error ex_copy_indices
             ex_sliced "x" ex_unused = inr da'
      ∧ held "x" da' = (None, None, Some (None, None))
      ∧ held "y" da' = held "y" ex_sliced.
Proof.
  split; [reflexivity|].
  destruct (store_coord_unused_removed ex_dense_error ex_bins_error ex_copy_indices
              ex_sliced "x" ex_unused eq_refl)
    as (da' & Hs & Hx & _ & _ & Hother).
  exists da'. split; [exact Hs|]. split; [exact Hx|]. by apply Hother.
Defined.

(** X2. Storing a coordinate that has an event component into data that is
    not binned raises [AttributeError]: there is no binned payload to store
    into, and the handler of [_store_coord] does not catch this error. *)
Theorem store_coord_event_needs_bins {Var Indices}
    (dense_error : Var → option Exn) (bins_error : Indices → Var → option Exn)
    (copy_indices : Indices → Indices)
    (da : DataArray Var Indices) (name : string) (c : Coord Var) (v : Var) :
  bins da = None → usages c ≠ 0 → event c = Some v →
  (∀ d, dense c = Some d → dense_error d = None) →
  _store_coord dense_error bins_error copy_indices da name c = inl AttributeError.
Proof.
  intros Hb Hu Hev Hd. unfold _store_coord. rewrite decide_False by done.
  rewrite Hev. destruct (dense c) as [d|].
  - unfold store_dense. rewrite (Hd d eq_refl). simpl. unfold store_bins.
    destruct (destination c); simpl; by rewrite Hb.
  - simpl. unfold store_bins. destruct (destination c); simpl; by rewrite Hb.
Qed.

Lemma store_coord_event_needs_bins_witness :
  bins ex_dense_data = None
  ∧ _store_coord ex_dense_error ex_bins_error ex_copy_indices
      ex_dense_data "y" ex_computed = inl AttributeError.
Proof.
  split; [reflexivity|].
  apply (store_coord_event_needs_bins ex_dense_error ex_bins_error ex_copy_indices
           ex_dense_data "y" ex_computed [(0, 3); (3, 7)]).
  - reflexivity.
  - discriminate.
  - reflexivity.
  - discriminate.
Defined.

(** X3. [_store_results] changes nothing under a name that is not in the
    coordinate table: the coordinates, attributes and per-event dicts of the
    output hold under such a name what those of the input hold. *)
Theorem store_results_frame {Var Indices}
    (dense_error : Var → option Exn) (bins_error : Indices → Var → option Exn)
    (copy_indices : Indices → Indices)
    (da : DataArray Var Indices) (table : list (string * Coord Var))
    (targets : gset string) (da' : DataArray Var Indices) (n : string) :
  _store_results dense_error bins_error copy_indices da table targets = inr da' →
  n ∉ table.*1 →
  held n da' = held n da.
Proof. rewrite store_results_fold. apply held_fold. Qed.

Lemma store_results_frame_witness :
  ∃ da',
    _store_results ex_dense_error ex_bins_error ex_copy_indices ex_sliced
      [("y", ex_computed)] {[ "y" ]} = inr da'
    ∧ held "x" da' = (Some [], None, Some (Some [(2, 5); (5, 9)], None)).
Proof.
  eexists. split; [vm_compute; reflexivity|].
  rewrite (store_results_frame ex_dense_error ex_bins_error ex_copy_indices
             ex_sliced [("y", ex_computed)] {[ "y" ]} _ "x").
  - vm_compute. reflexivity.
  - vm_compute. reflexivity.
  - simpl. apply not_elem_of_cons. split; [discriminate|apply not_elem_of_nil].
Defined.

(** X4. After a write-back that returns, every entry of the coordinate table
    that has usages is found under its name in the store of its destination,
    with its values: the dense value in the dict of the data array, the event
    value in the per-event dict. The destination of a target is the
    coordinates, whatever the destination in the table. *)
Theorem store_results_values {Var Indices}
    (dense_error : Var → option Exn) (bins_error : Indices → Var → option Exn)
    (copy_indices : Indices → Indices)
    (da : DataArray Var Indices) (table : list (string * Coord Var))
    (targets : gset string) (da' : DataArray Var Indices) :
  NoDup table.*1 →
  _store_results dense_error bins_error copy_indices da table targets = inr da' →
  ∀ name c, (name, c) ∈ table → usages c ≠ 0 →
    (∀ v, dense c = Some v →
       dense_store (final_destination targets name c) da' !! name = Some v)
    ∧ (∀ v, event c = Some v →
         ∃ p', bins da' = Some p'
           ∧ event_store (final_destination targets name c) p' !! name = Some v).
Proof.
  intros Hnd. rewrite store_results_fold. intros Hfold name c Hin Hu.
  apply list_elem_of_split in Hin as (l1 & l2 & ->).
  rewrite foldl_app in Hfold. simpl in Hfold.
  destruct (foldl (store_step dense_error bins_error copy_indices targets) (ok da) l1)
    as [e|da1]; [simpl in Hfold; by rewrite fold_step_error in Hfold|].
  unfold store_step at 2 in Hfold. simpl in Hfold.
  set (c' := if decide (name ∈ targets) then set_destination c coord else c) in Hfold.
  destruct (_store_coord dense_error bins_error copy_indices da1 name c')
    as [e|da2] eqn:Hs; [by rewrite fold_step_error in Hfold|].
  assert (Hc' : usages c' = usages c ∧ dense c' = dense c ∧ event c' = event c
                ∧ destination c' = final_destination targets name c).
  { unfold c', final_destination. by case_decide. }
  destruct Hc' as (Hu' & Hd' & He' & Hdest').
  apply store_coord_values in Hs as [Hdense Hevent]; [|by rewrite Hu'].
  rewrite Hd', Hdest' in Hdense. rewrite He', Hdest' in Hevent.
  assert (Hheld : held name da' = held name da2).
  { eapply held_fold; [done|]. rewrite fmap_app, fmap_cons in Hnd.
    apply NoDup_app in Hnd as (_ & _ & Hnd). by apply NoDup_cons in Hnd as [? _]. }
  unfold held in Hheld. injection Hheld as Hc Ha Hb. split.
  - intros v Hv. specialize (Hdense v Hv).
    destruct (final_destination targets name c); simpl in *; congruence.
  - intros v Hv. destruct (Hevent v Hv) as (p2 & Hp2 & Hlook).
    rewrite Hp2 in Hb. destruct (bins da') as [p'|]; [|done].
    simpl in Hb. injection Hb as Hbc Hba. exists p'. split; [done|].
    destruct (final_destination targets name c); simpl in *; congruence.
Qed.

Lemma store_results_values_witness :
  ∃ da' p',
    _store_results ex_dense_error ex_bins_error ex_copy_indices ex_sliced
      [("y", ex_fitting)] {[ "y" ]} = inr da'
    ∧ coords da' !! "y" = Some []
    ∧ bins da' = Some p' ∧ bcoords p' !! "y" = Some [(2, 5); (5, 9)].
Proof.
  destruct (_store_results ex_dense_error ex_bins_error ex_copy_indices ex_sliced
              [("y", ex_fitting)] {[ "y" ]}) as [e|da'] eqn:Hres;
    [vm_compute in Hres; discriminate|].
  destruct (store_results_values ex_dense_error ex_bins_error ex_copy_indices
              ex_sliced [("y", ex_fitting)] {[ "y" ]} da') with (name := "y") (c := ex_fitting)
    as [Hdense Hevent].
  - simpl. apply NoDup_singleton.
  - exact Hres.
  - apply list_elem_of_singleton. reflexivity.
  - discriminate.
  - destruct (Hevent [(2, 5); (5, 9)] eq_refl) as (p' & Hp' & Hv).
    exists da', p'. split; [reflexivity|]. split; [exact (Hdense [] eq_refl)|].
    split; [exact Hp'|exact Hv].
Defined.

(** X5. When the bin indices of the data accept every event value of the
    table (no store raises [DimensionError] or [VariableError]), a write-back
    that returns has made no copy of the content buffer, and the output has
    the bin indices of the input. *)
Theorem store_results_no_copy {Var Indices}
    (dense_error : Var → option Exn) (bins_error : Indices → Var → option Exn)
    (copy_indices : Indices → Indices)
    (da : DataArray Var Indices) (table : list (string * Coord Var))
    (targets : gset string) (da' : DataArray Var Indices) :
  (∀ idx, layout da = Some idx → accepted bins_error idx table) →
  _store_results dense_error bins_error copy_indices da table targets = inr da' →
  copies da' = copies da ∧ layout da' = layout da.
Proof.
  intros Hacc. rewrite store_results_fold. intros Hfold.
  by eapply no_copy_fold.
Qed.

Lemma store_results_no_copy_witness :
  ∃ da',
    _store_results ex_dense_error ex_bins_error ex_copy_indices ex_sliced
      [("y", ex_fitting)] {[ "y" ]} = inr da'
    ∧ copies da' = 0%nat ∧ layout da' = Some [(2, 5); (5, 9)].
Proof.
  destruct (_store_results ex_dense_error ex_bins_error ex_copy_indices ex_sliced
              [("y", ex_fitting)] {[ "y" ]}) as [e|da'] eqn:Hres;
    [vm_compute in Hres; discriminate|].
  exists da'. split; [reflexivity|].
  apply (store_results_no_copy ex_dense_error ex_bins_error ex_copy_indices
           ex_sliced [("y", ex_fitting)] {[ "y" ]} da'); [|exact Hres].
  intros idx [= <-] name c v [= -> ->]%list_elem_of_singleton [= <-].
  split; vm_compute; discriminate.
Defined.

End WriteBackFacts.

(* ===================================================================== *)
(** * Part VII: more on the rule graph ([coords.py])                       *)
(* ===================================================================== *)

Module RuleGraphFacts.

Import RuleGraph.

Section Facts.

Context {Func : Type} `{EqDecision Func}.
Variable getfullargspec : Func → ArgSpec.

(** The function has a [*args] or a [**kwargs] parameter. *)
Definition variadic (func : Func) : Prop :=
  is_Some (varargs (getfullargspec func)) ∨ is_Some (varkw (getfullargspec func)).

(** Resolving [n] asks for [p]: the rule that [_rule_for] gives for [n]
    depends on [p]. *)
Definition needs (graph : gmap string (_Rule Func)) (data : Data) (n p : string)
    : Prop :=
  ∃ rule, _rule_for graph n data = inr rule ∧ p ∈ dependencies rule.

(** [n] is a target or is needed, through any number of rules, for one. *)
Definition needed_for (graph : gmap string (_Rule Func)) (data : Data)
    (targets : list string) (n : string) : Prop :=
  ∃ t, t ∈ targets ∧ rtc (needs graph data) t n.

(** Every name that is needed for the targets can be resolved: it is
    metadata of the input or has a rule. *)
Definition all_resolved (graph : gmap string (_Rule Func)) (data : Data)
    (targets : list string) : Prop :=
  ∀ n, needed_for graph data targets n → ∃ rule, _rule_for graph n data = inr rule.

(** ** Construction *)

Lemma argnames_inv func arg_names :
  _argnames getfullargspec func = inr arg_names →
  ¬ variadic func
  ∧ arg_names = args (getfullargspec func) ++ kwonlyargs (getfullargspec func).
Proof.
  unfold _argnames, variadic. case_bool_decide; [done|]. by intros [= <-].
Qed.

Lemma argnames_error func e :
  _argnames getfullargspec func = inl e → e = VariableArguments ∧ variadic func.
Proof.
  unfold _argnames, variadic. case_bool_decide; [|done]. by intros [= <-].
Qed.

Lemma make_rule_error products producer e :
  _make_rule getfullargspec products producer = inl e → e = VariableArguments.
Proof.
  destruct producer as [in_name|func]; simpl; [done|].
  destruct (_argnames getfullargspec func) as [e'|names] eqn:Ha; [|done].
  simpl. intros [= <-]. by apply argnames_error in Ha as [-> _].
Qed.

(** The inner loop raises for a name that is in the graph already or that
    the key lists twice. *)
Lemma add_products_error (rule : _Rule Func) products :
  ∀ rule_graph e,
    add_products rule products rule_graph = inl e →
    (∃ p, e = DuplicateOutput p)
    ∧ ¬ (NoDup products ∧ ∀ n, n ∈ products → rule_graph !! n = None).
Proof.
  induction products as [|product products IH]; intros rule_graph e; [done|].
  simpl. case_bool_decide as Hp.
  - intros [= <-]. split; [by eexists|]. intros [_ Hnone].
    rewrite (Hnone product) in Hp by (by left). by destruct Hp.
  - intros [Hdup Hnot]%IH. split; [done|]. intros [Hnd Hnone]. apply Hnot.
    apply NoDup_cons in Hnd as [Hnotin Hnd]. split; [done|].
    intros n Hn. rewrite lookup_insert_ne by (by intros ->).
    apply Hnone. by right.
Qed.

Lemma convert_loop_error graph :
  ∀ rule_graph e,
    convert_loop getfullargspec graph rule_graph = inl e →
    e = VariableArguments
    ∨ ((∃ p, e = DuplicateOutput p)
       ∧ ¬ (NoDup (declared graph)
            ∧ ∀ n, n ∈ declared graph → rule_graph !! n = None)).
Proof.
  induction graph as [|[products producer] graph IH]; intros rule_graph e; [done|].
  simpl.
  destruct (_make_rule getfullargspec products producer) as [e'|rule] eqn:Hmk.
  { simpl. intros [= <-]. left. by eapply make_rule_error. }
  simpl.
  destruct (add_products rule (product_names products) rule_graph)
    as [e'|rule_graph1] eqn:Hadd.
  { simpl. intros [= <-]. right.
    apply add_products_error in Hadd as [Hdup Hnot]. split; [done|].
    intros [Hnd Hnone]. apply Hnot. unfold declared in Hnd, Hnone.
    rewrite fmap_cons, fmap_cons in Hnd, Hnone. simpl in Hnd, Hnone.
    apply NoDup_app in Hnd as (Hnd & _ & _). split; [done|].
    intros n Hn. apply Hnone, elem_of_app. by left. }
  simpl. intros [->|[Hdup Hnot]]%IH; [by left|]. right. split; [done|].
  intros [Hnd Hnone]. apply Hnot. unfold declared in Hnd, Hnone.
  rewrite fmap_cons, fmap_cons in Hnd, Hnone. simpl in Hnd, Hnone.
  apply NoDup_app in Hnd as (_ & Hdisj & Hnd). split; [done|].
  intros n Hn. apply add_products_inv in Hadd as (_ & _ & Hlook).
  rewrite Hlook. rewrite decide_False.
  - apply Hnone, elem_of_app. by right.
  - intros Hin. by apply (Hdisj n).
Qed.

(** A construction that returns has made a rule for every item. *)
Lemma convert_loop_made graph :
  ∀ rule_graph rule_graph',
    convert_loop getfullargspec graph rule_graph = inr rule_graph' →
    ∀ products producer, (products, producer) ∈ graph →
      ∃ rule, _make_rule getfullargspec products producer = inr rule.
Proof.
  induction graph as [|[products producer] graph IH]; intros rule_graph rule_graph'.
  - intros _ ?? Hin. by apply elem_of_nil in Hin.
  - simpl.
    destruct (_make_rule getfullargspec products producer) as [e'|rule] eqn:Hmk;
      [done|]. simpl.
    destruct (add_products rule (product_names products) rule_graph)
      as [e'|rule_graph1]; [done|]. simpl.
    intros Hrest ps pr [[= -> ->]|Hin]%elem_of_cons; [by exists rule|].
    by eapply IH.
Qed.

(** ** The subgraph *)

(** Every name of the subgraph satisfies a property that the pending names
    and the names found so far satisfy and that resolution keeps. *)
Lemma subgraph_loop_only (R : string → Prop) graph data fuel :
  (∀ n p, R n → needs graph data n p → R p) →
  ∀ sub pending sub',
    subgraph_loop fuel graph data sub pending = Some (inr sub') →
    (∀ n, is_Some (sub !! n) → R n) →
    (∀ n, n ∈ pending → R n) →
    ∀ n, is_Some (sub' !! n) → R n.
Proof.
  intros Hstep. induction fuel as [|fuel IH]; intros sub pending sub'.
  - destruct pending; [|done]. simpl. intros [= <-] Hsub _. exact Hsub.
  - destruct pending as [|out_name pending]; simpl;
      [intros [= <-] Hsub _; exact Hsub|].
    case_bool_decide as Hin.
    + intros Hloop Hsub Hpend. eapply IH; [done|done|].
      intros n Hn. apply Hpend. by right.
    + destruct (_rule_for graph out_name data) as [e|rule] eqn:Hrule; [done|].
      intros Hloop Hsub Hpend. eapply IH; [done| |].
      * intros n. rewrite lookup_insert. case_decide as Hn.
        -- subst n. intros _. apply Hpend. by left.
        -- apply Hsub.
      * intros n [Hn|Hn]%elem_of_app.
        -- rewrite elem_of_reverse in Hn. apply (Hstep out_name); [apply Hpend; by left|]. by exists rule.
        -- apply Hpend. by right.
Qed.

(** The search raises for a name that has the property of the pending
    names, when resolution keeps the property. *)
Lemma subgraph_loop_error_only (R : string → Prop) graph data fuel :
  (∀ n p, R n → needs graph data n p → R p) →
  ∀ sub pending e,
    subgraph_loop fuel graph data sub pending = Some (inl e) →
    (∀ n, n ∈ pending → R n) →
    ∃ n, e = CoordError n ∧ R n ∧ _rule_for graph n data = inl (CoordError n).
Proof.
  intros Hstep. induction fuel as [|fuel IH]; intros sub pending e.
  - by destruct pending.
  - destruct pending as [|out_name pending]; [done|]. simpl.
    case_bool_decide as Hin.
    + intros Hloop Hpend. eapply IH; [done|].
      intros n Hn. apply Hpend. by right.
    + destruct (_rule_for graph out_name data) as [e'|rule] eqn:Hrule.
      * intros [= ->] Hpend.
        assert (He : e = CoordError out_name).
        { unfold _rule_for in Hrule.
          destruct (_is_meta_data out_name data); [done|].
          destruct (graph !! out_name); [done|]. by injection Hrule as <-. }
        exists out_name. split_and!; [done|apply Hpend; by left|by rewrite <- He].
      * intros Hloop Hpend. eapply IH; [done|].
        intros n [Hn|Hn]%elem_of_app.
        -- rewrite elem_of_reverse in Hn.
           apply (Hstep out_name); [apply Hpend; by left|]. by exists rule.
        -- apply Hpend. by right.
Qed.

(** The search raises only for a name that is needed for the targets. *)
Lemma subgraph_error_needed fuel graph data targets e :
  subgraph fuel graph data targets = Some (inl e) →
  ∃ n, e = CoordError n ∧ needed_for graph data targets n
    ∧ _rule_for graph n data = inl (CoordError n).
Proof.
  intros Hsub.
  eapply (subgraph_loop_error_only (needed_for graph data targets)); [|exact Hsub|].
  - intros n p (t & Ht & Hpath) Hnp. exists t. split; [done|]. by eapply rtc_r.
  - intros n Hn. rewrite elem_of_reverse in Hn. exists n. by split.
Qed.

(** The subgraph holds exactly the names needed for the targets, each with
    the rule that [_rule_for] gives for it. *)
Lemma subgraph_exactly fuel graph data targets sub :
  subgraph fuel graph data targets = Some (inr sub) →
  ∀ n rule, sub !! n = Some rule ↔
    needed_for graph data targets n ∧ _rule_for graph n data = inr rule.
Proof.
  intros Hsub. pose proof (subgraph_inv _ _ _ _ _ Hsub) as (Hres & Hcl & Htargets).
  assert (Honly : ∀ n, is_Some (sub !! n) → needed_for graph data targets n).
  { eapply (subgraph_loop_only (needed_for graph data targets)); [|exact Hsub| |].
    - intros n p (t & Ht & Hpath) Hnp. exists t. split; [done|].
      by eapply rtc_r.
    - intros n [? Hn]. by rewrite lookup_empty in Hn.
    - intros n Hn. rewrite elem_of_reverse in Hn. exists n. by split. }
  assert (Hall : ∀ n, needed_for graph data targets n → is_Some (sub !! n)).
  { intros n (t & Ht & Hpath). apply Htargets in Ht.
    induction Hpath as [t|t m n Htm _ IH]; [done|].
    apply IH. destruct Ht as [rule Hrule].
    destruct Htm as (rule' & Hrule' & Hm).
    rewrite (Hres _ _ Hrule) in Hrule'. injection Hrule' as <-.
    by eapply Hcl. }
  intros n rule. split.
  - intros Hn. split; [apply Honly; by eexists|by apply Hres].
  - intros [Hneed Hrule]. destruct (Hall n Hneed) as [rule' Hrule'].
    rewrite (Hres _ _ Hrule') in Hrule. by injection Hrule as <-.
Qed.

(** Names that are metadata of the input are resolved in one iteration
    each. *)
Lemma subgraph_loop_fetch (graph : gmap string (_Rule Func)) data pending :
  ∀ fuel sub,
    (length pending ≤ fuel)%nat →
    (∀ n, n ∈ pending → _is_meta_data n data = true) →
    ∃ sub', subgraph_loop fuel graph data sub pending = Some (inr sub').
Proof.
  induction pending as [|n pending IH]; intros fuel sub Hfuel Hmeta.
  - exists sub. by destruct fuel.
  - destruct fuel as [|fuel]; [simpl in Hfuel; lia|]. simpl.
    case_bool_decide.
    + apply IH; [simpl in Hfuel; lia|]. intros m Hm. apply Hmeta. by right.
    + unfold _rule_for. rewrite (Hmeta n) by (by left). simpl.
      apply IH; [simpl in Hfuel; lia|]. intros m Hm. apply Hmeta. by right.
Qed.

(** ** The rule sequence *)

Lemma non_duplicate_loop_missing (rules : gmap string (_Rule Func)) order :
  ∀ already_used result d,
    d ∈ order → rules !! d = None →
    ∃ d', non_duplicate_loop rules order already_used result = inl (KeyError d')
      ∧ rules !! d' = None.
Proof.
  induction order as [|n order IH]; intros already_used result d Hd Hnone.
  - by apply elem_of_nil in Hd.
  - simpl. destruct (rules !! n) as [rule|] eqn:Hn; [|by exists n].
    apply elem_of_cons in Hd as [->|Hd]; [congruence|].
    case_bool_decide; by eapply IH.
Qed.

End Facts.

(** A graph with a function that takes [*args]. *)
Definition ex_graph_variadic : list (Products * Producer string) :=
  [(PName "a", PFunc "f"); (PName "b", PFunc "h")].

(** Rules that refer to a name [x] without a rule. *)
Definition ex_open : gmap string (_Rule string) :=
  {[ "a" := _ComputeRule ["a"] "f" ["x"] ]}.

(** X6. A graph dict with a function that takes [*args] or [**kwargs] cannot
    be constructed. When no output name is declared twice the error is the
    one about variable arguments. In a graph that has been constructed, the
    dependencies of every compute rule are the positional and keyword-only
    parameters of its function, in this order. *)
Theorem convert_rejects_variable_arguments {Func} `{EqDecision Func}
    (getfullargspec : Func → ArgSpec) (graph : list (Products * Producer Func)) :
  (∀ products func,
     (products, PFunc func) ∈ graph → variadic getfullargspec func →
     (∃ err, _convert_to_rule_graph getfullargspec graph = inl err)
     ∧ (NoDup (declared graph) →
        _convert_to_rule_graph getfullargspec graph = inl VariableArguments))
  ∧ (∀ rule_graph name out func arg_names,
       _convert_to_rule_graph getfullargspec graph = inr rule_graph →
       rule_graph !! name = Some (_ComputeRule out func arg_names) →
       ¬ variadic getfullargspec func
       ∧ arg_names = args (getfullargspec func) ++ kwonlyargs (getfullargspec func)
       ∧ dependencies (_ComputeRule out func arg_names) = arg_names).
Proof.
  split.
  - intros products func Hin Hvar.
    destruct (_convert_to_rule_graph getfullargspec graph) as [e|rule_graph] eqn:Hc.
    + split; [by exists e|]. intros Hnd.
      apply convert_loop_error in Hc as [->|[_ Hnot]]; [done|].
      destruct Hnot. split; [done|]. intros n _. apply lookup_empty.
    + destruct (convert_loop_made getfullargspec _ _ _ Hc _ _ Hin) as [rule Hmk].
      simpl in Hmk.
      destruct (_argnames getfullargspec func) as [e|names] eqn:Ha; [done|].
      by apply argnames_inv in Ha as [? _].
  - intros rule_graph name out func arg_names Hc Hrule.
    apply convert_loop_inv in Hc as (_ & _ & Hlook).
    apply Hlook in Hrule as [[_ Hempty]|(ps & pr & _ & _ & Hmk)];
      [by rewrite lookup_empty in Hempty|].
    destruct pr as [in_name|func']; simpl in Hmk; [done|].
    destruct (_argnames getfullargspec func') as [e|names] eqn:Ha; [done|].
    simpl in Hmk. injection Hmk as _ <- <-.
    apply argnames_inv in Ha as [Hvar ->]. done.
Qed.

Lemma convert_rejects_variable_arguments_witness :
  _convert_to_rule_graph ex_argspec ex_graph_variadic = inl VariableArguments
  ∧ ∃ rule_graph, _convert_to_rule_graph ex_argspec ex_graph = inr rule_graph
      ∧ rule_graph !! "a" = Some (_ComputeRule ["a"] "f" ["x"; "y"])
      ∧ ¬ variadic ex_argspec "f".
Proof.
  split.
  - apply (proj1 (convert_rejects_variable_arguments ex_argspec ex_graph_variadic)
             (PName "b") "h").
    + apply elem_of_cons. right. apply list_elem_of_singleton. reflexivity.
    + left. vm_compute. by eexists.
    + vm_compute. apply NoDup_cons. split; [|apply NoDup_singleton].
      intros Hin%list_elem_of_singleton. discriminate.
  - destruct (_convert_to_rule_graph ex_argspec ex_graph) as [e|rule_graph] eqn:Hc;
      [vm_compute in Hc; discriminate|].
    exists rule_graph.
    assert (Hlook : rule_graph !! "a" = Some (_ComputeRule ["a"] "f" ["x"; "y"])).
    { vm_compute in Hc. injection Hc as <-. vm_compute. reflexivity. }
    split; [reflexivity|]. split; [exact Hlook|].
    apply (proj2 (convert_rejects_variable_arguments ex_argspec ex_graph)
             rule_graph "a" ["a"] "f" ["x"; "y"] Hc Hlook).
Defined.

(** X7. The subgraph that [Graph.subgraph] returns is the least one: a name
    is in it exactly when it is a target or is needed, through the
    dependencies of the resolved rules, for a target, and it is mapped to the
    rule that [_rule_for] gives for it. The result does not depend on the
    order of the targets. *)
Theorem subgraph_minimal {Func} `{EqDecision Func}
    (graph : gmap string (_Rule Func)) (data : Data) (targets : list string)
    (fuel : nat) (sub : gmap string (_Rule Func)) :
  subgraph fuel graph data targets = Some (inr sub) →
  (∀ n rule, sub !! n = Some rule ↔
     needed_for graph data targets n ∧ _rule_for graph n data = inr rule)
  ∧ (∀ targets' fuel' sub',
       targets' ≡ₚ targets →
       subgraph fuel' graph data targets' = Some (inr sub') → sub' = sub).
Proof.
  intros Hsub. split; [by eapply subgraph_exactly|].
  intros targets' fuel' sub' Hperm Hsub'. apply map_eq. intros n.
  apply option_eq. intros rule. split; intros Hn.
  - apply (subgraph_exactly _ _ _ _ _ Hsub).
    apply (subgraph_exactly _ _ _ _ _ Hsub') in Hn as [(t & Ht & Hpath) Hrule].
    split; [|done]. exists t. split; [by rewrite <- Hperm|done].
  - apply (subgraph_exactly _ _ _ _ _ Hsub').
    apply (subgraph_exactly _ _ _ _ _ Hsub) in Hn as [(t & Ht & Hpath) Hrule].
    split; [|done]. exists t. split; [by rewrite Hperm|done].
Qed.

Lemma subgraph_minimal_witness :
  ∃ sub, subgraph 20 ex_rule_graph ex_data ["d"] = Some (inr sub)
    ∧ sub !! "c" = Some (_ComputeRule ["b"; "c"] "g" ["a"])
    ∧ sub !! "b" = None
    ∧ needed_for ex_rule_graph ex_data ["d"] "c".
Proof.
  destruct (subgraph 20 ex_rule_graph ex_data ["d"]) as [[e|sub]|] eqn:Hsub;
    [vm_compute in Hsub; discriminate| |vm_compute in Hsub; discriminate].
  exists sub. split; [reflexivity|].
  assert (Hc : sub !! "c" = Some (_ComputeRule ["b"; "c"] "g" ["a"])
               ∧ sub !! "b" = None).
  { vm_compute in Hsub. injection Hsub as <-. vm_compute. split; reflexivity. }
  destruct Hc as [Hc Hb]. split; [exact Hc|]. split; [exact Hb|].
  apply (proj1 (subgraph_minimal ex_rule_graph ex_data ["d"] 20%nat sub Hsub)
           "c" _), proj1 in Hc.
  exact Hc.
Defined.

(** X8. When every target is metadata of the input, the transform computes
    nothing: the rule sequence is found within one iteration per target,
    whatever the graph holds (rules for the targets, rules that depend on
    each other, names without rule), and it consists of one fetch rule per
    target. *)
Theorem existing_targets_are_fetched {Func} `{EqDecision Func}
    (graph : gmap string (_Rule Func)) (data : Data) (targets : list string) :
  (∀ t, t ∈ targets → _is_meta_data t data = true) →
  ∃ rules,
    rule_sequence_for (length targets) graph data targets = Some (inr rules)
    ∧ NoDup rules
    ∧ ∀ rule, rule ∈ rules ↔ ∃ t, t ∈ targets ∧ rule = _FetchRule [t].
Proof.
  intros Hmeta.
  destruct (subgraph_loop_fetch graph data (reverse targets) (length targets) ∅)
    as [sub Hsub].
  { by rewrite length_reverse. }
  { intros n Hn. rewrite elem_of_reverse in Hn. by apply Hmeta. }
  change (subgraph (length targets) graph data targets = Some (inr sub)) in Hsub.
  pose proof (subgraph_exactly _ _ _ _ _ Hsub) as Hexact.
  assert (Hentry : ∀ n rule, sub !! n = Some rule ↔ n ∈ targets ∧ rule = _FetchRule [n]).
  { intros n rule. rewrite Hexact. split.
    - intros [(t & Ht & Hpath) Hrule].
      assert (n = t) as ->.
      { destruct Hpath as [|t m n (rule' & Hrule' & Hm) _]; [done|].
        unfold _rule_for in Hrule'. rewrite (Hmeta t Ht) in Hrule'.
        injection Hrule' as <-. by apply elem_of_nil in Hm. }
      split; [done|]. unfold _rule_for in Hrule. rewrite (Hmeta t Ht) in Hrule.
      by injection Hrule as <-.
    - intros [Hn ->]. split; [exists n; by split|].
      unfold _rule_for. by rewrite (Hmeta n Hn). }
  destruct (non_duplicate_rules_spec sub) as (rules & Hseq & Hnd & Hmem & _).
  - intros n rule d [_ ->]%Hentry Hd. by apply elem_of_nil in Hd.
  - intros n rule [_ ->]%Hentry. simpl. by apply list_elem_of_singleton.
  - intros n Htc.
    assert (Hno : ∀ a b, ¬ depends sub a b).
    { intros a b (rule & [_ ->]%Hentry & Hb). by apply elem_of_nil in Hb. }
    destruct Htc as [a b Hab|a b c Hab _]; by apply Hno in Hab.
  - exists rules. split_and!; [|done|].
    + unfold rule_sequence_for. rewrite Hsub. simpl. by rewrite Hseq.
    + intros rule. rewrite Hmem. split.
      * intros (n & [Hn ->]%Hentry). by exists n.
      * intros (t & Ht & ->). exists t. by apply Hentry.
Qed.

Lemma existing_targets_are_fetched_witness :
  ∃ rules,
    rule_sequence_for 2 ex_cyclic ex_data ["x"; "y"] = Some (inr rules)
    ∧ ∀ rule, rule ∈ rules ↔ ∃ t, t ∈ ["x"; "y"] ∧ rule = _FetchRule [t].
Proof.
  destruct (existing_targets_are_fetched ex_cyclic ex_data ["x"; "y"])
    as (rules & Hseq & _ & Hmem).
  - intros t [->|[->|Ht%elem_of_nil]%elem_of_cons]%elem_of_cons;
      [vm_compute; reflexivity..|done].
  - exists rules. split; [exact Hseq|exact Hmem].
Defined.

(** X9. [_non_duplicate_rules] needs a rule for every dependency: on rules
    without a cycle in which some rule depends on a name that has no rule of
    its own, it raises [KeyError] for a name without a rule. *)
Theorem non_duplicate_rules_key_error {Func} `{EqDecision Func}
    (rules : gmap string (_Rule Func)) (n d : string) (rule : _Rule Func) :
  acyclic rules →
  rules !! n = Some rule → d ∈ dependencies rule → rules !! d = None →
  ∃ d', _non_duplicate_rules rules = inl (KeyError d') ∧ rules !! d' = None.
Proof.
  intros Hacyc Hn Hd Hnone. unfold _non_duplicate_rules, _sort_topologically.
  destruct (static_order_complete (dependencies <$> rules)) as [order Horder].
  { intros m Htc. apply (Hacyc m). eapply tc_congruence with (f := id); [|done].
    intros ??. apply edge_depends. }
  rewrite Horder. simpl.
  apply static_order_sound in Horder as (Hperm & _ & _).
  apply (non_duplicate_loop_missing rules order [] [] d); [|done].
  rewrite Hperm. eapply edge_nodes. apply edge_depends. by exists rule.
Qed.

Lemma non_duplicate_rules_key_error_witness :
  _non_duplicate_rules ex_open = inl (KeyError "x")
  ∧ ∃ d', _non_duplicate_rules ex_open = inl (KeyError d') ∧ ex_open !! d' = None.
Proof.
  split; [vm_compute; reflexivity|].
  apply (non_duplicate_rules_key_error ex_open "a" "x" (_ComputeRule ["a"] "f" ["x"])).
  - eapply (sorted_acyclic ex_open). vm_compute. reflexivity.
  - vm_compute. reflexivity.
  - simpl. apply list_elem_of_singleton. reflexivity.
  - vm_compute. reflexivity.
Defined.

(** C4, as the code has it. When the rule of [a] depends on [b] and the rule
    of [b] on [a], neither name is metadata of the input, and a target is [a]
    or [b], the search for the subgraph finishes and no rule sequence is
    produced. When every name needed for the targets can be resolved, the
    subgraph is built and the topological sort raises the cycle error;
    otherwise the search raises the Coordinate-not-found error of a name
    that is needed for the targets and cannot be resolved. *)
Theorem cycle_raises {Func} `{EqDecision Func}
    (graph : gmap string (_Rule Func)) (data : Data) (targets : list string)
    (a b : string) (rule_a rule_b : _Rule Func) :
  graph !! a = Some rule_a → b ∈ dependencies rule_a →
  graph !! b = Some rule_b → a ∈ dependencies rule_b →
  _is_meta_data a data = false → _is_meta_data b data = false →
  a ∈ targets ∨ b ∈ targets →
  (∃ fuel r, rule_sequence_for fuel graph data targets = Some r)
  ∧ (∀ fuel r, rule_sequence_for fuel graph data targets = Some r →
       (r = inl CycleError
        ∧ (∃ sub, subgraph fuel graph data targets = Some (inr sub))
        ∧ all_resolved graph data targets)
       ∨ (∃ n, r = inl (CoordError n)
            ∧ subgraph fuel graph data targets = Some (inl (CoordError n))
            ∧ needed_for graph data targets n
            ∧ _rule_for graph n data = inl (CoordError n)))
  ∧ (all_resolved graph data targets →
     (∃ fuel, rule_sequence_for fuel graph data targets = Some (inl CycleError))
     ∧ ∀ fuel r, rule_sequence_for fuel graph data targets = Some r →
         r = inl CycleError)
  ∧ (¬ all_resolved graph data targets →
     ∀ fuel r, rule_sequence_for fuel graph data targets = Some r →
       ∃ n, r = inl (CoordError n) ∧ needed_for graph data targets n
         ∧ _rule_for graph n data = inl (CoordError n)).
Proof.
  intros Ha Hab Hb Hba Hma Hmb Htarget.
  assert (Hterm : ∃ fuel r, rule_sequence_for fuel graph data targets = Some r).
  { destruct (subgraph_loop_terminates graph data ∅ (reverse targets))
      as (fuel & r & Hr).
    exists fuel. unfold rule_sequence_for, subgraph. rewrite Hr. simpl. by eexists. }
  assert (Hcases : ∀ fuel r, rule_sequence_for fuel graph data targets = Some r →
            (r = inl CycleError
             ∧ (∃ sub, subgraph fuel graph data targets = Some (inr sub))
             ∧ all_resolved graph data targets)
            ∨ (∃ n, r = inl (CoordError n)
                 ∧ subgraph fuel graph data targets = Some (inl (CoordError n))
                 ∧ needed_for graph data targets n
                 ∧ _rule_for graph n data = inl (CoordError n))).
  { intros fuel r. unfold rule_sequence_for.
    destruct (subgraph fuel graph data targets) as [[e|sub]|] eqn:Hsub; simpl;
      [| |done].
    { intros [= <-]. right.
      destruct (subgraph_error_needed _ _ _ _ _ Hsub) as (n & -> & Hneed & Hn).
      by exists n. }
    intros [= <-]. left.
    destruct (subgraph_inv _ _ _ _ _ Hsub) as (Hres & Hcl & Htargets).
    assert (Hsub_rule : ∀ n rule, graph !! n = Some rule →
              _is_meta_data n data = false → is_Some (sub !! n) →
              sub !! n = Some rule).
    { intros n rule Hn Hm [rule' Hrule']. rewrite Hrule'.
      apply Hres, rule_for_inv in Hrule' as [[? _]|[_ ?]]; congruence. }
    assert (Hboth : sub !! a = Some rule_a ∧ sub !! b = Some rule_b).
    { destruct Htarget as [Ht|Ht].
      - assert (Hsa : sub !! a = Some rule_a) by (apply Hsub_rule; auto).
        split; [done|]. apply Hsub_rule; [done..|]. by eapply Hcl.
      - assert (Hsb : sub !! b = Some rule_b) by (apply Hsub_rule; auto).
        split; [|done]. apply Hsub_rule; [done..|]. by eapply Hcl. }
    destruct Hboth as [Hsa Hsb]. split_and!.
    - unfold _non_duplicate_rules, _sort_topologically.
      rewrite (static_order_cycle (dependencies <$> sub) a); [done|].
      eapply tc_l; [|apply tc_once]; apply edge_depends; by eexists.
    - by exists sub.
    - intros n Hneed.
      destruct (sub !! n) as [rule|] eqn:Hn.
      + exists rule. by apply Hres.
      + exfalso. pose proof (subgraph_exactly _ _ _ _ _ Hsub) as Hexact.
        destruct Hneed as (t & Ht & Hpath).
        assert (Hsome : is_Some (sub !! n)); [|rewrite Hn in Hsome; by destruct Hsome].
        apply Htargets in Ht. clear Hn.
        induction Hpath as [t|t m n Htm _ IH]; [done|].
        apply IH. destruct Ht as [rule Hrule].
        destruct Htm as (rule' & Hrule' & Hm).
        rewrite (Hres _ _ Hrule) in Hrule'. injection Hrule' as <-.
        by eapply Hcl. }
  split; [exact Hterm|]. split; [exact Hcases|]. split.
  - intros Hall.
    assert (Honly : ∀ fuel r, rule_sequence_for fuel graph data targets = Some r →
              r = inl CycleError).
    { intros fuel r Hr.
      destruct (Hcases fuel r Hr) as [[-> _]|(n & _ & _ & Hneed & Hn)]; [done|].
      destruct (Hall n Hneed) as [rule Hrule]. congruence. }
    split; [|exact Honly].
    destruct Hterm as (fuel & r & Hr). exists fuel. by rewrite Hr, (Honly _ _ Hr).
  - intros Hnot fuel r Hr.
    destruct (Hcases fuel r Hr) as [(_ & _ & Hall)|(n & -> & _ & Hneed & Hn)];
      [done|]. by exists n.
Qed.

Lemma cycle_raises_witness :
  rule_sequence_for 20 ex_cyclic ex_no_data ["a"] = Some (inl CycleError)
  ∧ all_resolved ex_cyclic ex_no_data ["a"]
  ∧ ∀ fuel r, rule_sequence_for fuel ex_cyclic ex_no_data ["a"] = Some r →
      r = inl CycleError.
Proof.
  assert (Hrun : rule_sequence_for 20 ex_cyclic ex_no_data ["a"]
                 = Some (inl CycleError)) by (vm_compute; reflexivity).
  split; [exact Hrun|].
  destruct (cycle_raises ex_cyclic ex_no_data ["a"] "a" "b"
              (_RenameRule ["a"] "b") (_RenameRule ["b"] "a"))
    as (_ & Hcases & Hall & _).
  - vm_compute. reflexivity.
  - simpl. apply list_elem_of_singleton. reflexivity.
  - vm_compute. reflexivity.
  - simpl. apply list_elem_of_singleton. reflexivity.
  - vm_compute. reflexivity.
  - vm_compute. reflexivity.
  - left. apply list_elem_of_singleton. reflexivity.
  - destruct (Hcases 20%nat _ Hrun) as [(_ & _ & Hres)|(n & Hn & _)];
      [|discriminate Hn].
    split; [exact Hres|]. exact (proj2 (Hall Hres)).
Defined.

End RuleGraphFacts.

(* ===================================================================== *)
(** * Part VIII: more on the renaming of dimensions
      ([coords/transform_coords.py])                                      *)
(* ===================================================================== *)

Module RenameDimsFacts.

Import RenameDims.

(** [child] is one of [graph.children_of(parent)]. *)
Definition child_of (graph : Graph) (parent child : string) : Prop :=
  child ∈ children_of graph parent.

(** [node] is [dim] or is reached from [dim] through children. *)
Definition below (graph : Graph) (dim node : string) : Prop :=
  rtc (child_of graph) dim node.

(** The colors of a node before any coloring. *)
Definition zeros (dim_coords : list string) : gmap string Q :=
  list_to_map ((λ dim, (dim, 0%Q)) <$> dim_coords).

(** The two dicts of colors have the same nodes. *)
Definition same_nodes (colors colors' : Colors) : Prop :=
  ∀ n, is_Some (colors' !! n) ↔ is_Some (colors !! n).

(** A node has a color other than 0 only for dimensions it is below. *)
Definition colored_below (graph : Graph) (colors : Colors) : Prop :=
  ∀ n c d q, colors !! n = Some c → c !! d = Some q → ¬ (q == 0)%Q →
    below graph d n.

(** A step of the coloring started on [colors] either keeps the nodes or
    raises [KeyError] for a name that is not a node. *)
Definition outcome (colors : Colors) (r : res Colors) : Prop :=
  match r with
  | inr colors' => same_nodes colors colors'
  | inl e => ∃ name, e = KeyError name ∧ colors !! name = None
  end.

(** The body of the loop over the children in [_color_dims]. *)
Definition color_child (dim_coords : list string) (dim coord : string)
    (n_children : nat) (child : string) (colors : Colors) : res Colors :=
  if bool_decide (child ∈ dim_coords) then ok colors
  else
    old ← color colors child dim;
    q ← color colors coord dim;
    set_color colors child dim (old + q * (1 # Pos.of_nat n_children))%Q.

(** A graph in which the dimension coordinate [x] is not a node. *)
Definition ex_graph_missing : Graph :=
  mkGraph ["y"; "c"]
    (λ node, if decide (node = "y") then ["c"] else [])
    ["y"; "c"].

(** ** The colors of the nodes *)

Lemma zeros_lookup dim_coords d q : zeros dim_coords !! d = Some q → q = 0%Q.
Proof.
  intros Hq%elem_of_list_to_map_2.
  apply list_elem_of_fmap in Hq as (x & [= _ ->] & _). done.
Qed.

Lemma init_colors_lookup graph dim_coords n c :
  init_colors graph dim_coords !! n = Some c →
  c = zeros dim_coords ∧ n ∈ nodes graph.
Proof.
  intros Hc%elem_of_list_to_map_2.
  apply list_elem_of_fmap in Hc as (x & [= -> ->] & Hx). done.
Qed.

Lemma init_colors_None graph dim_coords n :
  init_colors graph dim_coords !! n = None → n ∉ nodes graph.
Proof.
  intros Hn%not_elem_of_list_to_map_2. rewrite <- list_fmap_compose in Hn.
  intros Hin. apply Hn. apply list_elem_of_fmap. by exists n.
Qed.

Lemma set_color_inv colors coord dim q colors' :
  set_color colors coord dim q = inr colors' →
  ∃ c, colors !! coord = Some c ∧ colors' = <[coord := <[dim := q]> c]> colors.
Proof.
  unfold set_color. destruct (colors !! coord) as [c|]; [|done].
  intros [= <-]. by exists c.
Qed.

Lemma color_child_inv dim_coords dim coord k child colors colors' :
  color_child dim_coords dim coord k child colors = inr colors' →
  (child ∈ dim_coords ∧ colors' = colors)
  ∨ ((child ∉ dim_coords)
     ∧ ∃ c q, colors !! child = Some c ∧ colors' = <[child := <[dim := q]> c]> colors).
Proof.
  unfold color_child. case_bool_decide as Hc.
  - intros [= <-]. by left.
  - destruct (color colors child dim) as [e|old]; [done|]. simpl.
    destruct (color colors coord dim) as [e|q]; [done|]. simpl.
    intros (c & Hchild & ->)%set_color_inv. right. split; [done|]. by eexists _, _.
Qed.

Lemma color_children_cons dim_coords dim coord k child children colors :
  color_children dim_coords dim coord k (child :: children) colors
  = (colors ← color_child dim_coords dim coord k child colors;
     color_children dim_coords dim coord k children colors).
Proof. done. Qed.

(** *** The colors of the dimension coordinates are not changed by the
        traversal *)

Lemma color_children_fixed dim_coords dim coord k children :
  ∀ colors colors',
    color_children dim_coords dim coord k children colors = inr colors' →
    ∀ n, n ∈ dim_coords → colors' !! n = colors !! n.
Proof.
  induction children as [|child children IH]; intros colors colors'.
  - simpl. by intros [= <-].
  - rewrite color_children_cons.
    destruct (color_child dim_coords dim coord k child colors) as [e|colors1] eqn:Hc;
      [done|]. simpl. intros Hrest n Hn. rewrite (IH _ _ Hrest n Hn).
    apply color_child_inv in Hc as [[_ ->]|(Hchild & c & q & _ & ->)]; [done|].
    apply lookup_insert_ne. by intros ->.
Qed.

Lemma depth_first_fixed fuel graph dim_coords dim :
  ∀ stack colors colors',
    depth_first fuel graph dim_coords dim stack colors = Some (inr colors') →
    ∀ n, n ∈ dim_coords → colors' !! n = colors !! n.
Proof.
  induction fuel as [|fuel IH]; intros stack colors colors'.
  - destruct stack; [|done]. simpl. by intros [= <-].
  - destruct stack as [|coord stack]; simpl; [by intros [= <-]|].
    destruct (color_children dim_coords dim coord (length (children_of graph coord))
                (children_of graph coord) colors) as [e|colors1] eqn:Hc; [done|].
    intros Hrest n Hn. rewrite (IH _ _ _ Hrest n Hn).
    by eapply color_children_fixed.
Qed.

(** After the coloring, a dimension coordinate has the color 1 for itself
    and the colors it had before for the others. *)
Lemma color_dims_loop_dim fuel graph dim_coords dims :
  ∀ colors colors',
    color_dims_loop fuel graph dim_coords dims colors = Some (inr colors') →
    ∀ n, n ∈ dim_coords →
      (n ∈ dims → is_Some (colors !! n))
      ∧ colors' !! n = if decide (n ∈ dims)
                       then (λ c, <[n := 1%Q]> c) <$> colors !! n
                       else colors !! n.
Proof.
  induction dims as [|dim dims IH]; intros colors colors'.
  - simpl. intros [= <-] n Hn. split; [by intros ?%elem_of_nil|done].
  - simpl. destruct (set_color colors dim dim 1) as [e|colors1] eqn:Hset; [done|].
    destruct (depth_first fuel graph dim_coords dim [dim] colors1)
      as [[e|colors2]|] eqn:Hdf; [done| |done].
    intros Hrest n Hn.
    destruct (IH _ _ Hrest n Hn) as [Hsome Hlook].
    pose proof (depth_first_fixed _ _ _ _ _ _ _ Hdf n Hn) as H21.
    apply set_color_inv in Hset as (c & Hc & ->).
    rewrite H21 in Hsome, Hlook. rewrite lookup_insert in Hsome, Hlook.
    destruct (decide (dim = n)) as [->|Hne].
    + split; [by rewrite Hc|]. rewrite decide_True by (by left).
      rewrite Hlook, Hc. case_decide; simpl; [|done].
      by rewrite insert_insert_eq.
    + split.
      * intros [?|Hin]%elem_of_cons; [done|]. by apply Hsome.
      * rewrite Hlook. destruct (decide (n ∈ dims)) as [Hin|Hin].
        -- rewrite decide_True by (by right). done.
        -- rewrite decide_False; [done|]. by intros [?|?]%elem_of_cons.
Qed.

Lemma color_dims_dim fuel graph dim_coords colors dim :
  _color_dims fuel graph dim_coords = Some (inr colors) →
  dim ∈ dim_coords →
  dim ∈ nodes graph ∧ colors !! dim = Some (<[dim := 1%Q]> (zeros dim_coords)).
Proof.
  intros Hc Hdim. unfold _color_dims in Hc.
  destruct (color_dims_loop_dim _ _ _ _ _ _ Hc dim Hdim) as [Hsome Hlook].
  rewrite decide_True in Hlook by done.
  destruct (Hsome Hdim) as [c Hinit]. rewrite Hinit in Hlook.
  apply init_colors_lookup in Hinit as [-> Hnode]. done.
Qed.

Lemma full_color_of_own_dim dim_coords dim :
  _has_full_color_of_dim (<[dim := 1%Q]> (zeros dim_coords)) dim = true.
Proof.
  apply has_full_color_iff. intros d q. rewrite lookup_insert.
  case_decide as Hd.
  - intros [= <-]. rewrite decide_True by done. reflexivity.
  - intros ->%zeros_lookup. rewrite decide_False by done.
    intros Heq. discriminate Heq.
Qed.

(** *** Colors stay below their dimension *)

Lemma colored_below_insert graph colors coord c dim q :
  colored_below graph colors → colors !! coord = Some c →
  below graph dim coord →
  colored_below graph (<[coord := <[dim := q]> c]> colors).
Proof.
  intros Hinv Hc Hbelow n c' d q'. rewrite lookup_insert. case_decide as Hn.
  - intros [= <-]. subst n. rewrite lookup_insert. case_decide as Hd.
    + intros _ _. by subst d.
    + intros Hq. by apply (Hinv coord c d q').
  - apply Hinv.
Qed.

Lemma color_children_below graph dim_coords dim coord k children :
  below graph dim coord →
  (∀ child, child ∈ children → child_of graph coord child) →
  ∀ colors colors',
    color_children dim_coords dim coord k children colors = inr colors' →
    colored_below graph colors → colored_below graph colors'.
Proof.
  intros Hcoord. induction children as [|child children IH]; intros Hch colors colors'.
  - simpl. by intros [= <-].
  - rewrite color_children_cons.
    destruct (color_child dim_coords dim coord k child colors) as [e|colors1] eqn:Hc;
      [done|]. simpl. intros Hrest Hinv. eapply IH; [|done|].
    + intros ch Hin. apply Hch. by right.
    + apply color_child_inv in Hc as [[_ ->]|(_ & c & q & Hchild & ->)]; [done|].
      apply colored_below_insert; [done..|].
      eapply rtc_r; [done|]. apply Hch. by left.
Qed.

Lemma depth_first_below fuel graph dim_coords dim :
  ∀ stack colors colors',
    depth_first fuel graph dim_coords dim stack colors = Some (inr colors') →
    (∀ n, n ∈ stack → below graph dim n) →
    colored_below graph colors → colored_below graph colors'.
Proof.
  induction fuel as [|fuel IH]; intros stack colors colors'.
  - destruct stack; [|done]. simpl. by intros [= <-].
  - destruct stack as [|coord stack]; simpl; [by intros [= <-]|].
    destruct (color_children dim_coords dim coord (length (children_of graph coord))
                (children_of graph coord) colors) as [e|colors1] eqn:Hc; [done|].
    intros Hrest Hstack Hinv.
    assert (Hcoord : below graph dim coord) by (apply Hstack; by left).
    eapply IH; [done| |].
    + intros n [Hn|Hn]%elem_of_app.
      * rewrite elem_of_reverse in Hn. by eapply rtc_r.
      * apply Hstack. by right.
    + eapply color_children_below; [done| |done|done]. done.
Qed.

Lemma color_dims_loop_below fuel graph dim_coords dims :
  ∀ colors colors',
    color_dims_loop fuel graph dim_coords dims colors = Some (inr colors') →
    colored_below graph colors → colored_below graph colors'.
Proof.
  induction dims as [|dim dims IH]; intros colors colors'.
  - simpl. by intros [= <-].
  - simpl. destruct (set_color colors dim dim 1) as [e|colors1] eqn:Hset; [done|].
    destruct (depth_first fuel graph dim_coords dim [dim] colors1)
      as [[e|colors2]|] eqn:Hdf; [done| |done].
    intros Hrest Hinv. eapply IH; [done|].
    eapply depth_first_below; [done| |].
    + intros n ->%list_elem_of_singleton. apply rtc_refl.
    + apply set_color_inv in Hset as (c & Hc & ->).
      apply colored_below_insert; [done..|]. apply rtc_refl.
Qed.

Lemma color_dims_below fuel graph dim_coords colors :
  _color_dims fuel graph dim_coords = Some (inr colors) →
  colored_below graph colors.
Proof.
  intros Hc. eapply color_dims_loop_below; [exact Hc|].
  intros n c d q [-> _]%init_colors_lookup ->%zeros_lookup Hq.
  by destruct Hq.
Qed.

(** *** Errors *)

Lemma same_nodes_refl colors : same_nodes colors colors.
Proof. by intros n. Qed.

Lemma same_nodes_insert colors coord c c' :
  colors !! coord = Some c → same_nodes colors (<[coord := c']> colors).
Proof.
  intros Hc n. rewrite lookup_insert. case_decide; [|done].
  subst n. rewrite Hc. split; by eexists.
Qed.

Lemma outcome_trans colors colors1 r :
  same_nodes colors colors1 → outcome colors1 r → outcome colors r.
Proof.
  intros Hs. destruct r as [e|colors']; simpl.
  - intros (name & -> & Hnone). exists name. split; [done|].
    apply eq_None_not_Some. intros Hsome%Hs. rewrite Hnone in Hsome.
    by destruct Hsome.
  - intros Hs' n. rewrite (Hs' n). apply Hs.
Qed.

Lemma color_outcome dim_coords colors coord dim e :
  colors_over dim_coords colors → dim ∈ dim_coords →
  color colors coord dim = inl e →
  e = KeyError coord ∧ colors !! coord = None.
Proof.
  intros Hover Hdim. unfold color.
  destruct (colors !! coord) as [c|] eqn:Hc; [|by intros [= <-]].
  destruct (c !! dim) as [q|] eqn:Hq; [done|].
  destruct (proj2 (Hover coord c Hc dim) Hdim) as [q' Hq']. congruence.
Qed.

Lemma color_child_outcome dim_coords dim coord k child colors :
  colors_over dim_coords colors → dim ∈ dim_coords →
  outcome colors (color_child dim_coords dim coord k child colors).
Proof.
  intros Hover Hdim. unfold color_child. case_bool_decide.
  { apply same_nodes_refl. }
  destruct (color colors child dim) as [e|old] eqn:Hold.
  { simpl. apply (color_outcome dim_coords) in Hold as [-> Hnone]; [|done..].
    by exists child. }
  simpl. destruct (color colors coord dim) as [e|q] eqn:Hq.
  { simpl. apply (color_outcome dim_coords) in Hq as [-> Hnone]; [|done..].
    by exists coord. }
  simpl. unfold set_color. destruct (colors !! child) as [c|] eqn:Hc.
  - simpl. by eapply same_nodes_insert.
  - simpl. by exists child.
Qed.

Lemma color_children_outcome dim_coords dim coord k children :
  dim ∈ dim_coords →
  ∀ colors, colors_over dim_coords colors →
    outcome colors (color_children dim_coords dim coord k children colors).
Proof.
  intros Hdim. induction children as [|child children IH]; intros colors Hover.
  - simpl. apply same_nodes_refl.
  - rewrite color_children_cons.
    pose proof (color_child_outcome dim_coords dim coord k child colors Hover Hdim)
      as Hstep.
    destruct (color_child dim_coords dim coord k child colors) as [e|colors1] eqn:Hc;
      [done|]. simpl. eapply outcome_trans; [exact Hstep|]. apply IH.
    apply color_child_inv in Hc as [[_ ->]|(_ & c & q & Hchild & ->)]; [done|].
    eapply (set_color_over dim_coords colors child dim q); [|done..].
    unfold set_color. by rewrite Hchild.
Qed.

Lemma depth_first_outcome fuel graph dim_coords dim :
  dim ∈ dim_coords →
  ∀ stack colors r,
    depth_first fuel graph dim_coords dim stack colors = Some r →
    colors_over dim_coords colors → outcome colors r.
Proof.
  intros Hdim. induction fuel as [|fuel IH]; intros stack colors r.
  - destruct stack; [|done]. simpl. intros [= <-] _. apply same_nodes_refl.
  - destruct stack as [|coord stack]; simpl;
      [intros [= <-] _; apply same_nodes_refl|].
    pose proof (color_children_outcome dim_coords dim coord
                  (length (children_of graph coord)) (children_of graph coord) Hdim
                  colors) as Hstep.
    destruct (color_children dim_coords dim coord (length (children_of graph coord))
                (children_of graph coord) colors) as [e|colors1] eqn:Hc.
    + intros [= <-] Hover. by apply Hstep.
    + intros Hrest Hover. eapply outcome_trans; [by apply Hstep|].
      eapply IH; [done|]. by eapply color_children_over.
Qed.

Lemma color_dims_loop_outcome fuel graph dim_coords dims :
  (∀ d, d ∈ dims → d ∈ dim_coords) →
  ∀ colors r,
    color_dims_loop fuel graph dim_coords dims colors = Some r →
    colors_over dim_coords colors → outcome colors r.
Proof.
  induction dims as [|dim dims IH]; intros Hdims colors r.
  - simpl. intros [= <-] _. apply same_nodes_refl.
  - simpl. assert (Hdim : dim ∈ dim_coords) by (apply Hdims; by left).
    destruct (set_color colors dim dim 1) as [e|colors1] eqn:Hset.
    { intros [= <-] _. unfold set_color in Hset.
      destruct (colors !! dim) eqn:Hc; [done|]. injection Hset as <-.
      by exists dim. }
    pose proof (set_color_over _ _ _ _ _ _ Hset Hdim) as Hover1.
    apply set_color_inv in Hset as (c & Hc & ->).
    destruct (depth_first fuel graph dim_coords dim [dim]
                (<[dim := <[dim := 1%Q]> c]> colors)) as [[e|colors2]|] eqn:Hdf;
      [| |done].
    + intros [= <-] Hover. eapply outcome_trans; [by eapply same_nodes_insert|].
      eapply (depth_first_outcome _ _ _ _ Hdim _ _ (inl e)); [done|]. by apply Hover1.
    + intros Hrest Hover. eapply outcome_trans; [by eapply same_nodes_insert|].
      eapply outcome_trans.
      * eapply (depth_first_outcome _ _ _ _ Hdim _ _ (inr colors2)); [done|].
        by apply Hover1.
      * eapply IH; [|done|].
        -- intros d Hd. apply Hdims. by right.
        -- eapply depth_first_over; [done|done|]. by apply Hover1.
Qed.

(** X10. When the rename analysis returns, every dimension coordinate is
    eligible for its own dimension, and every dimension coordinate that the
    topological order of the graph lists has a new name: itself or a node
    that the reversed order lists before it. A dimension for which no other
    node is eligible is renamed to itself. *)
Theorem dim_name_changes_entry (rule_graph : Graph) (dim_coords : list string)
    (fuel : nat) (colors : Colors) (name_changes : gmap string string) (dim : string) :
  _color_dims fuel rule_graph dim_coords = Some (inr colors) →
  _dim_name_changes fuel rule_graph dim_coords = Some (inr name_changes) →
  dim ∈ dim_coords →
  eligible colors dim_coords dim dim
  ∧ (dim ∈ nodes_topologically rule_graph →
     ∃ node before after,
       name_changes !! dim = Some node
       ∧ reverse (nodes_topologically rule_graph) = before ++ node :: after
       ∧ (node = dim ∨ dim ∈ after)
       ∧ ((∀ n, n ≠ dim → ¬ eligible colors dim_coords dim n) → node = dim)).
Proof.
  intros Hcolors Hchanges Hdim.
  pose proof (color_dims_over _ _ _ _ Hcolors) as Hover.
  destruct (color_dims_dim _ _ _ _ _ Hcolors Hdim) as [Hnode Hown].
  assert (Hel : eligible colors dim_coords dim dim).
  { apply (eligible_iff colors dim_coords dim dim _ Hown (Hover _ _ Hown) Hdim).
    apply full_color_of_own_dim. }
  split; [done|]. intros Htopo.
  unfold _dim_name_changes in Hchanges. rewrite Hcolors in Hchanges.
  simpl in Hchanges. injection Hchanges as Hchanges.
  apply name_changes_loop_spec in Hchanges as [_ Hin].
  destruct (Hin dim Hdim) as (found & Hfound & Hlook).
  apply first_full_spec in Hfound. destruct found as [node|].
  - destruct Hfound as (before & after & c & Hrev & Hc & Hfull & Hbefore).
    exists node, before, after. split_and!; [done|done| |].
    + assert (Hd : dim ∈ before ++ node :: after).
      { rewrite <- Hrev. by apply elem_of_reverse. }
      apply elem_of_app in Hd as [Hd|Hd].
      * destruct (Hbefore dim Hd) as (c' & Hc' & Hfalse).
        rewrite Hown in Hc'. injection Hc' as <-.
        by rewrite full_color_of_own_dim in Hfalse.
      * apply elem_of_cons in Hd as [->|Hd]; [by left|by right].
    + intros Hno. destruct (decide (node = dim)) as [?|Hne]; [done|].
      destruct (Hno node Hne).
      by apply (eligible_iff colors dim_coords dim node c Hc (Hover node c Hc) Hdim).
  - destruct (Hfound dim) as (c' & Hc' & Hfalse); [by apply elem_of_reverse|].
    rewrite Hown in Hc'. injection Hc' as <-.
    by rewrite full_color_of_own_dim in Hfalse.
Qed.

Lemma dim_name_changes_entry_witness :
  ∃ colors name_changes,
    _color_dims 10 ex_graph ["x"; "y"] = Some (inr colors)
    ∧ _dim_name_changes 10 ex_graph ["x"; "y"] = Some (inr name_changes)
    ∧ eligible colors ["x"; "y"] "y" "y"
    ∧ name_changes !! "y" = Some "y".
Proof.
  destruct (_color_dims 10 ex_graph ["x"; "y"]) as [[e|colors]|] eqn:Hcolors;
    [vm_compute in Hcolors; discriminate| |vm_compute in Hcolors; discriminate].
  destruct (_dim_name_changes 10 ex_graph ["x"; "y"]) as [[e|name_changes]|]
    eqn:Hchanges;
    [vm_compute in Hchanges; discriminate| |vm_compute in Hchanges; discriminate].
  exists colors, name_changes. split; [reflexivity|]. split; [reflexivity|].
  destruct (dim_name_changes_entry ex_graph ["x"; "y"] 10 colors name_changes "y"
              Hcolors Hchanges) as [Hel _].
  - apply elem_of_cons. right. apply list_elem_of_singleton. reflexivity.
  - split; [exact Hel|].
    vm_compute in Hchanges. injection Hchanges as <-. vm_compute. reflexivity.
Defined.

(** X11. A dimension is renamed only to itself or to a node that is reached
    from it through children in the graph: a node that the traversal from
    the dimension coordinate does not reach keeps the color 0 for the
    dimension and is never chosen. *)
Theorem dim_name_changes_below (rule_graph : Graph) (dim_coords : list string)
    (fuel : nat) (name_changes : gmap string string) (dim node : string) :
  _dim_name_changes fuel rule_graph dim_coords = Some (inr name_changes) →
  name_changes !! dim = Some node →
  dim ∈ dim_coords ∧ below rule_graph dim node.
Proof.
  intros Hchanges Hnode. unfold _dim_name_changes in Hchanges.
  destruct (_color_dims fuel rule_graph dim_coords) as [[e|colors]|] eqn:Hcolors;
    [done| |done].
  simpl in Hchanges. injection Hchanges as Hchanges.
  pose proof (color_dims_over _ _ _ _ Hcolors) as Hover.
  pose proof (color_dims_below _ _ _ _ Hcolors) as Hbelow.
  apply name_changes_loop_spec in Hchanges as [Hout Hin].
  assert (Hdim : dim ∈ dim_coords).
  { destruct (decide (dim ∈ dim_coords)) as [?|Hno]; [done|].
    rewrite (Hout dim Hno), lookup_empty in Hnode. done. }
  split; [done|].
  destruct (Hin dim Hdim) as (found & Hfound & Hlook).
  rewrite Hnode in Hlook. apply first_full_spec in Hfound.
  destruct found as [node'|]; [|by rewrite lookup_empty in Hlook].
  injection Hlook as <-.
  destruct Hfound as (before & after & c & _ & Hc & Hfull & _).
  destruct (proj2 (Hover node c Hc dim) Hdim) as [q Hq].
  apply (Hbelow node c dim q Hc Hq).
  pose proof (proj1 (has_full_color_iff c dim) Hfull dim q Hq) as H1.
  rewrite decide_True in H1 by done. intros H0. rewrite H0 in H1.
  discriminate H1.
Qed.

Lemma dim_name_changes_below_witness :
  _dim_name_changes 10 ex_graph ["x"; "y"] = Some (inr {[ "x" := "b"; "y" := "y" ]})
  ∧ below ex_graph "x" "b".
Proof.
  assert (Hchanges : _dim_name_changes 10 ex_graph ["x"; "y"]
                     = Some (inr {[ "x" := "b"; "y" := "y" ]}))
    by (vm_compute; reflexivity).
  split; [exact Hchanges|].
  apply (dim_name_changes_below ex_graph ["x"; "y"] 10 _ "x" "b" Hchanges).
  vm_compute. reflexivity.
Defined.

(** X12. The coloring raises no other error than [KeyError] for a name that
    is not among [graph.nodes()], and it cannot return when a dimension
    coordinate is not a node: on a graph without cycle the analysis then
    raises such a [KeyError]. *)
Theorem color_dims_key_error (graph : Graph) (dim_coords : list string) :
  (∀ fuel e, _color_dims fuel graph dim_coords = Some (inl e) →
     ∃ name, e = KeyError name ∧ (name ∉ nodes graph)
       ∧ _dim_name_changes fuel graph dim_coords = Some (inl (KeyError name)))
  ∧ (∀ dim, dim ∈ dim_coords → dim ∉ nodes graph →
       (∀ fuel colors, _color_dims fuel graph dim_coords ≠ Some (inr colors))
       ∧ (well_founded (λ child parent, child ∈ children_of graph parent) →
          ∃ fuel name, (name ∉ nodes graph)
            ∧ _dim_name_changes fuel graph dim_coords = Some (inl (KeyError name)))).
Proof.
  assert (Herr : ∀ fuel e, _color_dims fuel graph dim_coords = Some (inl e) →
            ∃ name, e = KeyError name ∧ (name ∉ nodes graph)
              ∧ _dim_name_changes fuel graph dim_coords = Some (inl (KeyError name))).
  { intros fuel e Hc.
    pose proof (color_dims_loop_outcome fuel graph dim_coords dim_coords
                  ltac:(done) _ _ Hc (init_colors_over graph dim_coords))
      as (name & -> & Hnone).
    exists name. split_and!; [done|by eapply init_colors_None|].
    unfold _dim_name_changes. by rewrite Hc. }
  assert (Hnot : ∀ dim, dim ∈ dim_coords → dim ∉ nodes graph →
            ∀ fuel colors, _color_dims fuel graph dim_coords ≠ Some (inr colors)).
  { intros dim Hdim Hnode fuel colors Hc.
    by destruct (color_dims_dim _ _ _ _ _ Hc Hdim) as [? _]. }
  split; [exact Herr|]. intros dim Hdim Hnode. split; [by eapply Hnot|].
  intros Hwf.
  destruct (color_dims_loop_terminates graph dim_coords dim_coords Hwf
              (init_colors graph dim_coords)) as (fuel & r & Hr).
  destruct r as [e|colors]; [|by destruct (Hnot dim Hdim Hnode fuel colors)].
  destruct (Herr fuel e Hr) as (name & -> & Hname & Hch). by exists fuel, name.
Qed.

Lemma color_dims_key_error_witness :
  _dim_name_changes 10 ex_graph_missing ["x"; "y"] = Some (inl (KeyError "x"))
  ∧ ∀ fuel colors, _color_dims fuel ex_graph_missing ["x"; "y"] ≠ Some (inr colors).
Proof.
  split; [vm_compute; reflexivity|].
  apply (proj2 (color_dims_key_error ex_graph_missing ["x"; "y"]) "x").
  - apply elem_of_cons. by left.
  - intros [H|[H|H%elem_of_nil]%elem_of_cons]%elem_of_cons; [discriminate..|done].
Defined.

End RenameDimsFacts.

(* ===================================================================== *)
(** * Part IX: more on bin remapping ([core/bin_remapping.py])             *)
(* ===================================================================== *)

Module BinRemappingFacts.

Import BinRemapping.

(** The data of [ex_da] without masks; the coordinate ["x"] spans the
    dimension [x], ["t"] spans none. *)
Definition ex_plain : DataArray nat (list bool) :=
  mkDataArray (da_data ex_da)
    {[ "x" := mkMeta ["x"] [] ; "t" := mkMeta [] [] ]} ∅ ∅.

Lemma sum_dim_nonneg {E} (var : BinnedVar E) :
  valid_bins var → nonneg (sum_dim (bins_size var)).
Proof.
  intros [Hsh Hv] i j k (Hi & Hj & Hk). simpl in *.
  apply bool_decide_eq_true in Hsh as (H1 & H2 & H3).
  apply sumZ_nonneg. intros j' Hj'.
  destruct (Hv i j' k) as (_ & Hle & _); [|lia].
  split_and!; lia.
Qed.

Lemma sum_dim_total (a : Arr) : arr_total (sum_dim a) = arr_total a.
Proof.
  rewrite <- (arr_total_transpose a).
  unfold arr_total, block_total, row_total. simpl.
  apply sumZ_ext. intros i _. lia.
Qed.

(** The output of a concatenation is binned data in good order. *)
Lemma concat_bins_valid {E} (var out : BinnedVar E) :
  valid_bins var → bins_fit var →
  length (data out) = length (data var) →
  begin_ out = arr_sub (cumsum (sum_dim (bins_size var))) (sum_dim (bins_size var)) →
  end_ out = cumsum (sum_dim (bins_size var)) →
  valid_bins out ∧ bins_fit out
  ∧ ∀ i k, in_range (begin_ out) i 0 k →
      get (end_ out) i 0 k ≤ arr_total (bins_size var).
Proof.
  intros Hvalid Hfit Hlen Hb He.
  pose proof (sum_dim_nonneg var Hvalid) as Hnn.
  assert (Hend : ∀ i k, in_range (begin_ out) i 0 k →
            get (end_ out) i 0 k ≤ arr_total (bins_size var)).
  { intros i k (Hi & _ & Hk). rewrite Hb in Hi, Hk. simpl in Hi, Hk.
    rewrite He, cumsum_pre, <- sum_dim_total.
    apply pre_le_total; simpl; [done|lia..]. }
  split_and!; [|unfold bins_fit in *;
                destruct (concat_bins_total var out Hb He) as [Ht _];
                by rewrite Ht, Hlen|done].
  split.
  - apply bool_decide_eq_true. rewrite Hb, He. simpl. done.
  - intros i j k Hr. assert (j = O) as ->.
    { destruct Hr as (_ & Hj & _). rewrite Hb in Hj. simpl in Hj. lia. }
    pose proof (Hend i k Hr) as Hle. destruct Hr as (Hi & _ & Hk).
    rewrite Hb in Hi, Hk. simpl in Hi, Hk. split_and!.
    + rewrite Hb, cumsum_sub_pre. apply pre_nonneg; simpl; [done|lia..].
    + rewrite Hb, He, cumsum_sub_pre, cumsum_pre.
      apply pre_mono_k; simpl; [done|lia..].
    + rewrite Hlen. unfold bins_fit in Hfit. lia.
Qed.

(** X13. Concatenation keeps binned data in good order: for bins that are
    slices of the buffer and fit into it, the output has a buffer of the
    length of the input buffer, its bins are slices of that buffer that fit
    into it, and they end within the first [total] events, where [total] is
    the number of events of the input. *)
Theorem concat_bins_output_valid {E} (junk : nat → E) (var : BinnedVar E) :
  valid_bins var → bins_fit var →
  ∃ out, _concat_bins_variable junk var = Some out
    ∧ length (data out) = length (data var)
    ∧ valid_bins out ∧ bins_fit out
    ∧ ∀ i k, in_range (begin_ out) i 0 k →
        get (end_ out) i 0 k ≤ arr_total (bins_size var).
Proof.
  intros Hvalid Hfit.
  destruct (concat_bins_spec junk var Hvalid Hfit) as (out & Hout & Hlen & Hb & He & _).
  exists out. split; [done|]. split; [done|].
  by apply (concat_bins_valid var out).
Qed.

Lemma concat_bins_output_valid_witness :
  valid_bins ex_var ∧ bins_fit ex_var
  ∧ ∃ out, _concat_bins_variable (λ _, O) ex_var = Some out
      ∧ length (data out) = 5%nat ∧ valid_bins out ∧ bins_fit out.
Proof.
  assert (Hv : valid_bins ex_var).
  { split; [reflexivity|]. intros i j k (Hi & Hj & Hk). simpl in Hi, Hj, Hk.
    destruct i as [|[|i]]; [| |lia]; (destruct j as [|j]; [|lia]);
      (destruct k as [|[|k]]; [| |lia]); vm_compute; intuition discriminate. }
  assert (Hf : bins_fit ex_var) by (vm_compute; discriminate).
  split; [exact Hv|]. split; [exact Hf|].
  destruct (concat_bins_output_valid (λ _, O) ex_var Hv Hf)
    as (out & Hout & Hlen & Hvo & Hfo & _).
  exists out. split; [exact Hout|]. split; [exact Hlen|]. split; [exact Hvo|exact Hfo].
Defined.

(** X14. A data array without an irreducible mask along the dimension is
    concatenated like its data variable: all bins along the dimension
    contribute their events, in order, and the output keeps of the
    coordinates, masks and attributes exactly those that do not span the
    dimension. *)
Theorem concat_bins_without_mask {E V}
    (irreducible_mask : gmap string (MetaVar V) → string → option BoolVar)
    (junk : nat → E) (da : DataArray E V) (dim : string) :
  irreducible_mask (masks da) dim = None →
  valid_bins (da_data da) → bins_fit (da_data da) →
  ∃ out, concat_bins irreducible_mask junk da dim = inr (Some out)
    ∧ _concat_bins_variable junk (da_data da) = Some (da_data out)
    ∧ (∀ name v, coords out !! name = Some v ↔
         coords da !! name = Some v ∧ dim ∉ dims v)
    ∧ (∀ name v, masks out !! name = Some v ↔
         masks da !! name = Some v ∧ dim ∉ dims v)
    ∧ (∀ name v, attrs out !! name = Some v ↔
         attrs da !! name = Some v ∧ dim ∉ dims v)
    ∧ ∀ i k, (i < n1 (begin_ (da_data da)))%nat →
             (k < n3 (begin_ (da_data da)))%nat →
        bin_at (da_data out) i 0 k
        = Some (concat ((λ j, events (da_data da) i j k)
                          <$> seq 0 (n2 (begin_ (da_data da))))).
Proof.
  intros Hmask Hvalid Hfit.
  destruct (concat_bins_spec junk _ Hvalid Hfit) as (out & Hout & _ & _ & _ & Hbins).
  unfold concat_bins, hide_masked_and_reduce_meta. rewrite Hmask. simpl.
  rewrite Hout. simpl. eexists. split_and!; [done|done| | | |done].
  - intros name v. apply lookup_reduced.
  - intros name v. simpl. unfold reduced_masks. rewrite lookup_fmap.
    destruct (_reduced (masks da) dim !! name) as [v0|] eqn:Hv0; simpl.
    + apply lookup_reduced in Hv0 as [Hv0 Hd]. destruct v0 as [d0 x0].
      unfold copy_var; simpl. split; [intros [= <-]; done|].
      intros [Hv _]. congruence.
    + split; [done|]. intros Hv%lookup_reduced. congruence.
  - intros name v. apply lookup_reduced.
Qed.

Lemma concat_bins_without_mask_witness :
  ∃ out, concat_bins ex_irreducible_mask (λ _, O) ex_plain "x" = inr (Some out)
    ∧ coords out !! "t" = Some (mkMeta [] [])
    ∧ coords out !! "x" = None
    ∧ bin_at (da_data out) 0 0 0 = Some [10; 11; 12; 13; 14]%nat.
Proof.
  destruct (concat_bins_without_mask ex_irreducible_mask (λ _, O) ex_plain "x")
    as (out & Hout & _ & Hcoords & _ & _ & Hbins).
  - vm_compute. reflexivity.
  - split; [reflexivity|]. intros i j k (Hi & Hj & Hk). simpl in Hi, Hj, Hk.
    destruct i as [|i]; [|lia]. destruct j as [|[|[|j]]]; [| | |lia];
      (destruct k as [|k]; [|lia]); vm_compute; intuition discriminate.
  - vm_compute. discriminate.
  - exists out. split; [exact Hout|]. split_and!.
    + apply Hcoords. split; [vm_compute; reflexivity|]. apply not_elem_of_nil.
    + apply eq_None_not_Some. intros [v Hv]. apply Hcoords in Hv as [Hv Hd].
      vm_compute in Hv. injection Hv as <-. apply Hd. simpl.
      apply list_elem_of_singleton. reflexivity.
    + rewrite (Hbins O O) by (simpl; lia). vm_compute. reflexivity.
Defined.

End BinRemappingFacts.

(* ===================================================================== *)
(** * Part X: evaluation of fetch and rename rules ([coords.py])           *)
(* ===================================================================== *)

Module RuleCalls.

Import WriteBack.
Import Evaluate.

Section Calls.

Context {Var : Type}.

(** [_FetchRule.__call__]. [event_sources] is [None] for data without bins;
    an empty dict of event sources gives, like [None], no event value. *)
Definition fetch_rule_call (out_names : list string)
    (dense_sources : gmap string Var) (event_sources : option (gmap string Var))
    : gmap string (_Coord Var) :=
  foldl (λ (outputs : gmap string (_Coord Var)) out_name,
           <[out_name := mkCoord (dense_sources !! out_name)
                           (match event_sources with
                            | Some sources => sources !! out_name
                            | None => None
                            end) coord]> outputs)
        ∅ out_names.

(** [_RenameRule.__call__]: the dict comprehension consumes the input once
    for every output name and stores a copy of the coordinate under it. *)
Fixpoint rename_rule_call (out_names : list string) (in_name : string)
    (outputs coords : gmap string (_Coord Var))
    : res (gmap string (_Coord Var) * gmap string (_Coord Var)) :=
  match out_names with
  | [] => ok (outputs, coords)
  | out_name :: out_names =>
      cc ← _consume_coord in_name coords;
      rename_rule_call out_names in_name (<[out_name := cc.1]> outputs) cc.2
  end.

(** The metadata of [data] are the keys of the sources of a fetch rule:
    [_rule_for] passes [data.meta] and [data.bins.meta] to the rule. *)
Definition sources_of (data : RuleGraph.Data) (dense_sources : gmap string Var)
    (event_sources : option (gmap string Var)) : Prop :=
  RuleGraph.meta data = dom dense_sources
  ∧ RuleGraph.bins_meta data = dom <$> event_sources.

Lemma fetch_rule_call_lookup out_names dense_sources event_sources name :
  fetch_rule_call out_names dense_sources event_sources !! name
  = if decide (name ∈ out_names)
    then Some (mkCoord (dense_sources !! name)
                 (match event_sources with
                  | Some sources => sources !! name
                  | None => None
                  end) coord)
    else None.
Proof.
  unfold fetch_rule_call.
  assert (Hgen : ∀ (outputs : gmap string (_Coord Var)),
            foldl (λ (outputs : gmap string (_Coord Var)) out_name,
                     <[out_name := mkCoord (dense_sources !! out_name)
                                     (match event_sources with
                                      | Some sources => sources !! out_name
                                      | None => None
                                      end) coord]> outputs)
                  outputs out_names !! name
            = if decide (name ∈ out_names)
              then Some (mkCoord (dense_sources !! name)
                           (match event_sources with
                            | Some sources => sources !! name
                            | None => None
                            end) coord)
              else outputs !! name).
  { induction out_names as [|n out_names IH]; intros outputs; simpl.
    - done.
    - rewrite IH. destruct (decide (name ∈ out_names)) as [Hin|Hin].
      + rewrite decide_True; [done|]. by right.
      + rewrite lookup_insert. destruct (decide (n = name)) as [->|Hne].
        * rewrite decide_True; [done|]. by left.
        * rewrite decide_False; [done|]. by intros [?|?]%elem_of_cons. }
  rewrite Hgen. by case_decide.
Qed.

Lemma consume_coord_twice name (coords : gmap string (_Coord Var)) c :
  coords !! name = Some c →
  _consume_coord name coords = inr (consumed c, <[name := consumed c]> coords)
  ∧ _consume_coord name (<[name := consumed c]> coords)
    = inr (consumed c, <[name := consumed c]> coords).
Proof.
  intros Hc. unfold _consume_coord. rewrite Hc, lookup_insert_eq. simpl.
  split; [done|]. by rewrite insert_insert_eq.
Qed.

Lemma rename_rule_call_spec out_names in_name :
  ∀ (outputs coords : gmap string (_Coord Var)) c,
    coords !! in_name = Some c →
    ∃ outputs',
      rename_rule_call out_names in_name outputs coords
      = inr (outputs', if decide (out_names = []) then coords
                       else <[in_name := consumed c]> coords)
      ∧ ∀ n, outputs' !! n = if decide (n ∈ out_names) then Some (consumed c)
                             else outputs !! n.
Proof.
  induction out_names as [|out_name out_names IH]; intros outputs coords c Hc.
  - exists outputs. split; [done|]. intros n. rewrite decide_False; [done|].
    apply not_elem_of_nil.
  - simpl. destruct (consume_coord_twice in_name coords c Hc) as [-> _]. simpl.
    destruct (IH (<[out_name := consumed c]> outputs)
                (<[in_name := consumed c]> coords) (consumed c))
      as (outputs' & Hcall & Hlook).
    { apply lookup_insert_eq. }
    change (consumed (consumed c)) with (consumed c) in Hcall, Hlook.
    exists outputs'. split.
    + rewrite Hcall. f_equal. f_equal.
      case_decide; [done|]. by rewrite insert_insert_eq.
    + intros n. rewrite Hlook. destruct (decide (n ∈ out_names)) as [Hin|Hin].
      * rewrite decide_True; [done|]. by right.
      * rewrite lookup_insert. destruct (decide (out_name = n)) as [->|Hne].
        -- rewrite decide_True; [done|]. by left.
        -- rewrite decide_False; [done|]. by intros [?|?]%elem_of_cons.
Qed.

Lemma consume_inputs_missing arg_names :
  ∀ (inputs coords : gmap string (_Coord Var)) n,
    n ∈ arg_names → coords !! n = None →
    ∃ n', consume_inputs arg_names inputs coords = inl (KeyError n')
      ∧ n' ∈ arg_names ∧ coords !! n' = None.
Proof.
  induction arg_names as [|name arg_names IH]; intros inputs coords n Hn Hnone.
  - by apply elem_of_nil in Hn.
  - simpl. unfold _consume_coord at 1.
    destruct (coords !! name) as [c|] eqn:Hc; simpl.
    + apply elem_of_cons in Hn as [->|Hn]; [congruence|].
      destruct (IH (<[name := mkCoord (dense c) (event c) attr]> inputs)
                  (<[name := mkCoord (dense c) (event c) attr]> coords) n Hn)
        as (n' & Hcall & Hin & Hnone').
      { rewrite lookup_insert_ne; [done|]. intros ->. congruence. }
      exists n'. split; [done|]. split; [by right|].
      rewrite lookup_insert in Hnone'. by case_decide.
    + exists name. split; [done|]. split; [by left|done].
Qed.

End Calls.

(** The table of [ex_state] without the coordinate ["x"]. *)
Definition ex_empty_state : State string (bool * Z) := mkState ∅ [].

(** X15. A rename rule with at least one output marks its input as an
    attribute and yields, for each of its output names, a coordinate with the
    values of the input and the destination attribute (the copy is taken
    after the mark); nothing else in the table changes. It raises [KeyError]
    when the table does not have the input. *)
Theorem rename_rule_consumes {Var} (out_names : list string) (in_name : string)
    (coords : gmap string (_Coord Var)) :
  out_names ≠ [] →
  match coords !! in_name with
  | Some c =>
      ∃ outputs,
        rename_rule_call out_names in_name ∅ coords
        = inr (outputs, <[in_name := consumed c]> coords)
        ∧ (∀ n, outputs !! n = if decide (n ∈ out_names) then Some (consumed c)
                               else None)
        ∧ dense (consumed c) = dense c ∧ event (consumed c) = event c
        ∧ destination (consumed c) = attr
  | None => rename_rule_call out_names in_name ∅ coords = inl (KeyError in_name)
  end.
Proof.
  intros Hne. destruct (coords !! in_name) as [c|] eqn:Hc.
  - destruct (rename_rule_call_spec out_names in_name ∅ coords c Hc)
      as (outputs & Hcall & Hlook).
    rewrite decide_False in Hcall by done.
    exists outputs. split_and!; [done| |done..].
    intros n. rewrite Hlook. by case_decide.
  - destruct out_names as [|out_name out_names]; [done|]. simpl.
    unfold _consume_coord. by rewrite Hc.
Qed.

Lemma rename_rule_consumes_witness :
  ∃ outputs,
    rename_rule_call ["a"; "b"] "x" ∅ (coords ex_state)
    = inr (outputs, {[ "x" := mkCoord (Some (false, 3)) (Some (true, 3)) attr ]})
    ∧ outputs !! "b" = Some (mkCoord (Some (false, 3)) (Some (true, 3)) attr).
Proof.
  pose proof (rename_rule_consumes ["a"; "b"] "x" (coords ex_state)) as Hcall.
  assert (Hx : coords ex_state !! "x"
               = Some (mkCoord (Some (false, 3)) (Some (true, 3)) coord))
    by (vm_compute; reflexivity).
  rewrite Hx in Hcall.
  destruct Hcall as (outputs & Hcall & Hlook & _); [discriminate|].
  exists outputs. split.
  - rewrite Hcall. vm_compute. reflexivity.
  - rewrite Hlook. reflexivity.
Defined.

(** X16. The fetch rule that [_rule_for] makes for a name of the metadata of
    the input yields, under that name, a coordinate with the values of the
    input: it has a dense value or an event value, and its destination is
    the coordinates. Names that the rule does not list are not in its
    output. *)
Theorem fetch_rule_yields_input {Var} {Func} `{EqDecision Func}
    (graph : gmap string (RuleGraph._Rule Func)) (data : RuleGraph.Data)
    (dense_sources : gmap string Var) (event_sources : option (gmap string Var))
    (name : string) :
  sources_of data dense_sources event_sources →
  RuleGraph._is_meta_data name data = true →
  RuleGraph._rule_for graph name data = inr (RuleGraph._FetchRule [name])
  ∧ ∃ c, fetch_rule_call [name] dense_sources event_sources !! name = Some c
      ∧ dense c = dense_sources !! name
      ∧ (∀ sources, event_sources = Some sources → event c = sources !! name)
      ∧ (is_Some (dense c) ∨ is_Some (event c))
      ∧ destination c = coord
      ∧ ∀ n, n ≠ name →
          fetch_rule_call [name] dense_sources event_sources !! n = None.
Proof.
  intros [Hmeta Hbins] Hname. split.
  { unfold RuleGraph._rule_for. by rewrite Hname. }
  eexists. split.
  { rewrite fetch_rule_call_lookup. rewrite decide_True; [done|].
    by apply list_elem_of_singleton. }
  simpl. split_and!; [done| |  |done|].
  - by intros sources ->.
  - unfold RuleGraph._is_meta_data in Hname. rewrite Hmeta, Hbins in Hname.
    apply orb_true_iff in Hname as [Hd|He].
    + left. apply bool_decide_eq_true in Hd. by apply elem_of_dom.
    + right. destruct event_sources as [sources|]; [|done]. simpl in He.
      apply bool_decide_eq_true in He. by apply elem_of_dom.
  - intros n Hn. rewrite fetch_rule_call_lookup. rewrite decide_False; [done|].
    by intros ->%list_elem_of_singleton.
Qed.

Lemma fetch_rule_yields_input_witness :
  ∃ c, fetch_rule_call ["x"] ({[ "x" := 1; "y" := 2 ]} : gmap string Z) None !! "x"
       = Some c
    ∧ dense c = Some 1 ∧ destination c = coord.
Proof.
  destruct (fetch_rule_yields_input RuleGraph.ex_rule_graph RuleGraph.ex_data
              ({[ "x" := 1; "y" := 2 ]} : gmap string Z) None "x")
    as (_ & c & Hc & Hd & _ & _ & Hdest & _).
  - split; [|reflexivity]. simpl. rewrite dom_insert_L, dom_singleton_L. done.
  - vm_compute. reflexivity.
  - exists c. split; [exact Hc|]. split; [|exact Hdest]. rewrite Hd.
    vm_compute. reflexivity.
Defined.

(** X17. A compute rule that returns has changed, in the table of
    coordinates, the destination of its dependencies and nothing else: each
    dependency is an attribute with the values it had, every other
    coordinate is as it was. *)
Theorem compute_rule_consumes {Func Var} (is_binned : Var → bool)
    (call : Func → gmap string (option Var) → res (Output Var))
    (out_names : list string) (func : Func) (arg_names : list string)
    (st st' : State Func Var) (outputs : gmap string (_Coord Var)) :
  compute_rule_call is_binned call out_names func arg_names st = inr (outputs, st') →
  ∀ n, coords st' !! n
       = if decide (n ∈ arg_names) then consumed <$> coords st !! n
         else coords st !! n.
Proof.
  unfold compute_rule_call.
  destruct (consume_inputs arg_names ∅ (coords st)) as [e|[inputs coords']] eqn:Hc;
    [done|]. simpl.
  destruct (if negb (any_has_event inputs)
            then _compute_pure_dense call out_names func inputs (calls st)
            else _compute_with_events is_binned call out_names func inputs (calls st))
    as [e|oc]; [done|]. simpl. intros [= _ <-]. simpl.
  by apply consume_inputs_spec in Hc as (_ & _ & Hcoords).
Qed.

Lemma compute_rule_consumes_witness :
  ∃ outputs st',
    compute_rule_call ex_is_binned ex_call ["y"] "double" ["x"] ex_state
    = inr (outputs, st')
    ∧ coords st' !! "x" = Some (mkCoord (Some (false, 3)) (Some (true, 3)) attr).
Proof.
  destruct (compute_rule_call ex_is_binned ex_call ["y"] "double" ["x"] ex_state)
    as [e|[outputs st']] eqn:Hcall; [vm_compute in Hcall; discriminate|].
  exists outputs, st'. split; [reflexivity|].
  rewrite (compute_rule_consumes ex_is_binned ex_call ["y"] "double" ["x"]
             ex_state st' outputs Hcall "x").
  vm_compute. reflexivity.
Defined.

(** X18. A compute rule with a dependency that the table of coordinates
    lacks raises [KeyError] for a missing dependency, whatever the user
    function does. A function that returns a single variable for a rule with
    no or several output names makes the rule raise [TypeError]. *)
Theorem compute_rule_errors {Func Var} (is_binned : Var → bool)
    (call : Func → gmap string (option Var) → res (Output Var))
    (out_names : list string) (func : Func) (arg_names : list string)
    (st : State Func Var) :
  (∀ n, n ∈ arg_names → coords st !! n = None →
     ∃ n', compute_rule_call is_binned call out_names func arg_names st
           = inl (KeyError n')
       ∧ n' ∈ arg_names ∧ coords st !! n' = None)
  ∧ ((∀ n, n ∈ arg_names → is_Some (coords st !! n)) →
     (∀ kwargs, ∃ v, call func kwargs = inr (Single v)) →
     length out_names ≠ 1%nat →
     compute_rule_call is_binned call out_names func arg_names st = inl TypeError).
Proof.
  split.
  - intros n Hn Hnone.
    destruct (consume_inputs_missing arg_names ∅ (coords st) n Hn Hnone)
      as (n' & Hcall & Hin & Hnone').
    exists n'. unfold compute_rule_call. by rewrite Hcall.
  - intros Hall Hsingle Hlen. unfold compute_rule_call.
    destruct (consume_inputs arg_names ∅ (coords st)) as [e|[inputs coords']] eqn:Hc.
    { assert (Hno : ∀ names (inputs coords : gmap string (_Coord Var)) e,
                (∀ n, n ∈ names → is_Some (coords !! n)) →
                consume_inputs names inputs coords ≠ inl e).
      { clear. induction names as [|name names IH]; intros inputs coords e Hall; [done|].
        simpl. unfold _consume_coord at 1.
        destruct (Hall name) as [c Hc]; [by left|]. rewrite Hc. simpl.
        apply IH. intros n Hn. rewrite lookup_insert. case_decide; [by eexists|].
        apply Hall. by right. }
      by destruct (Hno arg_names ∅ (coords st) e Hall). }
    simpl.
    unfold _compute_pure_dense, _compute_with_events, call_func.
    destruct (negb (any_has_event inputs)).
    + destruct (Hsingle (dense <$> inputs)) as [v ->]. simpl.
      by destruct out_names as [|? [|? ?]].
    + destruct (Hsingle ((λ c, if has_event c then event c else dense c) <$> inputs))
        as [v ->]. simpl.
      by destruct out_names as [|? [|? ?]].
Qed.

Lemma compute_rule_errors_witness :
  compute_rule_call ex_is_binned ex_call ["y"] "double" ["x"] ex_empty_state
  = inl (KeyError "x")
  ∧ compute_rule_call ex_is_binned (λ _ _, ok (Single (false, 0))) ["y"; "z"]
      "double" ["x"] ex_state = inl TypeError.
Proof.
  split.
  - destruct (proj1 (compute_rule_errors ex_is_binned ex_call ["y"] "double" ["x"]
                       ex_empty_state) "x") as (n' & Hcall & Hin & _).
    + apply list_elem_of_singleton. reflexivity.
    + vm_compute. reflexivity.
    + apply list_elem_of_singleton in Hin. by rewrite <- Hin.
  - apply (proj2 (compute_rule_errors ex_is_binned (λ _ _, ok (Single (false, 0)))
                    ["y"; "z"] "double" ["x"] ex_state)).
    + intros n ->%list_elem_of_singleton. vm_compute. by eexists.
    + intros kwargs. by eexists.
    + simpl. lia.
Defined.

End RuleCalls.

(* ===================================================================== *)
(** * Part X, continued: the two evaluations of [_compute_coord]
      ([coords.py])                                                        *)
(* ===================================================================== *)

Module BothEvaluations.

Import WriteBack.
Import Evaluate.

Section Both.

Context {Func Var : Type}.
Variable is_binned : Var → bool.
Variable call : Func → gmap string (option Var) → res (Output Var).


(** The arguments of the evaluation with events. *)
Definition event_args (args : gmap string (option Var * option Var))
    : gmap string (option Var) :=
  (λ v : option Var * option Var, if bool_decide (is_Some v.2) then v.2 else v.1)
    <$> args.




End Both.



End BothEvaluations.

(* ===================================================================== *)
(** * Part XI: the storage blacklist of [coords.py]                         *)
(* ===================================================================== *)

Module Storage.

Import WriteBack.
Import RuleGraph.
Import WriteBackFacts.

(** [_Options] *)
Record _Options := mkOptions {
  rename_dims : bool;
  include_aliases : bool;
  keep_intermediate : bool;
  keep_inputs : bool;
}.

(** The three rule classes, as [isinstance] tells them apart. *)
Inductive RuleType := FetchType | RenameType | ComputeType.

#[global] Instance RuleType_eq_dec : EqDecision RuleType.
Proof. solve_decision. Defined.

Section Blacklist.

Context {Func : Type}.

Definition rule_type (rule : _Rule Func) : RuleType :=
  match rule with
  | _FetchRule _ => FetchType
  | _RenameRule _ _ => RenameType
  | _ComputeRule _ _ _ => ComputeType
  end.

(** [_rules_of_type] *)
Definition _rules_of_type (rules : list (_Rule Func)) (ty : RuleType)
    : list (_Rule Func) :=
  filter (λ rule, rule_type rule = ty) rules.

(** [_rule_output_names] *)
Definition _rule_output_names (rules : list (_Rule Func)) (ty : RuleType)
    : list string :=
  concat (out_names <$> _rules_of_type rules ty).

(** [_out_names] of [_storage_blacklist] *)
Definition _out_names (targets : list string) (rules : list (_Rule Func))
    (ty : RuleType) : list string :=
  filter (λ name, name ∉ targets) (_rule_output_names rules ty).

(** [for x in names: blacklist.add(x)] *)
Definition add_all (blacklist : gset string) (names : list string) : gset string :=
  foldl (λ blacklist name, {[ name ]} ∪ blacklist) blacklist names.

(** [for dep in rule.dependencies: if dep not in inputs: blacklist.add(dep)] *)
Definition add_intermediate (inputs : gset string) (blacklist : gset string)
    (rule : _Rule Func) : gset string :=
  foldl (λ blacklist dep,
           if bool_decide (dep ∈ inputs) then blacklist else {[ dep ]} ∪ blacklist)
        blacklist (dependencies rule).

(** [_storage_blacklist] *)
Definition _storage_blacklist (targets : list string) (rules : list (_Rule Func))
    (options : _Options) : gset string :=
  let blacklist : gset string := ∅ in
  let inputs : gset string := list_to_set (_out_names targets rules FetchType) in
  let blacklist :=
    if negb (keep_inputs options) then add_all blacklist (elements inputs)
    else blacklist in
  let blacklist :=
    if negb (keep_intermediate options)
    then foldl (add_intermediate inputs) blacklist rules
    else blacklist in
  let blacklist :=
    if negb (include_aliases options)
    then add_all blacklist (_out_names targets rules RenameType)
    else blacklist in
  blacklist.

(** [name] is an output of a rule of type [ty] and is not a target. *)
Definition other_output (targets : list string) (rules : list (_Rule Func))
    (ty : RuleType) (name : string) : Prop :=
  (name ∉ targets)
  ∧ ∃ rule, rule ∈ rules ∧ rule_type rule = ty ∧ name ∈ out_names rule.

(** Some rule depends on [name]. *)
Definition used (rules : list (_Rule Func)) (name : string) : Prop :=
  ∃ rule, rule ∈ rules ∧ name ∈ dependencies rule.

Lemma elem_of_out_names targets rules ty name :
  name ∈ _out_names targets rules ty ↔ other_output targets rules ty name.
Proof.
  unfold _out_names, _rule_output_names, _rules_of_type, other_output.
  rewrite list_elem_of_filter. split.
  - intros [Hnot Hin]. split; [done|].
    apply list_elem_of_In, in_concat in Hin as (l & Hl & Hn).
    apply list_elem_of_In, list_elem_of_fmap in Hl as (rule & -> & Hrule).
    apply list_elem_of_filter in Hrule as [Hty Hrule].
    exists rule. split_and!; [done..|]. by apply list_elem_of_In.
  - intros [Hnot (rule & Hrule & Hty & Hn)]. split; [done|].
    apply list_elem_of_In, in_concat. exists (out_names rule). split.
    + apply list_elem_of_In, list_elem_of_fmap. exists rule. split; [done|].
      by apply list_elem_of_filter.
    + by apply list_elem_of_In.
Qed.

Lemma elem_of_add_all names :
  ∀ blacklist name, name ∈ add_all blacklist names ↔ name ∈ blacklist ∨ name ∈ names.
Proof.
  unfold add_all. induction names as [|n names IH]; intros blacklist name; simpl.
  - rewrite elem_of_nil. tauto.
  - rewrite IH, elem_of_union, elem_of_singleton, elem_of_cons. tauto.
Qed.

Lemma elem_of_add_intermediate inputs rule :
  ∀ blacklist name,
    name ∈ add_intermediate inputs blacklist rule ↔
    name ∈ blacklist ∨ (name ∈ dependencies rule ∧ name ∉ inputs).
Proof.
  unfold add_intermediate.
  induction (dependencies rule) as [|d deps IH]; intros blacklist name; simpl.
  - rewrite elem_of_nil. tauto.
  - rewrite IH, elem_of_cons. case_bool_decide as Hd.
    + split; [tauto|]. intros [?|[[->|?] ?]]; tauto.
    + rewrite elem_of_union, elem_of_singleton. split; [|tauto].
      intros [[->|?]|?]; tauto.
Qed.

Lemma elem_of_fold_intermediate inputs rules :
  ∀ blacklist name,
    name ∈ foldl (add_intermediate inputs) blacklist rules ↔
    name ∈ blacklist ∨ (used rules name ∧ name ∉ inputs).
Proof.
  unfold used. induction rules as [|rule rules IH]; intros blacklist name; simpl.
  - split; [by left|]. intros [?|[(rule & Hin%elem_of_nil & _) _]]; done.
  - rewrite IH, elem_of_add_intermediate. split.
    + intros [[?|[Hd Hn]]|[(r & Hr & Hd) Hn]]; [by left| |].
      * right. split; [|done]. exists rule. split; [by left|done].
      * right. split; [|done]. exists r. split; [by right|done].
    + intros [?|[(r & [->|Hr]%elem_of_cons & Hd) Hn]]; [by left; left| |].
      * left. right. done.
      * right. split; [|done]. by exists r.
Qed.

(** The names on the blacklist. *)
Lemma elem_of_storage_blacklist targets rules options name :
  name ∈ _storage_blacklist targets rules options ↔
  (keep_inputs options = false ∧ other_output targets rules FetchType name)
  ∨ (keep_intermediate options = false ∧ used rules name
     ∧ ¬ other_output targets rules FetchType name)
  ∨ (include_aliases options = false ∧ other_output targets rules RenameType name).
Proof.
  unfold _storage_blacklist.
  assert (Hinputs : ∀ n, n ∈ (list_to_set (_out_names targets rules FetchType)
                                : gset string)
                         ↔ other_output targets rules FetchType n).
  { intros n. by rewrite elem_of_list_to_set, elem_of_out_names. }
  set (inputs := list_to_set (_out_names targets rules FetchType) : gset string)
    in *.
  assert (H1 : ∀ n, n ∈ (if negb (keep_inputs options)
                         then add_all ∅ (elements inputs) else ∅)
                    ↔ keep_inputs options = false
                      ∧ other_output targets rules FetchType n).
  { intros n. destruct (keep_inputs options); simpl.
    - rewrite elem_of_empty. split; [done|]. by intros [? _].
    - rewrite elem_of_add_all, elem_of_empty, elem_of_elements, Hinputs. tauto. }
  set (b1 := if negb (keep_inputs options)
             then add_all ∅ (elements inputs) else ∅) in *.
  assert (H2 : ∀ n, n ∈ (if negb (keep_intermediate options)
                         then foldl (add_intermediate inputs) b1 rules else b1)
                    ↔ n ∈ b1
                      ∨ (keep_intermediate options = false ∧ used rules n
                         ∧ ¬ other_output targets rules FetchType n)).
  { intros n. destruct (keep_intermediate options); simpl.
    - split; [by left|]. by intros [?|[? _]].
    - rewrite elem_of_fold_intermediate, Hinputs. tauto. }
  set (b2 := if negb (keep_intermediate options)
             then foldl (add_intermediate inputs) b1 rules else b1) in *.
  destruct (include_aliases options); simpl.
  - rewrite H2, H1. split; [tauto|]. intros [?|[?|[? _]]]; [tauto|tauto|done].
  - rewrite elem_of_add_all, H2, H1, elem_of_out_names. tauto.
Qed.

End Blacklist.

(** The rule sequence for ["b"] from ["a"] from the input ["x"]. *)
Definition ex_rules : list (_Rule string) :=
  [_FetchRule ["x"]; _ComputeRule ["a"] "f" ["x"]; _RenameRule ["b"] "a"].

Definition ex_keep_all : _Options := mkOptions true true true true.

Definition ex_drop_intermediate : _Options := mkOptions true true false true.

(** X19. The storage blacklist holds: the inputs (outputs of fetch rules)
    that are not targets, unless inputs are kept; every name that a rule
    depends on, except the inputs that are not targets, unless intermediate
    results are kept; and the outputs of rename rules that are not targets,
    unless aliases are included. Hence no target is on the blacklist while
    intermediate results are kept, and a target that a rule depends on is on
    it when they are not. *)
Theorem storage_blacklist_members {Func} (targets : list string)
    (rules : list (_Rule Func)) (options : _Options) :
  (∀ name, name ∈ _storage_blacklist targets rules options ↔
     (keep_inputs options = false ∧ other_output targets rules FetchType name)
     ∨ (keep_intermediate options = false ∧ used rules name
        ∧ ¬ other_output targets rules FetchType name)
     ∨ (include_aliases options = false
        ∧ other_output targets rules RenameType name))
  ∧ (keep_intermediate options = true →
     ∀ t, t ∈ targets → t ∉ _storage_blacklist targets rules options)
  ∧ (keep_intermediate options = false →
     ∀ t, t ∈ targets → used rules t →
       t ∈ _storage_blacklist targets rules options).
Proof.
  split; [apply elem_of_storage_blacklist|]. split.
  - intros Hkeep t Ht. rewrite elem_of_storage_blacklist.
    intros [[_ [Hnot _]]|[[Hk _]|[_ [Hnot _]]]]; [done|congruence|done].
  - intros Hkeep t Ht Hused. apply elem_of_storage_blacklist. right. left.
    split_and!; [done..|]. by intros [Hnot _].
Qed.

Lemma storage_blacklist_members_witness :
  _storage_blacklist ["b"] ex_rules ex_keep_all = ∅
  ∧ "a" ∈ _storage_blacklist ["a"; "b"] ex_rules ex_drop_intermediate
  ∧ "b" ∉ _storage_blacklist ["a"; "b"] ex_rules ex_keep_all.
Proof.
  split; [vm_compute; reflexivity|]. split.
  - apply (proj2 (proj2 (storage_blacklist_members ["a"; "b"] ex_rules
                           ex_drop_intermediate))); [reflexivity|by left|].
    exists (_RenameRule ["b"] "a"). split.
    + apply elem_of_cons. right. apply elem_of_cons. right. by left.
    + by left.
  - apply (proj1 (proj2 (storage_blacklist_members ["a"; "b"] ex_rules ex_keep_all)));
      [reflexivity|]. apply elem_of_cons. right. by left.
Defined.

End Storage.

(* ===================================================================== *)
(** * Part XII: the recursive transform of [coords.py]
      ([CoordTransform], [_consume_coord], [_produce_coord], [_store_coord]) *)
(* ===================================================================== *)

Module CoordTransform.

Import WriteBack.
Import WriteBackFacts.

(** The exceptions of the recursive transform. [KeyError] is raised by
    [self._graph[name]], [NotFoundError] by [self.obj.bins.meta[name]],
    [DataArrayError] by [.meta] when a coordinate shadows an attribute,
    [CycleDetected] is the [ValueError] of [_get_coord] and
    [VariableArguments] the one of [_argnames]; the errors of the stores and
    of the evaluation of a function are passed on. *)
Inductive Exn :=
  | KeyError (name : string)
  | NotFoundError (name : string)
  | DataArrayError
  | CycleDetected
  | VariableArguments
  | StoreError (e : WriteBack.Exn)
  | EvalError (e : Evaluate.Exn).

Abbreviation res := (result Exn).

Section Transform.

Context {Func Var Indices : Type}.

Variable getfullargspec : Func → RuleGraph.ArgSpec.
Variable is_binned : Var → bool.
Variable call : Func → gmap string (option Var) → Evaluate.res (Evaluate.Output Var).
Variable dense_error : Var → option WriteBack.Exn.
Variable bins_error : Indices → Var → option WriteBack.Exn.
Variable copy_indices : Indices → Indices.

(** [_OptionalCoordTuple]: the dense and the event value of a coordinate. *)
Abbreviation Looked := (option Var * option Var)%type.

(** ** Moves between coordinates and attributes *)

Definition set_dense_store (dest : Destination) (m : gmap string Var)
    (da : DataArray Var Indices) : DataArray Var Indices :=
  match dest with
  | coord => mkDA m (attrs da) (bins da) (copies da)
  | attr => mkDA (coords da) m (bins da) (copies da)
  end.

Definition set_event_store (dest : Destination) (m : gmap string Var)
    (p : Payload Var Indices) : Payload Var Indices :=
  match dest with
  | coord => mkPayload (indices p) m (battrs p)
  | attr => mkPayload (indices p) (bcoords p) m
  end.

(** [_move_between_member_dicts] on a data array *)
Definition _move_between_member_dicts (obj : DataArray Var Indices) (name : string)
    (src_name dst_name : Destination) : DataArray Var Indices * option Var :=
  let obj :=
    match dense_store src_name obj !! name with
    | Some v =>
        let obj := set_dense_store src_name (delete name (dense_store src_name obj)) obj in
        set_dense_store dst_name (<[name := v]> (dense_store dst_name obj)) obj
    | None => obj
    end in
  (obj, dense_store dst_name obj !! name).

(** [_move_between_member_dicts] on the bins of a data array *)
Definition move_between_bins_dicts (p : Payload Var Indices) (name : string)
    (src_name dst_name : Destination) : Payload Var Indices * option Var :=
  let p :=
    match event_store src_name p !! name with
    | Some v =>
        let p := set_event_store src_name (delete name (event_store src_name p)) p in
        set_event_store dst_name (<[name := v]> (event_store dst_name p)) p
    | None => p
    end in
  (p, event_store dst_name p !! name).

(** [_move_between_coord_and_attr] *)
Definition _move_between_coord_and_attr (obj : DataArray Var Indices) (name : string)
    (src_name dst_name : Destination) : DataArray Var Indices * Looked :=
  let '(obj, dense) := _move_between_member_dicts obj name src_name dst_name in
  match bins obj with
  | Some p =>
      let '(p, event) := move_between_bins_dicts p name src_name dst_name in
      (mkDA (coords obj) (attrs obj) (Some p) (copies obj), (dense, event))
  | None => (obj, (dense, None))
  end.

(** [_consume_coord] *)
Definition _consume_coord (obj : DataArray Var Indices) (name : string) :=
  _move_between_coord_and_attr obj name coord attr.

(** [_produce_coord] *)
Definition _produce_coord (obj : DataArray Var Indices) (name : string) :=
  _move_between_coord_and_attr obj name attr coord.

(** [_store_coord] of [coords.py], with a pair of values *)
Definition _store_coord (obj : DataArray Var Indices) (name : string)
    (c : Looked) : WriteBack.res (DataArray Var Indices) :=
  obj ← match c.1 with
         | Some dense_coord => store_dense dense_error name coord obj dense_coord
         | None => ok obj
         end;
  let obj :=
    if bool_decide (name ∈ dom (attrs obj))
    then mkDA (coords obj) (delete name (attrs obj)) (bins obj) (copies obj)
    else obj in
  match c.2 with
  | Some event_coord => _store_event_coord bins_error copy_indices obj name event_coord
  | None => ok obj
  end.

(** ** The transform *)

(** The state of a [CoordTransform]; [calls] lists the calls of user
    functions. The graph and the outputs do not change. *)
Record Transform := mkTransform {
  obj : DataArray Var Indices;
  _rename : gmap (list string) (list string);
  _memo : list string;
  _aliases : list string;
  _consumed : list string;
  calls : list (Func * gmap string (option Var));
}.

(** [self._graph] is used as a mapping from a name to its producer:
    [self._graph[name]] is a string, for a rename, or a function. *)
Variable _graph : gmap string (RuleGraph.Producer Func).
Variable _outputs : list string.

Definition set_obj (t : Transform) (o : DataArray Var Indices) : Transform :=
  mkTransform o (_rename t) (_memo t) (_aliases t) (_consumed t) (calls t).

(** [self._memo.append(name)] *)
Definition add_memo (t : Transform) (name : string) : Transform :=
  mkTransform (obj t) (_rename t) (_memo t ++ [name]) (_aliases t) (_consumed t)
    (calls t).

(** [self._aliases.append(name)] *)
Definition add_alias (t : Transform) (name : string) : Transform :=
  mkTransform (obj t) (_rename t) (_memo t) (_aliases t ++ [name]) (_consumed t)
    (calls t).

(** [self._consumed.append(name)] *)
Definition add_consumed (t : Transform) (name : string) : Transform :=
  mkTransform (obj t) (_rename t) (_memo t) (_aliases t) (_consumed t ++ [name])
    (calls t).

Definition set_calls (t : Transform) (cs : list (Func * gmap string (option Var)))
    : Transform :=
  mkTransform (obj t) (_rename t) (_memo t) (_aliases t) (_consumed t) cs.

(** [self._rename.setdefault(dim, []).extend(names)] *)
Definition extend_rename (t : Transform) (dim names : list string) : Transform :=
  mkTransform (obj t) (<[dim := default [] (_rename t !! dim) ++ names]> (_rename t))
    (_memo t) (_aliases t) (_consumed t) (calls t).

(** [self.obj.meta]: the coordinates and the attributes in one dict.
    Modelled from the spec: the library builds the dict from the two and
    raises [DataArrayError] when a name is both a coordinate and an
    attribute. *)
Definition meta (da : DataArray Var Indices) : res (gmap string Var) :=
  if decide (dom (coords da) ∩ dom (attrs da) = (∅ : gset string))
  then ok (coords da ∪ attrs da)
  else raise DataArrayError.

(** [self.obj.bins.meta], in the same way. *)
Definition bins_meta (p : Payload Var Indices) : res (gmap string Var) :=
  if decide (dom (bcoords p) ∩ dom (battrs p) = (∅ : gset string))
  then ok (bcoords p ∪ battrs p)
  else raise DataArrayError.

(** [_exists] *)
Definition _exists (t : Transform) (name : string) : res bool :=
  in_events ← match bins (obj t) with
               | Some p =>
                   m ← bins_meta p;
                   ok (bool_decide (is_Some (m !! name)))
               | None => ok false
               end;
  m ← meta (obj t);
  ok (bool_decide (is_Some (m !! name)) || in_events).

(** [_get_existing] *)
Definition _get_existing (t : Transform) (name : string) : res Looked :=
  events ← match bins (obj t) with
            | None => ok None
            | Some p =>
                m ← bins_meta p;
                match m !! name with
                | Some v => ok (Some v)
                | None => raise (NotFoundError name)
                end
            end;
  m ← meta (obj t);
  ok (m !! name, events).

(** [_get_coord], as the other methods call it; [None] stands for a
    recursion that is deeper than the fuel. *)
Abbreviation Get := (string → Transform → option (res (Looked * Transform))).

(** [{arg: self._get_coord(arg) for arg in argnames}] *)
Fixpoint get_args (get : Get) (argnames : list string)
    (args : gmap string Looked) (t : Transform)
    : option (res (gmap string Looked * Transform)) :=
  match argnames with
  | [] => Some (ok (args, t))
  | arg :: argnames =>
      match get arg t with
      | None => None
      | Some (inl e) => Some (inl e)
      | Some (inr (v, t)) => get_args get argnames (<[arg := v]> args) t
      end
  end.

(** [_rename_coord]; [in_name] is [self._graph[name]]. *)
Definition _rename_coord (get : Get) (name in_name : string) (t : Transform)
    : option (res (gmap string Looked * list string * Transform)) :=
  let t := add_alias t name in
  match get in_name t with
  | None => None
  | Some (inl e) => Some (inl e)
  | Some (inr (v, t)) => Some (ok ({[ name := v ]}, [in_name], t))
  end.

(** [_compute_coord]; [func] is [self._graph[name]]. *)
Definition _compute_coord (get : Get) (name : string) (func : Func) (t : Transform)
    : option (res (gmap string Looked * list string * Transform)) :=
  match RuleGraph._argnames getfullargspec func with
  | inl _ => Some (raise VariableArguments)
  | inr argnames =>
      match get_args get argnames ∅ t with
      | None => None
      | Some (inl e) => Some (inl e)
      | Some (inr (args, t)) =>
          match Evaluate._compute_coord is_binned call func args name
                  (calls t) with
          | inl e => Some (raise (EvalError e))
          | inr (out, calls') => Some (ok (out, argnames, set_calls t calls'))
          end
      end
  end.

(** [for key, coord in out.items(): _store_coord(self.obj, key, coord)].
    The keys of [out] are different names, which are stored here in the
    order of the keys of the map. *)
Definition store_all (out : list (string * Looked)) (da : DataArray Var Indices)
    : WriteBack.res (DataArray Var Indices) :=
  foldl (λ acc item, da ← acc; _store_coord da item.1 item.2) (ok da) out.

(** [_add_coord] *)
Definition _add_coord (get : Get) (name : string) (t : Transform)
    : option (res Transform) :=
  match _exists t name with
  | inl e => Some (inl e)
  | inr true => Some (ok (set_obj t (_produce_coord (obj t) name).1))
  | inr false =>
    match _graph !! name with
    | None => Some (raise (KeyError name))
    | Some producer =>
        match (match producer with
               | RuleGraph.PStr in_name => _rename_coord get name in_name t
               | RuleGraph.PFunc func => _compute_coord get name func t
               end) with
        | None => None
        | Some (inl e) => Some (inl e)
        | Some (inr (out, dim, t)) =>
            let t := extend_rename t dim (map_to_list out).*1 in
            match store_all (map_to_list out) (obj t) with
            | inl e => Some (raise (StoreError e))
            | inr da => Some (ok (set_obj t da))
            end
        end
    end
  end.

(** [_get_coord] *)
Fixpoint _get_coord (fuel : nat) (name : string) (t : Transform)
    : option (res (Looked * Transform)) :=
  match fuel with
  | O => None
  | S fuel =>
      match _exists t name with
      | inl e => Some (inl e)
      | inr true =>
          let t := add_consumed t name in
          if bool_decide (name ∈ _outputs)
          then Some (v ← _get_existing t name; ok (v, t))
          else
            let '(o, v) := _consume_coord (obj t) name in
            Some (ok (v, set_obj t o))
      | inr false =>
          if bool_decide (name ∈ _memo t) then Some (raise CycleDetected)
          else
            let t := add_memo t name in
            match _add_coord (_get_coord fuel) name t with
            | None => None
            | Some (inl e) => Some (inl e)
            | Some (inr t) => _get_coord fuel name t
            end
      end
  end.

(** ** Facts *)

(** The names of the graph that are not in the memo. *)
Definition open_names (t : Transform) : gset string :=
  dom _graph ∖ list_to_set (_memo t).

(** [get] only adds to the memo. *)
Definition grows (get : Get) : Prop :=
  ∀ name t v t', get name t = Some (inr (v, t')) → _memo t ⊆ _memo t'.

(** [get'] returns what [get] returns. *)
Definition extends (get get' : Get) : Prop :=
  ∀ name t r, get name t = Some r → get' name t = Some r.

(** [get] returns on every state whose memo contains that of [t]. *)
Definition returns_from (get : Get) (t : Transform) : Prop :=
  ∀ name t', _memo t ⊆ _memo t' → ∃ r, get name t' = Some r.

(** The names of [names] are renames of each other. *)
Definition renames_within (names : gset string) : Prop :=
  ∀ n, n ∈ names → ∃ m, m ∈ names ∧ _graph !! n = Some (RuleGraph.PStr m).

#[local] Arguments _get_coord : simpl never.

Lemma get_coord_S fuel name t :
  _get_coord (S fuel) name t
  = match _exists t name with
    | inl e => Some (inl e)
    | inr true =>
        if bool_decide (name ∈ _outputs)
        then Some (v ← _get_existing (add_consumed t name) name;
                   ok (v, add_consumed t name))
        else Some (ok ((_consume_coord (obj t) name).2,
                       set_obj (add_consumed t name) (_consume_coord (obj t) name).1))
    | inr false =>
        if bool_decide (name ∈ _memo t) then Some (raise CycleDetected)
        else match _add_coord (_get_coord fuel) name (add_memo t name) with
             | None => None
             | Some (inl e) => Some (inl e)
             | Some (inr t) => _get_coord fuel name t
             end
    end.
Proof.
  unfold _get_coord at 1; fold _get_coord.
  destruct (_exists t name) as [e|[]]; [done| |done].
  case_bool_decide; [done|]. simpl.
  by destruct (_consume_coord (obj t) name).
Qed.

(** *** The memo grows *)

Lemma get_args_grows get argnames :
  grows get →
  ∀ args t args' t',
    get_args get argnames args t = Some (inr (args', t')) → _memo t ⊆ _memo t'.
Proof.
  intros Hget. induction argnames as [|arg argnames IH]; intros args t args' t'; simpl.
  - by intros [= _ <-].
  - destruct (get arg t) as [[e|[v t1]]|] eqn:Harg; [done| |done].
    intros Hrest. etrans; [by eapply Hget|by eapply IH].
Qed.

Lemma produce_grows get name producer t out dim t1 :
  grows get →
  match producer with
  | RuleGraph.PStr in_name => _rename_coord get name in_name t
  | RuleGraph.PFunc func => _compute_coord get name func t
  end = Some (inr (out, dim, t1)) → _memo t ⊆ _memo t1.
Proof.
  intros Hget. destruct producer as [in_name|func].
  - unfold _rename_coord.
    destruct (get in_name (add_alias t name)) as [[e|[v t2]]|] eqn:Hin; [done| |done].
    intros [= _ _ <-]. by apply Hget in Hin.
  - unfold _compute_coord.
    destruct (RuleGraph._argnames getfullargspec func) as [e|argnames]; [done|].
    destruct (get_args get argnames ∅ t) as [[e|[args t2]]|] eqn:Hargs;
      [done| |done].
    destruct (Evaluate._compute_coord is_binned call func args name
                (calls t2)) as [e|[out' calls']]; [done|].
    intros [= _ _ <-]. simpl. by eapply get_args_grows.
Qed.

Lemma add_coord_grows get name t t' :
  grows get → _add_coord get name t = Some (inr t') → _memo t ⊆ _memo t'.
Proof.
  intros Hget. unfold _add_coord.
  destruct (_exists t name) as [e|[]]; [done|by intros [= <-]|].
  destruct (_graph !! name) as [producer|]; [|done].
  destruct (match producer with
            | RuleGraph.PStr in_name => _rename_coord get name in_name t
            | RuleGraph.PFunc func => _compute_coord get name func t
            end) as [[e|[[out dim] t1]]|] eqn:Hp; [done| |done].
  apply produce_grows in Hp; [|done].
  destruct (store_all (map_to_list out) (obj (extend_rename t1 dim (map_to_list out).*1)));
    [done|]. by intros [= <-].
Qed.

Lemma get_coord_grows fuel : grows (_get_coord fuel).
Proof.
  induction fuel as [|fuel IH]; intros name t v t'; [done|].
  rewrite get_coord_S. destruct (_exists t name) as [e|[]]; [done| |].
  - case_bool_decide.
    + destruct (_get_existing (add_consumed t name) name) as [e|v']; [done|].
      simpl. by intros [= _ <-].
    + by intros [= _ <-].
  - case_bool_decide; [done|].
    destruct (_add_coord (_get_coord fuel) name (add_memo t name)) as [[e|t1]|]
      eqn:Hadd; [done| |done].
    intros Hrest. apply add_coord_grows in Hadd; [|done]. simpl in Hadd.
    apply IH in Hrest. set_solver.
Qed.

(** *** More fuel does not change a result *)

Lemma get_args_extends get get' argnames :
  extends get get' →
  ∀ args t r, get_args get argnames args t = Some r →
    get_args get' argnames args t = Some r.
Proof.
  intros Hext. induction argnames as [|arg argnames IH]; intros args t r; simpl;
    [done|].
  destruct (get arg t) as [r1|] eqn:Harg; [|done].
  rewrite (Hext _ _ _ Harg). destruct r1 as [e|[v t1]]; [done|]. apply IH.
Qed.

Lemma produce_extends get get' name producer t r :
  extends get get' →
  match producer with
  | RuleGraph.PStr in_name => _rename_coord get name in_name t
  | RuleGraph.PFunc func => _compute_coord get name func t
  end = Some r →
  match producer with
  | RuleGraph.PStr in_name => _rename_coord get' name in_name t
  | RuleGraph.PFunc func => _compute_coord get' name func t
  end = Some r.
Proof.
  intros Hext. destruct producer as [in_name|func].
  - unfold _rename_coord.
    destruct (get in_name (add_alias t name)) as [r2|] eqn:Hin; [|done].
    by rewrite (Hext _ _ _ Hin).
  - unfold _compute_coord.
    destruct (RuleGraph._argnames getfullargspec func) as [e|argnames]; [done|].
    destruct (get_args get argnames ∅ t) as [r2|] eqn:Hargs; [|done].
    by rewrite (get_args_extends _ _ _ Hext _ _ _ Hargs).
Qed.

Lemma add_coord_extends get get' name t r :
  extends get get' → _add_coord get name t = Some r → _add_coord get' name t = Some r.
Proof.
  intros Hext. unfold _add_coord. destruct (_exists t name) as [e|[]]; [done..|].
  destruct (_graph !! name) as [producer|]; [|done].
  destruct (match producer with
            | RuleGraph.PStr in_name => _rename_coord get name in_name t
            | RuleGraph.PFunc func => _compute_coord get name func t
            end) as [r1|] eqn:Hp; [|done].
  by rewrite (produce_extends _ _ _ _ _ _ Hext Hp).
Qed.

Lemma get_coord_extends fuel : extends (_get_coord fuel) (_get_coord (S fuel)).
Proof.
  induction fuel as [|fuel IH]; intros name t r; [done|].
  rewrite (get_coord_S (S fuel)), (get_coord_S fuel).
  destruct (_exists t name) as [e|[]]; [done..|]. case_bool_decide; [done|].
  destruct (_add_coord (_get_coord fuel) name (add_memo t name)) as [r1|] eqn:Hadd;
    [|done].
  rewrite (add_coord_extends _ _ _ _ _ IH Hadd).
  destruct r1 as [e|t1]; [done|]. by apply IH.
Qed.

Lemma get_coord_mono fuel fuel' :
  (fuel ≤ fuel')%nat → extends (_get_coord fuel) (_get_coord fuel').
Proof.
  induction 1 as [|fuel' _ IH]; [by intros ???|].
  intros name t r Hget. by apply get_coord_extends, IH.
Qed.

(** *** The recursion ends *)

Lemma get_args_returns get argnames :
  grows get →
  ∀ args t, returns_from get t → ∃ r, get_args get argnames args t = Some r.
Proof.
  intros Hgrows. induction argnames as [|arg argnames IH]; intros args t Hret; simpl.
  - by eexists.
  - destruct (Hret arg t) as [r Hr]; [done|]. rewrite Hr.
    destruct r as [e|[v t1]]; [by eexists|]. apply IH.
    intros name t' Ht'. apply Hret. etrans; [by eapply Hgrows|done].
Qed.

Lemma add_coord_returns get name t :
  grows get → returns_from get t → ∃ r, _add_coord get name t = Some r.
Proof.
  intros Hgrows Hret. unfold _add_coord.
  destruct (_exists t name) as [e|[]]; [by eexists..|].
  destruct (_graph !! name) as [producer|]; [|by eexists].
  assert (Hinner : ∃ r1,
            match producer with
            | RuleGraph.PStr in_name => _rename_coord get name in_name t
            | RuleGraph.PFunc func => _compute_coord get name func t
            end = Some r1).
  { destruct producer as [in_name|func].
    - unfold _rename_coord.
      destruct (Hret in_name (add_alias t name)) as [r Hr]; [done|].
      rewrite Hr. destruct r as [e|[v t1]]; by eexists.
    - unfold _compute_coord.
      destruct (RuleGraph._argnames getfullargspec func) as [e|argnames];
        [by eexists|].
      destruct (get_args_returns get argnames Hgrows ∅ t Hret) as [r Hr].
      rewrite Hr. destruct r as [e|[args t1]]; [by eexists|].
      destruct (Evaluate._compute_coord is_binned call func args name
                  (calls t1)) as [e|[out' calls']]; by eexists. }
  destruct Hinner as [r1 ->]. destruct r1 as [e|[[out dim] t1]]; [by eexists|].
  destruct (store_all (map_to_list out) (obj (extend_rename t1 dim (map_to_list out).*1)));
    by eexists.
Qed.

Lemma open_names_smaller t t' name :
  name ∈ dom _graph → name ∉ _memo t → _memo (add_memo t name) ⊆ _memo t' →
  (size (open_names t') < size (open_names t))%nat.
Proof.
  intros Hin Hnot Hsub. simpl in Hsub.
  apply subset_size. unfold open_names.
  assert (name ∈ _memo t') by (apply Hsub; set_solver).
  assert (_memo t ⊆ _memo t') by (intros x Hx; apply Hsub; set_solver).
  split; [set_solver|]. intros Hback.
  assert (name ∈ dom _graph ∖ list_to_set (_memo t)) as Hn by set_solver.
  apply Hback in Hn. set_solver.
Qed.

Lemma get_coord_returns k :
  ∀ name t, (size (open_names t) ≤ k)%nat → ∃ r, _get_coord (S k) name t = Some r.
Proof.
  induction k as [|k IH]; intros name t Hsize; rewrite get_coord_S.
  - destruct (_exists t name) as [e|[]] eqn:Hex;
      [by eexists|case_bool_decide; by eexists|].
    case_bool_decide as Hmemo; [by eexists|].
    assert (Hno : _graph !! name = None).
    { apply not_elem_of_dom. intros Hin.
      assert (name ∈ open_names t) as Hopen.
      { unfold open_names. apply elem_of_difference. split; [done|].
        by rewrite elem_of_list_to_set. }
      assert (size (open_names t) = 0)%nat as H0 by lia.
      apply size_empty_inv in H0. set_solver. }
    unfold _add_coord.
    change (_exists (add_memo t name) name) with (_exists t name).
    rewrite Hex, Hno. by eexists.
  - destruct (_exists t name) as [e|[]] eqn:Hex;
      [by eexists|case_bool_decide; by eexists|].
    case_bool_decide as Hmemo; [by eexists|].
    destruct (_graph !! name) as [producer|] eqn:Hg.
    + assert (Hin : name ∈ dom _graph) by (apply elem_of_dom; by eexists).
      assert (Hsmaller : ∀ t', _memo (add_memo t name) ⊆ _memo t' →
                (size (open_names t') ≤ k)%nat).
      { intros t' Hsub.
        pose proof (open_names_smaller t t' name Hin Hmemo Hsub). lia. }
      destruct (add_coord_returns (_get_coord (S k)) name (add_memo t name))
        as [r Hr].
      { apply get_coord_grows. }
      { intros n t' Hsub. apply IH. by apply Hsmaller. }
      rewrite Hr. destruct r as [e|t2]; [by eexists|].
      apply IH. apply Hsmaller. eapply add_coord_grows; [|done].
      apply get_coord_grows.
    + unfold _add_coord.
      change (_exists (add_memo t name) name) with (_exists t name).
      rewrite Hex, Hg. by eexists.
Qed.

(** *** A cycle of renames *)

Lemma get_coord_rename_cycle (names : gset string) fuel :
  renames_within names →
  ∀ name t r,
    name ∈ names → (∀ n, n ∈ names → _exists t n = inr false) →
    _get_coord fuel name t = Some r → r = inl CycleDetected.
Proof.
  intros Hren. induction fuel as [|fuel IH]; intros name t r Hname Hnone; [done|].
  rewrite get_coord_S, (Hnone name Hname).
  case_bool_decide; [by intros [= <-]|].
  unfold _add_coord. change (_exists (add_memo t name) name) with (_exists t name).
  rewrite (Hnone name Hname).
  destruct (Hren name Hname) as (m & Hm & ->). unfold _rename_coord.
  destruct (_get_coord fuel m (add_alias (add_memo t name) name)) as [r1|] eqn:Hrec;
    [|done].
  apply IH in Hrec as ->; [|done|done]. by intros [= <-].
Qed.

(** *** The moves *)

Lemma consume_coord_fst (o : DataArray Var Indices) name :
  (_consume_coord o name).1
  = mkDA (delete name (coords o))
      (match coords o !! name with
       | Some v => <[name := v]> (attrs o)
       | None => attrs o
       end)
      ((λ p, mkPayload (indices p) (delete name (bcoords p))
               (match bcoords p !! name with
                | Some v => <[name := v]> (battrs p)
                | None => battrs p
                end)) <$> bins o)
      (copies o).
Proof.
  unfold _consume_coord, _move_between_coord_and_attr, _move_between_member_dicts,
    move_between_bins_dicts. destruct o as [cs ats bs n]. simpl.
  destruct (cs !! name) as [v|] eqn:Hc; simpl.
  - destruct bs as [[idx bc ba]|]; simpl; [|done].
    destruct (bc !! name) as [w|] eqn:Hb; simpl; [done|].
    by rewrite (delete_id bc) by done.
  - rewrite delete_id by done. destruct bs as [[idx bc ba]|]; simpl; [|done].
    destruct (bc !! name) as [w|] eqn:Hb; simpl; [done|].
    by rewrite (delete_id bc) by done.
Qed.

Lemma produce_coord_fst (o : DataArray Var Indices) name :
  (_produce_coord o name).1
  = mkDA (match attrs o !! name with
          | Some v => <[name := v]> (coords o)
          | None => coords o
          end)
      (delete name (attrs o))
      ((λ p, mkPayload (indices p)
               (match battrs p !! name with
                | Some v => <[name := v]> (bcoords p)
                | None => bcoords p
                end)
               (delete name (battrs p))) <$> bins o)
      (copies o).
Proof.
  unfold _produce_coord, _move_between_coord_and_attr, _move_between_member_dicts,
    move_between_bins_dicts. destruct o as [cs ats bs n]. simpl.
  destruct (ats !! name) as [v|] eqn:Hc; simpl.
  - destruct bs as [[idx bc ba]|]; simpl; [|done].
    destruct (ba !! name) as [w|] eqn:Hb; simpl; [done|].
    by rewrite (delete_id ba) by done.
  - rewrite delete_id by done. destruct bs as [[idx bc ba]|]; simpl; [|done].
    destruct (ba !! name) as [w|] eqn:Hb; simpl; [done|].
    by rewrite (delete_id ba) by done.
Qed.

Lemma consume_coord_snd (o : DataArray Var Indices) name :
  (_consume_coord o name).2
  = (match coords o !! name with
     | Some v => Some v
     | None => attrs o !! name
     end,
     match bins o with
     | Some p => match bcoords p !! name with
                 | Some v => Some v
                 | None => battrs p !! name
                 end
     | None => None
     end).
Proof.
  unfold _consume_coord, _move_between_coord_and_attr, _move_between_member_dicts,
    move_between_bins_dicts. destruct o as [cs ats bs n]. simpl.
  destruct (cs !! name) as [v|] eqn:Hc; simpl.
  - rewrite lookup_insert_eq. destruct bs as [[idx bc ba]|]; simpl; [|done].
    destruct (bc !! name) as [w|] eqn:Hb; simpl; [|done].
    by rewrite lookup_insert_eq.
  - destruct bs as [[idx bc ba]|]; simpl; [|done].
    destruct (bc !! name) as [w|] eqn:Hb; simpl; [|done].
    by rewrite lookup_insert_eq.
Qed.

End Transform.

Arguments Transform : clear implicits.

(** ** An example: two names that are renames of each other *)

Definition ex_renames : gmap string (RuleGraph.Producer string) :=
  {[ "a" := RuleGraph.PStr "b"; "b" := RuleGraph.PStr "a" ]}.

Definition ex_call (func : string) (kwargs : gmap string (option (list (Z * Z))))
    : Evaluate.res (Evaluate.Output (list (Z * Z))) :=
  inl Evaluate.FuncError.

(** The transform of [ex_sliced] before any name has been resolved. *)
Definition ex_transform : Transform string (list (Z * Z)) (list (Z * Z)) :=
  mkTransform ex_sliced ∅ [] [] [] [].

(** [_get_coord] with the primitives of the examples. *)
Definition ex_get_coord (graph : gmap string (RuleGraph.Producer string))
    (outputs : list string) :=
  _get_coord RuleGraph.ex_argspec (λ _, false) ex_call
    ex_dense_error ex_bins_error ex_copy_indices graph outputs.

(** X21. The recursive resolution of a name ends, for every graph and every
    state of the transform, with values or with an error: a recursion depth
    of one more than the number of names of the graph is enough, and a
    larger one gives the same result. *)
Theorem get_coord_terminates {Func Var Indices}
    (getfullargspec : Func → RuleGraph.ArgSpec) (is_binned : Var → bool)
    (call : Func → gmap string (option Var) → Evaluate.res (Evaluate.Output Var))
    (dense_error : Var → option WriteBack.Exn)
    (bins_error : Indices → Var → option WriteBack.Exn)
    (copy_indices : Indices → Indices)
    (_graph : gmap string (RuleGraph.Producer Func)) (_outputs : list string)
    (name : string) (t : Transform Func Var Indices) :
  ∃ r,
    _get_coord getfullargspec is_binned call dense_error bins_error
      copy_indices _graph _outputs (S (size (dom _graph))) name t = Some r
    ∧ ∀ fuel, (S (size (dom _graph)) ≤ fuel)%nat →
        _get_coord getfullargspec is_binned call dense_error bins_error
          copy_indices _graph _outputs fuel name t = Some r.
Proof.
  destruct (get_coord_returns getfullargspec is_binned call dense_error
              bins_error copy_indices _graph _outputs (size (dom _graph)) name t)
    as [r Hr].
  { apply subseteq_size. unfold open_names. set_solver. }
  exists r. split; [done|]. intros fuel Hfuel.
  by eapply get_coord_mono.
Qed.

Lemma get_coord_terminates_witness :
  ∃ r, ex_get_coord ex_renames [] 4 "a" ex_transform = Some r.
Proof.
  destruct (get_coord_terminates RuleGraph.ex_argspec (λ _, false) ex_call
              ex_dense_error ex_bins_error ex_copy_indices
              ex_renames [] "a" ex_transform) as (r & _ & Hr).
  exists r. apply Hr. vm_compute. lia.
Defined.

(** X22. Cycle detection of the recursive transform: when a set of names
    are renames of each other and [_exists] is false for each of them (none
    is a coordinate or an attribute of the data, and no coordinate shadows
    an attribute), resolving any of them raises the Cycle-detected error. *)
Theorem rename_cycle_detected {Func Var Indices}
    (getfullargspec : Func → RuleGraph.ArgSpec) (is_binned : Var → bool)
    (call : Func → gmap string (option Var) → Evaluate.res (Evaluate.Output Var))
    (dense_error : Var → option WriteBack.Exn)
    (bins_error : Indices → Var → option WriteBack.Exn)
    (copy_indices : Indices → Indices)
    (_graph : gmap string (RuleGraph.Producer Func)) (_outputs : list string)
    (names : gset string) (name : string) (t : Transform Func Var Indices) :
  renames_within _graph names →
  name ∈ names →
  (∀ n, n ∈ names → _exists t n = inr false) →
  _get_coord getfullargspec is_binned call dense_error bins_error
    copy_indices _graph _outputs (S (size (dom _graph))) name t
  = Some (inl CycleDetected).
Proof.
  intros Hren Hname Hnone.
  destruct (get_coord_returns getfullargspec is_binned call dense_error
              bins_error copy_indices _graph _outputs (size (dom _graph)) name t)
    as [r Hr].
  { apply subseteq_size. unfold open_names. set_solver. }
  rewrite Hr. f_equal.
  by eapply (get_coord_rename_cycle getfullargspec is_binned call
               dense_error bins_error copy_indices _graph _outputs names).
Qed.

Lemma rename_cycle_detected_witness :
  ex_get_coord ex_renames [] 3 "a" ex_transform = Some (inl CycleDetected).
Proof.
  apply (rename_cycle_detected RuleGraph.ex_argspec (λ _, false) ex_call
           ex_dense_error ex_bins_error ex_copy_indices ex_renames []
           {[ "a"; "b" ]} "a" ex_transform).
  - intros n [Hn|Hn]%elem_of_union; apply elem_of_singleton in Hn; subst n.
    + exists "b". split; [set_solver|]. vm_compute. reflexivity.
    + exists "a". split; [set_solver|]. vm_compute. reflexivity.
  - set_solver.
  - intros n [Hn|Hn]%elem_of_union; apply elem_of_singleton in Hn; subst n;
      vm_compute; reflexivity.
Defined.

(** X23. Look-up errors of the recursive transform. A name that is not on
    the data, not in the memo and not in the graph raises [KeyError]. On
    binned data, a name that is an output and is on the data without a
    per-event value raises [NotFoundError]: [_get_existing] reads it from
    the metadata of the bins without a default. A name that is both a
    coordinate and an attribute of the data raises [DataArrayError] when it
    is looked up, whatever the graph holds. *)
Theorem get_coord_lookup_errors {Func Var Indices}
    (getfullargspec : Func → RuleGraph.ArgSpec) (is_binned : Var → bool)
    (call : Func → gmap string (option Var) → Evaluate.res (Evaluate.Output Var))
    (dense_error : Var → option WriteBack.Exn)
    (bins_error : Indices → Var → option WriteBack.Exn)
    (copy_indices : Indices → Indices)
    (_graph : gmap string (RuleGraph.Producer Func)) (_outputs : list string)
    (fuel : nat) (name : string) (t : Transform Func Var Indices) :
  (_exists t name = inr false → name ∉ _memo t → _graph !! name = None →
   _get_coord getfullargspec is_binned call dense_error bins_error
     copy_indices _graph _outputs (S fuel) name t = Some (inl (KeyError name)))
  ∧ (∀ p bm m, bins (obj t) = Some p → bins_meta p = inr bm →
     bm !! name = None → meta (obj t) = inr m → is_Some (m !! name) →
     name ∈ _outputs →
     _get_coord getfullargspec is_binned call dense_error bins_error
       copy_indices _graph _outputs (S fuel) name t
     = Some (inl (NotFoundError name)))
  ∧ (is_Some (coords (obj t) !! name) → is_Some (attrs (obj t) !! name) →
     _get_coord getfullargspec is_binned call dense_error bins_error
       copy_indices _graph _outputs (S fuel) name t
     = Some (inl DataArrayError)).
Proof.
  split_and!.
  - intros Hex Hmemo Hno. rewrite get_coord_S, Hex.
    rewrite bool_decide_eq_false_2 by done. unfold _add_coord.
    change (_exists (add_memo t name) name) with (_exists t name).
    by rewrite Hex, Hno.
  - intros p bm m Hp Hbm Hnone Hm Hsome Hout. rewrite get_coord_S.
    assert (Hex : _exists t name = inr true).
    { unfold _exists. rewrite Hp, Hbm, Hm. simpl.
      by rewrite (bool_decide_eq_true_2 _ Hsome). }
    rewrite Hex, bool_decide_eq_true_2 by done.
    unfold _get_existing. simpl. rewrite Hp, Hbm. simpl. by rewrite Hnone.
  - intros Hc Ha. rewrite get_coord_S.
    assert (Hmeta : meta (obj t) = inl DataArrayError).
    { unfold meta. rewrite decide_False; [done|].
      intros Hempty. apply elem_of_dom in Hc, Ha.
      assert (name ∈ dom (coords (obj t)) ∩ dom (attrs (obj t))) as Hin
        by (by apply elem_of_intersection).
      rewrite Hempty in Hin. by apply elem_of_empty in Hin. }
    assert (Hex : _exists t name = inl DataArrayError).
    { unfold _exists. destruct (bins (obj t)) as [p|]; simpl.
      - unfold bins_meta. case_decide; simpl; [by rewrite Hmeta|done].
      - by rewrite Hmeta. }
    by rewrite Hex.
Qed.

Lemma get_coord_lookup_errors_witness :
  ex_get_coord ex_renames [] 1 "z" ex_transform = Some (inl (KeyError "z"))
  ∧ ex_get_coord ex_renames ["t"] 1 "t"
      (mkTransform (mkDA {[ "t" := [] ]} ∅ (Some (mkPayload [] ∅ ∅)) 0) ∅ [] [] [] [])
    = Some (inl (NotFoundError "t"))
  ∧ ex_get_coord ex_renames [] 1 "x"
      (mkTransform (mkDA {[ "x" := [] ]} {[ "x" := [] ]} None 0) ∅ [] [] [] [])
    = Some (inl DataArrayError).
Proof.
  split_and!.
  - apply (proj1 (get_coord_lookup_errors RuleGraph.ex_argspec (λ _, false) ex_call
                    ex_dense_error ex_bins_error ex_copy_indices
                    ex_renames [] 0 "z" ex_transform)).
    + vm_compute. reflexivity.
    + apply not_elem_of_nil.
    + vm_compute. reflexivity.
  - apply (proj1 (proj2 (get_coord_lookup_errors RuleGraph.ex_argspec (λ _, false)
                           ex_call ex_dense_error ex_bins_error ex_copy_indices
                           ex_renames ["t"] 0 "t" _))
             (mkPayload [] ∅ ∅) ∅ {[ "t" := [] ]}).
    + reflexivity.
    + vm_compute. reflexivity.
    + vm_compute. reflexivity.
    + vm_compute. reflexivity.
    + vm_compute. by eexists.
    + apply list_elem_of_singleton. reflexivity.
  - apply (proj2 (proj2 (get_coord_lookup_errors RuleGraph.ex_argspec (λ _, false)
                           ex_call ex_dense_error ex_bins_error ex_copy_indices
                           ex_renames [] 0 "x" _))).
    + vm_compute. by eexists.
    + vm_compute. by eexists.
Defined.

(** X24. Consuming a coordinate moves it, and its per-event value, from the
    coordinates to the attributes and returns the values; producing it
    afterwards moves them back. For a name that is not an attribute before,
    the data array after the two moves is the one before them. *)
Theorem consume_produce_round_trip {Var Indices}
    (o : DataArray Var Indices) (name : string) :
  name ∉ dom (attrs o) →
  (∀ p, bins o = Some p → name ∉ dom (battrs p)) →
  (_consume_coord o name).2
  = (coords o !! name, match bins o with
                       | Some p => bcoords p !! name
                       | None => None
                       end)
  ∧ held name (_consume_coord o name).1
    = (None, coords o !! name,
       (λ p, (None, bcoords p !! name)) <$> bins o)
  ∧ (∀ n, n ≠ name → held n (_consume_coord o name).1 = held n o)
  ∧ (_produce_coord (_consume_coord o name).1 name).1 = o.
Proof.
  intros Ha Hb. apply not_elem_of_dom in Ha.
  assert (Hb' : ∀ p, bins o = Some p → battrs p !! name = None).
  { intros p Hp. by apply not_elem_of_dom, Hb. }
  split_and!.
  - rewrite consume_coord_snd. rewrite Ha. f_equal.
    + by destruct (coords o !! name).
    + destruct (bins o) as [p|]; [|done]. rewrite (Hb' p eq_refl).
      by destruct (bcoords p !! name).
  - rewrite consume_coord_fst. unfold held. simpl. rewrite lookup_delete_eq.
    f_equal; [f_equal|].
    + destruct (coords o !! name); [by rewrite lookup_insert_eq|done].
    + destruct (bins o) as [p|]; [|done]. simpl. rewrite lookup_delete_eq.
      f_equal. f_equal.
      destruct (bcoords p !! name); [by rewrite lookup_insert_eq|].
      by apply Hb'.
  - intros n Hne. rewrite consume_coord_fst. unfold held. simpl.
    rewrite lookup_delete_ne by done. f_equal; [f_equal|].
    + destruct (coords o !! name); [by rewrite lookup_insert_ne|done].
    + destruct (bins o) as [p|]; [|done]. simpl. rewrite lookup_delete_ne by done.
      f_equal. f_equal.
      destruct (bcoords p !! name); [by rewrite lookup_insert_ne|done].
  - rewrite produce_coord_fst, consume_coord_fst. simpl.
    destruct o as [cs ats bs n]. simpl in *. f_equal.
    + destruct (cs !! name) as [v|] eqn:Hc.
      * rewrite lookup_insert_eq. by apply insert_delete_id.
      * rewrite Ha. by apply delete_id.
    + destruct (cs !! name) as [v|] eqn:Hc.
      * by apply delete_insert_id.
      * by apply delete_id.
    + destruct bs as [[idx bc ba]|]; [|done]. simpl. f_equal.
      specialize (Hb' _ eq_refl). simpl in Hb'. f_equal.
      * destruct (bc !! name) as [v|] eqn:Hc.
        -- rewrite lookup_insert_eq. by apply insert_delete_id.
        -- rewrite Hb'. by apply delete_id.
      * destruct (bc !! name) as [v|] eqn:Hc.
        -- by apply delete_insert_id.
        -- by apply delete_id.
Qed.

Lemma consume_produce_round_trip_witness :
  (_consume_coord ex_sliced "x").2 = (Some [], Some [(2, 5); (5, 9)])
  ∧ (_produce_coord (_consume_coord ex_sliced "x").1 "x").1 = ex_sliced.
Proof.
  destruct (consume_produce_round_trip ex_sliced "x") as (Hv & _ & _ & Hback).
  - apply not_elem_of_dom. vm_compute. reflexivity.
  - intros p [= <-]. apply not_elem_of_dom. vm_compute. reflexivity.
  - split; [|exact Hback]. rewrite Hv. vm_compute. reflexivity.
Defined.

(** X25. After [_store_coord] of the recursive transform has stored a pair
    of values under a name, the name is not an attribute of the data array,
    a dense value is the coordinate of that name, and an event value is the
    per-event coordinate of that name and not a per-event attribute. Other
    names are left as they are. *)
Theorem store_coord_pair {Var Indices}
    (dense_error : Var → option WriteBack.Exn)
    (bins_error : Indices → Var → option WriteBack.Exn)
    (copy_indices : Indices → Indices)
    (o o' : DataArray Var Indices) (name : string) (c : option Var * option Var) :
  _store_coord dense_error bins_error copy_indices o name c = inr o' →
  attrs o' !! name = None
  ∧ (∀ v, c.1 = Some v → coords o' !! name = Some v)
  ∧ (c.1 = None → coords o' !! name = coords o !! name)
  ∧ (∀ v, c.2 = Some v →
       ∃ p', bins o' = Some p' ∧ bcoords p' !! name = Some v
         ∧ battrs p' !! name = None)
  ∧ (∀ n, n ≠ name → held n o' = held n o).
Proof.
  unfold _store_coord. intros Hs.
  destruct (match c.1 with
            | Some dense_coord => store_dense dense_error name coord o dense_coord
            | None => ok o
            end) as [e|o1] eqn:Hd; [done|]. simpl in Hs.
  assert (H1 : (∀ v, c.1 = Some v → coords o1 !! name = Some v)
               ∧ (c.1 = None → coords o1 !! name = coords o !! name)
               ∧ ∀ n, n ≠ name → held n o1 = held n o).
  { destruct c.1 as [v|].
    - unfold store_dense in Hd. destruct (dense_error v); [done|].
      injection Hd as <-. simpl. split_and!; [|done|].
      + intros ? [= <-]. apply lookup_insert_eq.
      + intros n Hne. unfold held. simpl. by rewrite lookup_insert_ne.
    - injection Hd as <-. done. }
  destruct H1 as (Hdense & Hnone & Hframe1).
  set (o2 := if bool_decide (name ∈ dom (attrs o1))
             then mkDA (coords o1) (delete name (attrs o1)) (bins o1) (copies o1)
             else o1) in Hs.
  assert (H2 : attrs o2 !! name = None ∧ coords o2 = coords o1
               ∧ bins o2 = bins o1 ∧ ∀ n, n ≠ name → held n o2 = held n o1).
  { unfold o2. case_bool_decide as Hin; simpl.
    - split_and!; [apply lookup_delete_eq|done..|].
      intros n Hne. unfold held. simpl. by rewrite lookup_delete_ne.
    - split_and!; [by apply not_elem_of_dom|done..]. }
  destruct H2 as (Hattr & Hc2 & Hb2 & Hframe2). clearbody o2.
  destruct c.2 as [w|].
  - unfold _store_event_coord in Hs.
    assert (Hone : ∀ o3 o4, store_bins bins_error name coord o4 w = inr o3 →
              attrs o3 = attrs o4 ∧ coords o3 = coords o4
              ∧ (∃ p3, bins o3 = Some p3 ∧ bcoords p3 !! name = Some w)
              ∧ ∀ n, n ≠ name → held n o3 = held n o4).
    { intros o3 o4 Hst. split_and!.
      - unfold store_bins in Hst. destruct (bins o4) as [p|]; [|done].
        destruct (bins_error (indices p) w); [done|]. by injection Hst as <-.
      - unfold store_bins in Hst. destruct (bins o4) as [p|]; [|done].
        destruct (bins_error (indices p) w); [done|]. by injection Hst as <-.
      - unfold store_bins in Hst. destruct (bins o4) as [p|]; [|done].
        destruct (bins_error (indices p) w); [done|]. injection Hst as <-.
        eexists. split; [done|]. apply lookup_insert_eq.
      - intros n Hne. by eapply held_store_bins. }
    assert (H3 : ∃ o3, (attrs o3 = attrs o2 ∧ coords o3 = coords o2
                 ∧ (∃ p3, bins o3 = Some p3 ∧ bcoords p3 !! name = Some w)
                 ∧ ∀ n, n ≠ name → held n o3 = held n o2)
               ∧ o' = mkDA (coords o3) (attrs o3)
                        ((λ p, if bool_decide (name ∈ dom (battrs p))
                               then pop_payload attr name p else p) <$> bins o3)
                        (copies o3)).
    { destruct (store_bins bins_error name coord o2 w) as [e|o4] eqn:Hfirst.
      - destruct e; simpl in Hs; try done.
        destruct (store_bins bins_error name coord (copy_data copy_indices o2) w)
          as [e|o3] eqn:Hr; [done|]. simpl in Hs. injection Hs as <-.
        exists o3. split; [|done].
        destruct (Hone _ _ Hr) as (Ha & Hc & Hp & Hf). split_and!; [done..|].
        intros n Hne. rewrite (Hf n Hne). apply held_copy_data.
      - simpl in Hs. injection Hs as <-. exists o4. split; [|done].
        by apply Hone. }
    destruct H3 as (o3 & (Ha3 & Hc3 & (p3 & Hp3 & Hw) & Hframe3) & ->).
    simpl. rewrite Hp3. simpl.
    split_and!.
    + congruence.
    + intros v Hv. rewrite Hc3, Hc2. by apply Hdense.
    + intros Hv. rewrite Hc3, Hc2. by apply Hnone.
    + intros ? [= <-]. eexists. split; [done|]. case_bool_decide as Hin; simpl.
      * split; [done|]. apply lookup_delete_eq.
      * split; [done|]. by apply not_elem_of_dom.
    + intros n Hne. rewrite <- (Hframe1 n Hne), <- (Hframe2 n Hne), <- (Hframe3 n Hne).
      unfold held. simpl. rewrite Hp3. simpl. f_equal. f_equal. f_equal.
      * by case_bool_decide.
      * case_bool_decide; simpl; [|done]. by rewrite lookup_delete_ne.
  - injection Hs as <-. split_and!; [done| | |done|].
    + intros v Hv. rewrite Hc2. by apply Hdense.
    + intros Hv. rewrite Hc2. by apply Hnone.
    + intros n Hne. by rewrite (Hframe2 n Hne), (Hframe1 n Hne).
Qed.

Lemma store_coord_pair_witness :
  ∃ o', _store_coord ex_dense_error ex_bins_error ex_copy_indices ex_sliced "y"
          (Some [], Some [(0, 3); (3, 7)]) = inr o'
    ∧ attrs o' !! "y" = None ∧ coords o' !! "y" = Some [].
Proof.
  destruct (_store_coord ex_dense_error ex_bins_error ex_copy_indices ex_sliced "y"
              (Some [], Some [(0, 3); (3, 7)])) as [e|o'] eqn:Hs;
    [vm_compute in Hs; discriminate|].
  exists o'. split; [reflexivity|].
  destruct (store_coord_pair ex_dense_error ex_bins_error ex_copy_indices
              ex_sliced o' "y" (Some [], Some [(0, 3); (3, 7)]) Hs)
    as (Ha & Hc & _).
  split; [exact Ha|]. by apply Hc.
Defined.

End CoordTransform.

(* ===================================================================== *)
(** * Part XIII: the renaming of dimensions of [coords.py]
      ([_rules_with_dep], [_dim_name_changes])                             *)
(* ===================================================================== *)

Module DimNames.

Import RuleGraph.
Import Storage.

(** [incoming_dim_coords[name]] raises [KeyError] for a name without an
    entry. *)
Inductive Exn := KeyError (name : string).

Abbreviation res := (result Exn).

Section Names.

Context {Func : Type}.

(** [_rules_with_dep] *)
Definition _rules_with_dep (dep : string) (rules : list (_Rule Func))
    : list (_Rule Func) :=
  filter (λ r, dep ∈ dependencies r) rules.

(** The variables of the loop of [_dim_name_changes]. *)
Record State := mkState {
  pending : list string;
  incoming_dim_coords : gmap string (list string);
  name_changes : gmap string string;
}.

(** [incoming_dim_coords.setdefault(out, []).append(dim)] *)
Definition append_incoming (dim : string) (incoming : gmap string (list string))
    (out : string) : gmap string (list string) :=
  <[out := default [] (incoming !! out) ++ [dim]]> incoming.

(** [for rule in filter(lambda r: len(r.out_names) == 1, outgoing):
       incoming_dim_coords.setdefault(rule.out_names[0], []).append(dim)] *)
Definition record_incoming (dim : string) (outgoing : list (_Rule Func))
    (incoming : gmap string (list string)) : gmap string (list string) :=
  foldl (λ incoming rule,
           match out_names rule with
           | out :: _ => append_incoming dim incoming out
           | [] => incoming
           end)
        incoming
        (filter (λ r, length (out_names r) = 1%nat) outgoing).

(** One iteration of the loop, after [name = pending.pop(0)]; [rest] is
    what is left of [pending]. *)
Definition iteration (rules : list (_Rule Func)) (name : string) (rest : list string)
    (st : State) : res State :=
  match incoming_dim_coords st !! name with
  | None => raise (KeyError name)
  | Some [dim] =>
      let name_changes := <[dim := name]> (name_changes st) in
      let outgoing := _rules_with_dep name rules in
      let pending :=
        match outgoing with
        | [rule] =>
            match out_names rule with
            | [out] => rest ++ [out]
            | _ => rest
            end
        | _ => rest
        end in
      ok (mkState pending
            (record_incoming dim outgoing (incoming_dim_coords st))
            name_changes)
  | Some _ => ok (mkState rest (incoming_dim_coords st) (name_changes st))
  end.

(** [while pending: ...]; [None] stands for a loop that runs longer than
    the fuel. *)
Fixpoint while_pending (fuel : nat) (rules : list (_Rule Func)) (st : State)
    : option (res (gmap string string)) :=
  match fuel with
  | O => None
  | S fuel =>
      match pending st with
      | [] => Some (ok (name_changes st))
      | name :: rest =>
          match iteration rules name rest st with
          | inl e => Some (inl e)
          | inr st => while_pending fuel rules st
          end
      end
  end.

(** [dim_coords] of [_dim_name_changes] *)
Definition dim_coords (rules : list (_Rule Func)) (dims : list string) : list string :=
  filter (λ name, name ∈ dims) (_rule_output_names rules FetchType).

(** The variables of the loop when it is entered. *)
Definition initial (rules : list (_Rule Func)) (dims : list string) : State :=
  let pending := dim_coords rules dims in
  mkState pending (list_to_map ((λ name, (name, [name])) <$> pending)) ∅.

(** [_dim_name_changes] *)
Definition _dim_name_changes (fuel : nat) (rules : list (_Rule Func))
    (dims : list string) : option (res (gmap string string)) :=
  while_pending fuel rules (initial rules dims).

(** ** Facts *)

(** The output of a rule with one output. *)
Definition single_out (rule : _Rule Func) : option string :=
  match out_names rule with
  | [out] => Some out
  | _ => None
  end.

(** The outputs of the rules of [rules] with one output. *)
Definition singles (rules : list (_Rule Func)) : list string := omap single_out rules.

(** [child] is the only output of a rule that depends on [parent]. *)
Definition child_of (rules : list (_Rule Func)) (parent child : string) : Prop :=
  ∃ rule, rule ∈ rules ∧ out_names rule = [child] ∧ parent ∈ dependencies rule.

(** [name] is reached from [dim] through rules with one output. *)
Definition leads (rules : list (_Rule Func)) : string → string → Prop :=
  rtc (child_of rules).

(** The number of dimension names recorded for [n]. *)
Definition len_at (incoming : gmap string (list string)) (n : string) : nat :=
  length (default [] (incoming !! n)).

(** The entries of [pending] that the loop will not skip, as things are. *)
Definition live (st : State) : nat :=
  length (filter (λ n, len_at (incoming_dim_coords st) n = 1%nat) (pending st)).

(** The number of outputs that have no entry in [incoming_dim_coords] yet. *)
Definition free (rules : list (_Rule Func)) (st : State) : nat :=
  size ((list_to_set (singles rules) : gset string) ∖ dom (incoming_dim_coords st)).

(** Every name of [pending] has an entry, and no entry is empty. *)
Definition well_formed (st : State) : Prop :=
  (∀ n, n ∈ pending st → n ∈ dom (incoming_dim_coords st))
  ∧ ∀ n l, incoming_dim_coords st !! n = Some l → l ≠ [].

(** [st'] is closer to the end of the loop than [st]. *)
Definition smaller (rules : list (_Rule Func)) (st' st : State) : Prop :=
  (free rules st' < free rules st)%nat
  ∨ ((free rules st' ≤ free rules st)%nat ∧ (live st' < live st)%nat)
  ∨ ((free rules st' ≤ free rules st)%nat ∧ (live st' ≤ live st)%nat
     ∧ (length (pending st') < length (pending st))%nat).

Lemma record_incoming_singles dim outgoing incoming :
  record_incoming dim outgoing incoming
  = foldl (append_incoming dim) incoming (singles outgoing).
Proof.
  unfold record_incoming, singles. revert incoming.
  induction outgoing as [|rule outgoing IH]; intros incoming; [done|].
  rewrite filter_cons. unfold single_out at 1. simpl.
  destruct (out_names rule) as [|out [|out' outs]] eqn:Hout; simpl.
  - apply IH.
  - rewrite Hout. apply IH.
  - apply IH.
Qed.

Lemma singles_filter (P : _Rule Func → Prop) `{∀ r, Decision (P r)} rules out :
  out ∈ singles (filter P rules) →
  ∃ rule, rule ∈ rules ∧ P rule ∧ out_names rule = [out].
Proof.
  unfold singles. intros (rule & Hin & Hout)%list_elem_of_omap.
  apply list_elem_of_filter in Hin as [HP Hin].
  exists rule. split_and!; [done..|].
  unfold single_out in Hout. destruct (out_names rule) as [|o [|o' os]]; try done.
  by injection Hout as ->.
Qed.

Lemma singles_with_dep name rules out :
  out ∈ singles (_rules_with_dep name rules) →
  out ∈ singles rules ∧ child_of rules name out.
Proof.
  intros (rule & Hin & Hdep & Hout)%singles_filter. split.
  - unfold singles. apply list_elem_of_omap. exists rule. split; [done|].
    unfold single_out. by rewrite Hout.
  - by exists rule.
Qed.

Section Fold.

Variable dim : string.

Lemma fold_append_dom cs : ∀ incoming n,
  n ∈ dom (foldl (append_incoming dim) incoming cs) ↔ n ∈ dom incoming ∨ n ∈ cs.
Proof.
  induction cs as [|c cs IH]; intros incoming n; simpl.
  - rewrite elem_of_nil. naive_solver.
  - rewrite IH. unfold append_incoming. rewrite dom_insert, elem_of_union,
      elem_of_singleton, elem_of_cons. naive_solver.
Qed.

Lemma fold_append_other cs : ∀ incoming n,
  n ∉ cs → foldl (append_incoming dim) incoming cs !! n = incoming !! n.
Proof.
  induction cs as [|c cs IH]; intros incoming n Hn; simpl; [done|].
  apply not_elem_of_cons in Hn as [Hne Hn]. rewrite IH by done.
  unfold append_incoming. by rewrite lookup_insert_ne.
Qed.

Lemma fold_append_len cs : ∀ incoming n,
  (len_at incoming n ≤ len_at (foldl (append_incoming dim) incoming cs) n)%nat
  ∧ (n ∈ cs →
     (len_at incoming n < len_at (foldl (append_incoming dim) incoming cs) n)%nat).
Proof.
  induction cs as [|c cs IH]; intros incoming n; simpl.
  - split; [done|]. by intros ?%elem_of_nil.
  - destruct (IH (append_incoming dim incoming c) n) as [Hle Hlt].
    assert (Hstep : (len_at incoming n ≤ len_at (append_incoming dim incoming c) n)%nat
                    ∧ (n = c →
                       (len_at incoming n
                        < len_at (append_incoming dim incoming c) n)%nat)).
    { unfold len_at, append_incoming. destruct (decide (n = c)) as [->|Hne].
      - rewrite lookup_insert_eq. simpl. rewrite length_app. simpl. lia.
      - rewrite lookup_insert_ne by done. split; [lia|done]. }
    destruct Hstep as [Hle1 Hlt1]. split; [lia|].
    intros [->|Hin]%elem_of_cons.
    + specialize (Hlt1 eq_refl). lia.
    + specialize (Hlt Hin). lia.
Qed.

Lemma fold_append_elem cs : ∀ incoming n l x,
  foldl (append_incoming dim) incoming cs !! n = Some l → x ∈ l →
  (∃ l0, incoming !! n = Some l0 ∧ x ∈ l0) ∨ (x = dim ∧ n ∈ cs).
Proof.
  induction cs as [|c cs IH]; intros incoming n l x; simpl.
  - intros Hl Hx. left. by exists l.
  - intros Hl Hx. destruct (IH _ _ _ _ Hl Hx) as [(l0 & Hl0 & Hx0)|[-> Hin]].
    + unfold append_incoming in Hl0. destruct (decide (n = c)) as [->|Hne].
      * rewrite lookup_insert_eq in Hl0. injection Hl0 as <-.
        apply elem_of_app in Hx0 as [Hx0|Hx0%list_elem_of_singleton].
        -- left. destruct (incoming !! c) as [l1|]; [by exists l1|].
           by apply elem_of_nil in Hx0.
        -- right. split; [done|]. by left.
      * rewrite lookup_insert_ne in Hl0 by done. left. by exists l0.
    + right. split; [done|]. by right.
Qed.

End Fold.

Lemma filter_length_le (P Q : string → Prop) `{∀ n, Decision (P n)}
    `{∀ n, Decision (Q n)} (l : list string) :
  (∀ n, n ∈ l → P n → Q n) → (length (filter P l) ≤ length (filter Q l))%nat.
Proof.
  induction l as [|n l IH]; intros Himp; [done|].
  rewrite !filter_cons.
  assert (Hl : (length (filter P l) ≤ length (filter Q l))%nat).
  { apply IH. intros m Hm. apply Himp. by right. }
  destruct (decide (P n)) as [HP|HP].
  - rewrite decide_True by (apply Himp; [by left|done]). simpl. lia.
  - destruct (decide (Q n)); simpl; lia.
Qed.

Lemma well_formed_len st n :
  well_formed st → n ∈ dom (incoming_dim_coords st) →
  (1 ≤ len_at (incoming_dim_coords st) n)%nat.
Proof.
  intros [_ Hne] [l Hl]%elem_of_dom. unfold len_at. rewrite Hl. simpl.
  specialize (Hne _ _ Hl). destruct l; [done|simpl; lia].
Qed.

(** The names that one iteration may append to [pending]. *)
Lemma iteration_pending rules name rest st st' :
  iteration rules name rest st = inr st' →
  pending st' = rest
  ∨ ∃ out, pending st' = rest ++ [out]
      ∧ out ∈ singles (_rules_with_dep name rules)
      ∧ ∃ dim, incoming_dim_coords st !! name = Some [dim].
Proof.
  unfold iteration. destruct (incoming_dim_coords st !! name) as [[|dim [|d ds]]|];
    [intros [= <-]; by left| |intros [= <-]; by left|done].
  intros [= <-]. simpl.
  destruct (_rules_with_dep name rules) as [|rule [|rule' rs]] eqn:Hout;
    [by left| |by left].
  destruct (out_names rule) as [|out [|out' outs]] eqn:Hnames; [by left| |by left].
  right. exists out. split; [done|]. split; [|by exists dim].
  unfold singles. simpl. unfold single_out. rewrite Hnames. simpl. by left.
Qed.

(** What one iteration does, in the two cases of the loop. *)
Lemma iteration_cases rules name rest st st' :
  iteration rules name rest st = inr st' →
  (∃ l, incoming_dim_coords st !! name = Some l ∧ length l ≠ 1%nat
     ∧ st' = mkState rest (incoming_dim_coords st) (name_changes st))
  ∨ (∃ dim, incoming_dim_coords st !! name = Some [dim]
       ∧ incoming_dim_coords st'
         = foldl (append_incoming dim) (incoming_dim_coords st)
             (singles (_rules_with_dep name rules))
       ∧ name_changes st' = <[dim := name]> (name_changes st)).
Proof.
  unfold iteration. destruct (incoming_dim_coords st !! name) as [[|dim [|d ds]]|];
    [| | |done].
  - intros [= <-]. left. exists []. done.
  - intros [= <-]. right. exists dim. simpl.
    by rewrite record_incoming_singles.
  - intros [= <-]. left. eexists. split; [done|]. split; [simpl; lia|done].
Qed.

Lemma iteration_smaller rules name rest st :
  pending st = name :: rest → well_formed st →
  ∃ st', iteration rules name rest st = inr st'
    ∧ well_formed st' ∧ smaller rules st' st.
Proof.
  intros Hpend Hwf.
  assert (Hname : name ∈ dom (incoming_dim_coords st)).
  { apply Hwf. rewrite Hpend. by left. }
  assert (Hrest : ∀ n, n ∈ rest → n ∈ dom (incoming_dim_coords st)).
  { intros n Hn. apply Hwf. rewrite Hpend. by right. }
  destruct (iteration rules name rest st) as [e|st'] eqn:Hit.
  { unfold iteration in Hit. apply elem_of_dom in Hname as [l Hl].
    rewrite Hl in Hit. by destruct l as [|? [|? ?]]. }
  exists st'. split; [done|].
  pose proof (iteration_pending _ _ _ _ _ Hit) as Hp.
  destruct (iteration_cases _ _ _ _ _ Hit) as [(l & Hl & Hlen & ->)|(dim & Hl & Hinc & Hnc)].
  - (* skipped *)
    split.
    + split; [done|]. apply Hwf.
    + right. right. unfold free, live. simpl. rewrite Hpend. simpl.
      rewrite filter_cons, decide_False; [lia|].
      unfold len_at. rewrite Hl. done.
  - set (cs := singles (_rules_with_dep name rules)) in *.
    assert (Hdom : ∀ n, n ∈ dom (incoming_dim_coords st') ↔
              n ∈ dom (incoming_dim_coords st) ∨ n ∈ cs).
    { intros n. rewrite Hinc. apply fold_append_dom. }
    assert (Hlen : ∀ n,
              (len_at (incoming_dim_coords st) n ≤ len_at (incoming_dim_coords st') n)%nat
              ∧ (n ∈ cs → (len_at (incoming_dim_coords st) n
                           < len_at (incoming_dim_coords st') n)%nat)).
    { intros n. rewrite Hinc. apply fold_append_len. }
    assert (Hwf' : well_formed st').
    { split.
      - intros n Hn. apply Hdom. destruct Hp as [Hp|(out & Hp & Hout & _)].
        + left. apply Hrest. by rewrite <- Hp.
        + rewrite Hp in Hn. apply elem_of_app in Hn as [Hn|Hn%list_elem_of_singleton].
          * left. by apply Hrest.
          * right. by subst n.
      - intros n l Hn ->.
        assert (Hin : n ∈ dom (incoming_dim_coords st')) by (apply elem_of_dom; eauto).
        destruct (Hlen n) as [Hle Hlt].
        assert (len_at (incoming_dim_coords st') n = 0%nat) as H0
          by (unfold len_at; by rewrite Hn).
        apply Hdom in Hin as [Hin|Hin].
        + pose proof (well_formed_len st n Hwf Hin). lia.
        + specialize (Hlt Hin). lia. }
    split; [done|].
    destruct (decide (Forall (λ c, c ∈ dom (incoming_dim_coords st)) cs)) as [Hall|Hsome].
    + (* no new entry *)
      rewrite Forall_forall in Hall.
      right. left. split.
      * unfold free. apply Nat.eq_le_incl. f_equal. f_equal.
        apply set_eq. intros n. rewrite Hdom. naive_solver.
      * unfold live. rewrite Hpend, filter_cons, decide_True
          by (unfold len_at; by rewrite Hl). simpl.
        apply Nat.lt_succ_r.
        destruct Hp as [->|(out & -> & Hout & _)].
        -- apply filter_length_le. intros n Hn Hone.
           pose proof (well_formed_len st n Hwf (Hrest n Hn)).
           destruct (Hlen n) as [Hle _]. lia.
        -- rewrite filter_app, length_app. rewrite filter_cons, decide_False.
           ++ simpl. rewrite Nat.add_0_r. apply filter_length_le. intros n Hn Hone.
              pose proof (well_formed_len st n Hwf (Hrest n Hn)).
              destruct (Hlen n) as [Hle _]. lia.
           ++ pose proof (well_formed_len st out Hwf (Hall out Hout)).
              destruct (Hlen out) as [_ Hlt]. specialize (Hlt Hout). lia.
    + (* a new entry *)
      apply not_Forall_Exists in Hsome; [|apply _].
      apply Exists_exists in Hsome as (c & Hc & Hnew).
      left. unfold free. apply subset_size. split.
      * intros n. rewrite !elem_of_difference, Hdom. naive_solver.
      * intros Hback. specialize (Hback c).
        rewrite !elem_of_difference, Hdom in Hback.
        apply singles_with_dep in Hc as Hc'. destruct Hc' as [Hc' _].
        destruct Hback as [_ Hback]; [|naive_solver].
        split; [|done]. by apply elem_of_list_to_set.
Qed.

(** The loop ends and does not raise. *)
Lemma while_pending_returns rules : ∀ a b c st,
  (free rules st ≤ a)%nat → (live st ≤ b)%nat → (length (pending st) ≤ c)%nat →
  well_formed st →
  ∃ fuel r, while_pending fuel rules st = Some (inr r).
Proof.
  induction a as [a IHa] using lt_wf_ind. intros b.
  induction b as [b IHb] using lt_wf_ind. intros c.
  induction c as [c IHc] using lt_wf_ind. intros st Ha Hb Hc Hwf.
  destruct (pending st) as [|name rest] eqn:Hpend.
  { exists 1%nat, (name_changes st). simpl. by rewrite Hpend. }
  destruct (iteration_smaller rules name rest st Hpend Hwf) as (st' & Hit & Hwf' & Hsm).
  assert (∃ fuel r, while_pending fuel rules st' = Some (inr r)) as (fuel & r & Hr).
  { destruct Hsm as [Hf|[[Hf Hl]|(Hf & Hl & Hp)]].
    - apply (IHa (free rules st') ltac:(lia) (live st') (length (pending st')));
        [lia..|done].
    - apply (IHb (live st') ltac:(lia) (length (pending st'))); [lia..|done].
    - rewrite Hpend in Hp. simpl in Hp, Hc.
      apply (IHc (length (pending st'))); [lia..|done]. }
  exists (S fuel), r. simpl. by rewrite Hpend, Hit.
Qed.

Lemma while_pending_mono rules fuel : ∀ fuel' st r,
  while_pending fuel rules st = Some r → (fuel ≤ fuel')%nat →
  while_pending fuel' rules st = Some r.
Proof.
  induction fuel as [|fuel IH]; intros fuel' st r; [done|].
  intros Hr Hle. destruct fuel' as [|fuel']; [lia|]. simpl in *.
  destruct (pending st) as [|name rest]; [done|].
  destruct (iteration rules name rest st) as [e|st']; [done|].
  apply IH; [done|lia].
Qed.

(** A property that every iteration keeps holds when the loop ends. *)
Lemma while_pending_invariant rules (I : State → Prop) :
  (∀ st name rest st', pending st = name :: rest → I st →
     iteration rules name rest st = inr st' → I st') →
  ∀ fuel st r, I st → while_pending fuel rules st = Some (inr r) →
    ∃ st', I st' ∧ pending st' = [] ∧ name_changes st' = r.
Proof.
  intros Hstep. induction fuel as [|fuel IH]; intros st r HI; [done|]. simpl.
  destruct (pending st) as [|name rest] eqn:Hpend.
  - intros [= <-]. by exists st.
  - destruct (iteration rules name rest st) as [e|st'] eqn:Hit; [done|].
    apply IH. by eapply Hstep.
Qed.

Lemma initial_lookup rules dims n l :
  incoming_dim_coords (initial rules dims) !! n = Some l →
  l = [n] ∧ n ∈ dim_coords rules dims.
Proof.
  unfold initial. simpl. intros Hl%elem_of_list_to_map_2.
  apply list_elem_of_fmap in Hl as (m & [= -> ->] & Hm). done.
Qed.

Lemma initial_lookup_dim rules dims n :
  n ∈ dim_coords rules dims →
  incoming_dim_coords (initial rules dims) !! n = Some [n].
Proof.
  intros Hn. unfold initial. simpl.
  destruct (list_to_map ((λ name, (name, [name])) <$> dim_coords rules dims) !! n)
    as [l|] eqn:Hl.
  - apply elem_of_list_to_map_2 in Hl.
    apply list_elem_of_fmap in Hl as (m & [= -> ->] & Hm). done.
  - apply not_elem_of_list_to_map_2 in Hl. exfalso. apply Hl.
    rewrite <- list_fmap_compose. apply list_elem_of_fmap. by exists n.
Qed.

Lemma initial_well_formed rules dims : well_formed (initial rules dims).
Proof.
  split.
  - intros n Hn. apply elem_of_dom. rewrite initial_lookup_dim; [by eexists|done].
  - intros n l Hl. apply initial_lookup in Hl as [-> _]. done.
Qed.

(** Every recorded dimension name and every renamed dimension is one of
    [dim_coords], and leads to the name it is recorded for. *)
Definition sound (rules : list (_Rule Func)) (dims : list string) (st : State) : Prop :=
  (∀ n l x, incoming_dim_coords st !! n = Some l → x ∈ l →
     x ∈ dim_coords rules dims ∧ leads rules x n)
  ∧ ∀ d n, name_changes st !! d = Some n →
      d ∈ dim_coords rules dims ∧ leads rules d n.

Lemma iteration_sound rules dims st name rest st' :
  sound rules dims st → iteration rules name rest st = inr st' →
  sound rules dims st'.
Proof.
  intros [Hinc Hnc] Hit.
  destruct (iteration_cases _ _ _ _ _ Hit) as [(l & Hl & Hlen & ->)|(dim & Hl & Hinc' & Hnc')];
    [done|].
  assert (Hdim : dim ∈ dim_coords rules dims ∧ leads rules dim name).
  { apply (Hinc name [dim] dim Hl). by left. }
  split.
  - intros n l x Hn Hx. rewrite Hinc' in Hn.
    destruct (fold_append_elem dim _ _ _ _ _ Hn Hx) as [(l0 & Hl0 & Hx0)|[-> Hcs]].
    + by eapply Hinc.
    + split; [apply Hdim|]. apply singles_with_dep in Hcs as [_ Hchild].
      eapply rtc_r; [apply Hdim|done].
  - intros d n. rewrite Hnc'. destruct (decide (d = dim)) as [->|Hne].
    + rewrite lookup_insert_eq. by intros [= <-].
    + rewrite lookup_insert_ne by done. apply Hnc.
Qed.

(** [d] has its first entry and is still pending or has been renamed. *)
Definition covered (d : string) (st : State) : Prop :=
  incoming_dim_coords st !! d = Some [d]
  ∧ (d ∈ pending st ∨ is_Some (name_changes st !! d)).

Lemma iteration_covered rules d st name rest st' :
  (∀ rule, rule ∈ rules → out_names rule = [d] → dependencies rule = []) →
  pending st = name :: rest → covered d st →
  iteration rules name rest st = inr st' → covered d st'.
Proof.
  intros Hd Hpend [Hinc Hin] Hit.
  pose proof (iteration_pending _ _ _ _ _ Hit) as Hp.
  assert (Hrest : d ∈ rest → d ∈ pending st').
  { intros Hr. destruct Hp as [->|(out & -> & _)]; [done|].
    apply elem_of_app. by left. }
  destruct (iteration_cases _ _ _ _ _ Hit) as [(l & Hl & Hlen & ->)|(dim & Hl & Hinc' & Hnc')].
  - split; [done|]. simpl. destruct Hin as [Hin|Hin]; [|by right].
    rewrite Hpend in Hin. apply elem_of_cons in Hin as [->|Hin]; [|by left].
    rewrite Hinc in Hl. injection Hl as <-. done.
  - split.
    + rewrite Hinc', fold_append_other; [done|].
      intros (rule & Hrule & Hdep & Hout)%singles_filter.
      rewrite (Hd rule Hrule Hout) in Hdep. by apply elem_of_nil in Hdep.
    + rewrite Hnc'. destruct Hin as [Hin|Hin].
      * rewrite Hpend in Hin. apply elem_of_cons in Hin as [->|Hin]; [|left; auto].
        right. rewrite Hinc in Hl. injection Hl as <-.
        rewrite lookup_insert_eq. by eexists.
      * right. destruct (decide (d = dim)) as [->|Hne].
        -- rewrite lookup_insert_eq. by eexists.
        -- by rewrite lookup_insert_ne.
Qed.

End Names.

(** ** An example: [x] is a dimension-coordinate, [y] is computed from it,
    and [z] is a coordinate that is not a dimension-coordinate *)

Definition ex_chain : list (_Rule string) :=
  [ _FetchRule ["x"]; _FetchRule ["z"]; _ComputeRule ["y"] "f" ["x"] ].

(** X26. The renaming of dimensions of [coords.py] ends for every list of
    rules, also one with cycles or with repeated rules, and never fails to
    find an entry of [incoming_dim_coords]: the loop returns a dict, and
    the same one with a larger bound on the number of iterations. *)
Theorem old_dim_name_changes_returns {Func} (rules : list (_Rule Func))
    (dims : list string) :
  ∃ fuel name_changes,
    ∀ fuel', (fuel ≤ fuel')%nat →
      _dim_name_changes fuel' rules dims = Some (inr name_changes).
Proof.
  destruct (while_pending_returns rules _ _ _ (initial rules dims)
              (Nat.le_refl _) (Nat.le_refl _) (Nat.le_refl _)
              (initial_well_formed rules dims)) as (fuel & r & Hr).
  exists fuel, r. intros fuel' Hle. unfold _dim_name_changes.
  by eapply while_pending_mono.
Qed.

Lemma old_dim_name_changes_returns_witness :
  ∃ fuel name_changes,
    _dim_name_changes fuel ex_chain ["x"] = Some (inr name_changes).
Proof.
  destruct (old_dim_name_changes_returns ex_chain ["x"]) as (fuel & changes & Hres).
  exists fuel, changes. apply Hres. apply Nat.le_refl.
Defined.

(** X27. Every key of the dict that [_dim_name_changes] of [coords.py]
    returns is a dimension of the data and an output of a fetch rule, and
    its value is the key itself or a name that is reached from it through
    rules with exactly one output, each depending on the name before. *)
Theorem old_dim_name_changes_sound {Func} (rules : list (_Rule Func))
    (dims : list string) (fuel : nat) (changes : gmap string string)
    (dim name : string) :
  _dim_name_changes fuel rules dims = Some (inr changes) →
  changes !! dim = Some name →
  dim ∈ dims ∧ dim ∈ _rule_output_names rules FetchType ∧ leads rules dim name.
Proof.
  intros Hres Hdim. unfold _dim_name_changes in Hres.
  destruct (while_pending_invariant rules (sound rules dims)) with
    (fuel := fuel) (st := initial rules dims) (r := changes)
    as (st & [_ Hnc] & _ & <-); [| |done|].
  - intros st name' rest st' _ Hs Hit. by eapply iteration_sound.
  - split.
    + intros n l x Hl Hx. apply initial_lookup in Hl as [-> Hn].
      apply list_elem_of_singleton in Hx as ->. split; [done|]. apply rtc_refl.
    + intros d n. simpl. by rewrite lookup_empty.
  - destruct (Hnc _ _ Hdim) as [Hd Hleads].
    apply list_elem_of_filter in Hd as [Hd Hfetch]. done.
Qed.

Lemma old_dim_name_changes_sound_witness :
  _dim_name_changes 4 ex_chain ["x"] = Some (inr {[ "x" := "y" ]})
  ∧ leads ex_chain "x" "y".
Proof.
  split; [vm_compute; reflexivity|].
  apply (old_dim_name_changes_sound ex_chain ["x"] 4 {[ "x" := "y" ]} "x" "y");
    vm_compute; reflexivity.
Defined.

(** X28. A dimension of the data that a fetch rule provides, and that is
    not the only output of a rule with a dependency, has an entry in the
    dict that [_dim_name_changes] of [coords.py] returns. *)
Theorem old_dim_name_changes_covers {Func} (rules : list (_Rule Func))
    (dims : list string) (fuel : nat) (changes : gmap string string)
    (dim : string) :
  _dim_name_changes fuel rules dims = Some (inr changes) →
  dim ∈ dims → dim ∈ _rule_output_names rules FetchType →
  (∀ rule, rule ∈ rules → out_names rule = [dim] → dependencies rule = []) →
  is_Some (changes !! dim).
Proof.
  intros Hres Hdims Hfetch Hd. unfold _dim_name_changes in Hres.
  assert (Hin : dim ∈ dim_coords rules dims) by (by apply list_elem_of_filter).
  destruct (while_pending_invariant rules (covered dim)) with
    (fuel := fuel) (st := initial rules dims) (r := changes)
    as (st & [_ Hnc] & Hpend & <-); [| |done|].
  - intros st name' rest st' Hp Hc Hit. by eapply iteration_covered.
  - split; [by apply initial_lookup_dim|]. by left.
  - destruct Hnc as [Hnc|Hnc]; [|done]. rewrite Hpend in Hnc.
    by apply elem_of_nil in Hnc.
Qed.

Lemma old_dim_name_changes_covers_witness :
  ∃ changes, _dim_name_changes 4 ex_chain ["x"] = Some (inr changes)
    ∧ is_Some (changes !! "x").
Proof.
  exists {[ "x" := "y" ]}. split; [vm_compute; reflexivity|].
  apply (old_dim_name_changes_covers ex_chain ["x"] 4 {[ "x" := "y" ]} "x").
  - vm_compute. reflexivity.
  - apply list_elem_of_singleton. reflexivity.
  - vm_compute. left.
  - intros rule Hrule Hout. unfold ex_chain in Hrule.
    repeat (apply elem_of_cons in Hrule as [->|Hrule]); try done.
    by apply elem_of_nil in Hrule.
Defined.

End DimNames.

(* ===================================================================== *)
(** * Part XIV: the write-back of [coords.py] ([_store_results])           *)
(* ===================================================================== *)

Module StoreResults.

Import WriteBack.
Import WriteBackFacts.

(** The exceptions of the write-back: [TypeError] is raised where a
    [_Coord] is unpacked as a pair; the errors of the stores are passed
    on. *)
Inductive Exn := TypeError | StoreError (e : WriteBack.Exn).

Abbreviation res := (result Exn).

Section Store.

Context {Var Indices : Type}.
Variable dense_error : Var → option WriteBack.Exn.
Variable bins_error : Indices → Var → option WriteBack.Exn.
Variable copy_indices : Indices → Indices.

(** [dense_coord, event_coord = coord] at a [_Coord]: the class is a
    dataclass without [__iter__], and unpacking it raises [TypeError]. *)
Definition unpack (coord : Evaluate._Coord Var) : res (option Var * option Var) :=
  raise TypeError.

(** [_store_coord], as the call in [_store_results] finds it. The module
    defines the name twice ([coords.py], lines 283 and 454); the later
    definition, the one of the recursive transform, is the value of the
    name when [_store_results] runs. Its first statement unpacks the
    coordinate. *)
Definition _store_coord (data : DataArray Var Indices) (name : string)
    (coord : Evaluate._Coord Var) : res (DataArray Var Indices) :=
  c ← unpack coord;
  match CoordTransform._store_coord dense_error bins_error copy_indices data name c with
  | inl e => raise (StoreError e)
  | inr data => ok data
  end.

(** The body of the loop of [_store_results]. *)
Definition store_item (targets : list string) (blacklist : gset string)
    (acc : res (DataArray Var Indices))
    (item : string * Evaluate._Coord Var) : res (DataArray Var Indices) :=
  data ← acc;
  if bool_decide (item.1 ∈ blacklist) then ok data
  else
    let c := if bool_decide (item.1 ∈ targets)
             then Evaluate.mkCoord (Evaluate.dense item.2) (Evaluate.event item.2) coord
             else item.2 in
    _store_coord data item.1 c.

(** [_store_results] of [coords.py]; [coords] lists the items of the table
    of coordinates. *)
Definition _store_results (data : DataArray Var Indices)
    (coords : list (string * Evaluate._Coord Var)) (targets : list string)
    (blacklist : gset string) : res (DataArray Var Indices) :=
  let data := shallow_copy data in
  let data := if bool_decide (is_Some (bins data)) then rewrap data else data in
  foldl (store_item targets blacklist) (ok data) coords.

Lemma store_item_error targets blacklist coords e :
  foldl (store_item targets blacklist) (inl e) coords = inl e.
Proof. induction coords as [|item coords IH]; [done|]. simpl. exact IH. Qed.

Lemma store_items_skipped targets blacklist coords data :
  (∀ name, name ∈ coords.*1 → name ∈ blacklist) →
  foldl (store_item targets blacklist) (ok data) coords = inr data.
Proof.
  induction coords as [|[name c] coords IH]; intros Hall; [done|].
  simpl. rewrite bool_decide_eq_true_2 by (apply Hall; by left).
  apply IH. intros n Hn. apply Hall. by right.
Qed.

Lemma store_items_type_error targets blacklist coords data name :
  name ∈ coords.*1 → name ∉ blacklist →
  foldl (store_item targets blacklist) (ok data) coords = inl TypeError.
Proof.
  induction coords as [|[name' c] coords IH]; intros Hin Hnot.
  - by apply elem_of_nil in Hin.
  - simpl. case_bool_decide as Hbl.
    + apply IH; [|done]. rewrite fmap_cons in Hin.
      apply elem_of_cons in Hin as [->|Hin]; [done|exact Hin].
    + apply store_item_error.
Qed.

End Store.

(** X20. The write-back of [coords.py] skips the names on the blacklist.
    When every name of the table is on the blacklist, it returns the copy of
    the input with everything as it is. When some name of the table is not
    on the blacklist, it raises [TypeError]: the call of [_store_coord]
    reaches the later of the two definitions of that name in the module,
    which unpacks its argument, a [_Coord], as a pair. *)
Theorem store_results_skips_blacklist {Var Indices}
    (dense_error : Var → option WriteBack.Exn)
    (bins_error : Indices → Var → option WriteBack.Exn)
    (copy_indices : Indices → Indices)
    (data : DataArray Var Indices) (coords : list (string * Evaluate._Coord Var))
    (targets : list string) (blacklist : gset string) :
  ((∀ name, name ∈ coords.*1 → name ∈ blacklist) →
   _store_results dense_error bins_error copy_indices data coords targets blacklist
   = inr data)
  ∧ (∀ name, name ∈ coords.*1 → name ∉ blacklist →
     _store_results dense_error bins_error copy_indices data coords targets blacklist
     = inl TypeError).
Proof.
  unfold _store_results, shallow_copy, rewrap. split.
  - intros Hall. destruct (bool_decide (is_Some (bins data)));
      by apply store_items_skipped.
  - intros name Hin Hnot. destruct (bool_decide (is_Some (bins data)));
      by eapply store_items_type_error.
Qed.

Lemma store_results_skips_blacklist_witness :
  _store_results ex_dense_error ex_bins_error ex_copy_indices ex_sliced
    [("y", Evaluate.mkCoord (Some []) None attr)] ["y"] {[ "y" ]} = inr ex_sliced
  ∧ _store_results ex_dense_error ex_bins_error ex_copy_indices ex_sliced
      [("y", Evaluate.mkCoord (Some []) None attr);
       ("z", Evaluate.mkCoord (Some []) None attr)]
      ["y"; "z"] {[ "y" ]} = inl TypeError.
Proof.
  split.
  - apply (proj1 (store_results_skips_blacklist ex_dense_error ex_bins_error
                    ex_copy_indices ex_sliced
                    [("y", Evaluate.mkCoord (Some []) None attr)] ["y"] {[ "y" ]})).
    intros name Hin. apply list_elem_of_singleton in Hin. subst name.
    by apply elem_of_singleton.
  - apply (proj2 (store_results_skips_blacklist ex_dense_error ex_bins_error
                    ex_copy_indices ex_sliced
                    [("y", Evaluate.mkCoord (Some []) None attr);
                     ("z", Evaluate.mkCoord (Some []) None attr)]
                    ["y"; "z"] {[ "y" ]}) "z").
    + apply elem_of_cons. right. by left.
    + intros Hz. apply elem_of_singleton in Hz. discriminate Hz.
Defined.

End StoreResults.
